(** * Finch UI: element tree, geometry resolver, flex layout, event routing
      and the reactive state cell.

    Shallow embedding of [components/node.go], [components/containers.go],
    [components/controls.go] (Button, Checkbox, BaseElement, PointInRect, the
    renderer's clipping test), the mouse handlers of [components/text.go],
    the select box of [components/form.go], the type declarations of the
    components package (PositionType, FlexDirection, Alignment, BoxModel,
    Spacing, NodeElement, parseSelectorString) and the [State] cell of the
    fluent API.

    Go pointers to UI objects are addresses into a finite map; an [Element]
    interface value is a pair of a dynamic type and an address, so that method
    dispatch, the type assertion [.(NodeElement)] and interface equality
    [c == child] are the ones of the program.  Methods that mutate objects
    are written in a state-and-failure monad over the store.

    Left out: [Draw] and everything only it reads (colours, text, fonts),
    the [Printf] traces of [BaseElement], the text area and the form of
    [form.go], and the widgets of [media.go]. *)

From Stdlib Require Import ZArith Lia Bool.
From stdpp Require Import base option list gmap strings.

(** ** Go's [int]: 64-bit two's complement with silent wrap-around *)

Module GoInt.

Definition wrap (z : Z) : Z := ((z + 2 ^ 63) `mod` 2 ^ 64 - 2 ^ 63)%Z.

Definition add (a b : Z) : Z := wrap (a + b).

Definition sub (a b : Z) : Z := wrap (a - b).

(** Go's [/] truncates toward zero. *)
Definition quot (a b : Z) : Z := wrap (Z.quot a b).

End GoInt.

(** ** Geometry and box model (type declarations of the components package) *)

Record Rect := mkRect { X : Z; Y : Z; Width : Z; Height : Z }.

Record Point := mkPoint { PX : Z; PY : Z }.

Inductive PositionType := PositionRelative | PositionAbsolute | PositionFixed.

Inductive FlexDirection := FlexRow | FlexColumn.

Inductive Alignment := AlignStart | AlignCenter | AlignEnd | AlignStretch.

Record Spacing := mkSpacing { Top : Z; Right : Z; Bottom : Z; Left : Z }.

Inductive BorderStyle := BorderNone | BorderSolid | BorderDashed | BorderDotted.

(** The border colour only matters to drawing and is left out. *)
Record Border := mkBorder { BorderWidth : Spacing; Style : BorderStyle }.

Record BoxModel := mkBoxModel { Margin : Spacing; Padding : Spacing; BorderOf : Border }.

Definition zeroSpacing : Spacing := mkSpacing 0 0 0 0.

(** [BoxModel{}], the zero value. *)
Definition zeroBoxModel : BoxModel :=
  mkBoxModel zeroSpacing zeroSpacing (mkBorder zeroSpacing BorderNone).

#[global] Instance Rect_eq_dec : EqDecision Rect.
Proof. solve_decision. Defined.

#[global] Instance PositionType_eq_dec : EqDecision PositionType.
Proof. solve_decision. Defined.

#[global] Instance FlexDirection_eq_dec : EqDecision FlexDirection.
Proof. solve_decision. Defined.

(** [PointInRect]: half-open on the right and bottom edges; the sums are
    Go [int] sums. *)
Definition PointInRect (p : Point) (r : Rect) : bool :=
  (X r <=? PX p)%Z && (PX p <? GoInt.add (X r) (Width r))%Z
  && (Y r <=? PY p)%Z && (PY p <? GoInt.add (Y r) (Height r))%Z.

(** ** Objects and interface values *)

Definition addr := nat.

(** The dynamic type carried by a non-nil [Element] interface value.
    [TBaseElement] is [*BaseElement], the receiver that
    [BaseElement.AddChild] hands to [SetParent]; it does not implement
    [NodeElement]. *)
Inductive DynType :=
| TBaseElement | TNode | TButton | TCheckbox | TFlexContainer | TText | TLabel.

#[global] Instance DynType_eq_dec : EqDecision DynType.
Proof. solve_decision. Defined.

Record Ref := mkRef { rtype : DynType; raddr : addr }.

#[global] Instance Ref_eq_dec : EqDecision Ref.
Proof. solve_decision. Defined.

(** The type assertion [e.(NodeElement)] succeeds for every type that embeds
    [*Node] (they all inherit [ComputedBounds] and [GetBoxModel]). *)
Definition isNodeElement (t : DynType) : bool :=
  match t with TBaseElement => false | _ => true end.

(** Callbacks are opaque closures: a registered callback is a token, and
    calling it is recorded in the world's log together with the address of
    the object that made the call. *)
Definition Callback := nat.

Inductive Event :=
| Clicked (src : addr) (cb : Callback)
| CheckedChanged (src : addr) (cb : Callback) (checked : bool).

(** The object whose method made the call. *)
Definition source (e : Event) : addr :=
  match e with Clicked a _ | CheckedChanged a _ _ => a end.

Module BaseElement.

Record t := mk {
  id : string;
  bounds : Rect;
  parent : option Ref;
  children : list Ref;
  mouseOver : bool;
  pressed : bool
}.

Definition set_bounds (r : Rect) (b : t) : t :=
  mk (id b) r (parent b) (children b) (mouseOver b) (pressed b).

Definition set_parent (p : option Ref) (b : t) : t :=
  mk (id b) (bounds b) p (children b) (mouseOver b) (pressed b).

Definition set_children (cs : list Ref) (b : t) : t :=
  mk (id b) (bounds b) (parent b) cs (mouseOver b) (pressed b).

Definition set_mouseOver (v : bool) (b : t) : t :=
  mk (id b) (bounds b) (parent b) (children b) v (pressed b).

Definition set_pressed (v : bool) (b : t) : t :=
  mk (id b) (bounds b) (parent b) (children b) (mouseOver b) v.

(** [NewBaseElement] *)
Definition new (i : string) : t := mk i (mkRect 0 0 0 0) None [] false false.

End BaseElement.

Module Node.

Record t := mk {
  positionType : PositionType;
  boxModel : BoxModel;
  relativePos : Point;
  flexDirection : FlexDirection;
  alignItems : Alignment;
  justifyContent : Alignment;
  classNames : list string;
  visible : bool
}.

(** The fields [NewNode] sets next to its fresh [BaseElement]. *)
Definition new : t :=
  mk PositionRelative zeroBoxModel (mkPoint 0 0) FlexRow AlignStart AlignStart [] true.

Definition set_positionType (p : PositionType) (n : t) : t :=
  mk p (boxModel n) (relativePos n) (flexDirection n) (alignItems n)
     (justifyContent n) (classNames n) (visible n).

Definition set_boxModel (b : BoxModel) (n : t) : t :=
  mk (positionType n) b (relativePos n) (flexDirection n) (alignItems n)
     (justifyContent n) (classNames n) (visible n).

Definition set_relativePos (p : Point) (n : t) : t :=
  mk (positionType n) (boxModel n) p (flexDirection n) (alignItems n)
     (justifyContent n) (classNames n) (visible n).

End Node.

(** Text, colours and font size of the widgets only matter to [Draw]. *)
Module Button.

Record t := mk {
  onClick : option Callback;
  hovered : bool;
  pressed : bool;
  disabled : bool
}.

Definition new : t := mk None false false false.

Definition set_hovered (v : bool) (b : t) : t :=
  mk (onClick b) v (pressed b) (disabled b).

Definition set_pressed (v : bool) (b : t) : t :=
  mk (onClick b) (hovered b) v (disabled b).

End Button.

Module Checkbox.

Record t := mk {
  checked : bool;
  checkedChanged : option Callback
}.

Definition new : t := mk false None.

Definition set_checked (v : bool) (c : t) : t := mk v (checkedChanged c).

End Checkbox.

Module FlexContainer.

Record t := mk {
  flexDirection : FlexDirection;
  alignItems : Alignment;
  justifyContent : Alignment;
  spacing : Z
}.

Definition new : t := mk FlexRow AlignStart AlignStart 5.


End FlexContainer.

(** What the outermost struct adds to its embedded [*Node]. *)
Inductive Widget :=
| WNode
| WButton (b : Button.t)
| WCheckbox (c : Checkbox.t)
| WFlexContainer (f : FlexContainer.t)
| WText
| WLabel.

(** One UI object: the [BaseElement] and [Node] it embeds by pointer and its
    own fields, all at one address. *)
Record Object := mkObject {
  base : BaseElement.t;
  node : Node.t;
  widget : Widget
}.

Definition set_base (f : BaseElement.t -> BaseElement.t) (o : Object) : Object :=
  mkObject (f (base o)) (node o) (widget o).

Definition set_node (f : Node.t -> Node.t) (o : Object) : Object :=
  mkObject (base o) (f (node o)) (widget o).

Definition set_widget (wd : Widget) (o : Object) : Object :=
  mkObject (base o) (node o) wd.

Record World := mkWorld {
  heap : gmap addr Object;
  log : list Event
}.

(** ** The monad of methods: state over the world, failure for a panic (nil
    dereference, index out of range) or for exhausted recursion fuel. *)

Definition M (A : Type) : Type := World -> option (A * World).

#[global] Instance M_ret : MRet M := fun A a w => Some (a, w).

#[global] Instance M_bind : MBind M := fun A B f m w =>
  match m w with
  | Some (a, w') => f a w'
  | None => None
  end.

Definition fail {A} : M A := fun _ => None.

Definition get_obj (a : addr) : M Object :=
  fun w => match heap w !! a with
           | Some o => Some (o, w)
           | None => None
           end.

Definition modify_obj (a : addr) (f : Object -> Object) : M unit :=
  fun w => match heap w !! a with
           | Some o => Some (tt, mkWorld (<[a := f o]> (heap w)) (log w))
           | None => None
           end.

(** A call of a registered callback.  The call is recorded; what the Go
    closure then does to the store is not part of the model, so a statement
    about the store after an event speaks of the handler's own writes, or is
    made for events during which no callback is called. *)
Definition emit (e : Event) : M unit :=
  fun w => Some (tt, mkWorld (heap w) (log w ++ [e])).

(** ** BaseElement accessors.  No type overrides them, so a call through an
    interface value reaches the [BaseElement] at the value's address. *)

Definition Bounds (a : addr) : M Rect :=
  o ← get_obj a; mret (BaseElement.bounds (base o)).

Definition SetBounds (a : addr) (r : Rect) : M unit :=
  modify_obj a (set_base (BaseElement.set_bounds r)).

Definition Parent (a : addr) : M (option Ref) :=
  o ← get_obj a; mret (BaseElement.parent (base o)).

Definition SetParent (a : addr) (p : option Ref) : M unit :=
  modify_obj a (set_base (BaseElement.set_parent p)).

Definition Children (a : addr) : M (list Ref) :=
  o ← get_obj a; mret (BaseElement.children (base o)).

Definition GetBoxModel (a : addr) : M BoxModel :=
  o ← get_obj a; mret (Node.boxModel (node o)).

(** ** Geometry resolver: [Node.ComputedBounds] *)

(** The parent's content area: its computed bounds moved and shrunk by its
    padding ([parentBounds.X += ...Padding.Left] and the three lines after
    it). *)
Definition contentBox (pb : Rect) (pad : Spacing) : Rect :=
  mkRect (GoInt.add (X pb) (Left pad))
         (GoInt.add (Y pb) (Top pad))
         (GoInt.sub (Width pb) (GoInt.add (Left pad) (Right pad)))
         (GoInt.sub (Height pb) (GoInt.add (Top pad) (Bottom pad))).

(** [bounds.X += d.boxModel.Margin.Left; bounds.Y += d.boxModel.Margin.Top] *)
Definition applyMargin (m : Spacing) (b : Rect) : Rect :=
  mkRect (GoInt.add (X b) (Left m)) (GoInt.add (Y b) (Top m)) (Width b) (Height b).

(** The recursion follows parent pointers, which the store does not bound:
    [k] is the number of nested calls allowed. *)
Fixpoint ComputedBounds (k : nat) (d : addr) : M Rect :=
  match k with
  | O => fail
  | S k' =>
    o ← get_obj d;
    let n := node o in
    let bounds := BaseElement.bounds (base o) in
    bounds ←
      match (if decide (Node.positionType n = PositionFixed) then None
             else BaseElement.parent (base o)) with
      | Some p =>
        parentBounds ←
          (if isNodeElement (rtype p) then
             pb ← ComputedBounds k' (raddr p);
             parentBoxModel ← GetBoxModel (raddr p);
             mret (contentBox pb (Padding parentBoxModel))
           else Bounds (raddr p));
        match Node.positionType n with
        | PositionRelative | PositionAbsolute =>
          mret (mkRect (GoInt.add (X parentBounds) (PX (Node.relativePos n)))
                       (GoInt.add (Y parentBounds) (PY (Node.relativePos n)))
                       (Width bounds) (Height bounds))
        | PositionFixed => mret bounds
        end
      | None => mret bounds
      end;
    mret (applyMargin (Margin (Node.boxModel n)) bounds)
  end.

(** [resolve] is the same recursion as a function of the store alone; the
    method is shown below to compute it and to hand the world back
    untouched. *)
Fixpoint resolve (k : nat) (h : gmap addr Object) (d : addr) : option Rect :=
  match k with
  | O => None
  | S k' =>
    o ← h !! d;
    let n := node o in
    let bounds := BaseElement.bounds (base o) in
    bounds ←
      match (if decide (Node.positionType n = PositionFixed) then None
             else BaseElement.parent (base o)) with
      | Some p =>
        parentBounds ←
          (if isNodeElement (rtype p) then
             pb ← resolve k' h (raddr p);
             po ← h !! raddr p;
             Some (contentBox pb (Padding (Node.boxModel (node po))))
           else po ← h !! raddr p; Some (BaseElement.bounds (base po)));
        Some (mkRect (GoInt.add (X parentBounds) (PX (Node.relativePos n)))
                     (GoInt.add (Y parentBounds) (PY (Node.relativePos n)))
                     (Width bounds) (Height bounds))
      | None => Some bounds
      end;
    Some (applyMargin (Margin (Node.boxModel n)) bounds)
  end.

(** ** Element tree: [BaseElement.AddChild], [BaseElement.RemoveChild]

    The receiver [b] is the [*BaseElement] of the object at that address, and
    it is this pointer, of dynamic type [*BaseElement], that the child gets as
    its parent.  The [Printf] traces are left out. *)

Definition BaseElement_AddChild (b : addr) (child : Ref) : M unit :=
  modify_obj b (set_base (fun e =>
    BaseElement.set_children (BaseElement.children e ++ [child]) e));;
  SetParent (raddr child) (Some (mkRef TBaseElement b)).

(** The loop of [RemoveChild]: drop the first element equal to [child] (as
    interface values) and stop. *)
Fixpoint remove_first (child : Ref) (cs : list Ref) : list Ref :=
  match cs with
  | [] => []
  | c :: rest => if decide (c = child) then rest else c :: remove_first child rest
  end.

Definition BaseElement_RemoveChild (b : addr) (child : Ref) : M unit :=
  modify_obj b (set_base (fun e =>
    BaseElement.set_children (remove_first child (BaseElement.children e)) e)).

Definition BaseElement_RemoveAllChildren (b : addr) : M unit :=
  modify_obj b (set_base (BaseElement.set_children [])).

(** ** Flex layout engine: [FlexContainer.updateLayout] *)

Definition get_flex (f : addr) : M FlexContainer.t :=
  o ← get_obj f;
  match widget o with
  | WFlexContainer ff => mret ff
  | _ => fail
  end.

(** The [switch f.alignItems] of the row loop: the child's [y] and height. *)
Definition alignCross (al : Alignment) (contentPos contentSize childSize : Z) : Z * Z :=
  match al with
  | AlignStart => (contentPos, childSize)
  | AlignCenter =>
    (GoInt.add contentPos (GoInt.quot (GoInt.sub contentSize childSize) 2), childSize)
  | AlignEnd => (GoInt.sub (GoInt.add contentPos contentSize) childSize, childSize)
  | AlignStretch => (contentPos, contentSize)
  end.

(** The row loop over [range f.Children()], [x] being the cursor.  The loop
    writes nothing but children's bounds, so the container's [alignItems]
    and [spacing] it reads at every turn are passed in as [ff]. *)
Fixpoint layoutRow (ff : FlexContainer.t) (contentY contentHeight : Z)
    (x : Z) (cs : list Ref) : M unit :=
  match cs with
  | [] => mret tt
  | child :: rest =>
    childBounds ← Bounds (raddr child);
    let '(y, childHeight) :=
      alignCross (FlexContainer.alignItems ff) contentY contentHeight
                 (Height childBounds) in
    SetBounds (raddr child) (mkRect x y (Width childBounds) childHeight);;
    layoutRow ff contentY contentHeight
      (GoInt.add x (GoInt.add (Width childBounds) (FlexContainer.spacing ff))) rest
  end.

Fixpoint layoutColumn (ff : FlexContainer.t) (contentX contentWidth : Z)
    (y : Z) (cs : list Ref) : M unit :=
  match cs with
  | [] => mret tt
  | child :: rest =>
    childBounds ← Bounds (raddr child);
    let '(x, childWidth) :=
      alignCross (FlexContainer.alignItems ff) contentX contentWidth
                 (Width childBounds) in
    SetBounds (raddr child) (mkRect x y childWidth (Height childBounds));;
    layoutColumn ff contentX contentWidth
      (GoInt.add y (GoInt.add (Height childBounds) (FlexContainer.spacing ff))) rest
  end.

(** The content area [updateLayout] computes from the container's computed
    bounds and its own padding. *)
Definition layoutContent (bounds : Rect) (boxModel : BoxModel) : Rect :=
  let pad := Padding boxModel in
  mkRect (GoInt.add (X bounds) (Left pad))
         (GoInt.add (Y bounds) (Top pad))
         (GoInt.sub (GoInt.sub (Width bounds) (Left pad)) (Right pad))
         (GoInt.sub (GoInt.sub (Height bounds) (Top pad)) (Bottom pad)).

Definition updateLayout (k : nat) (f : addr) : M unit :=
  cs ← Children f;
  if decide (length cs = 0) then mret tt
  else
    bounds ← ComputedBounds k f;
    boxModel ← GetBoxModel f;
    let content := layoutContent bounds boxModel in
    ff ← get_flex f;
    cs ← Children f;
    match FlexContainer.flexDirection ff with
    | FlexRow => layoutRow ff (Y content) (Height content) (X content) cs
    | FlexColumn => layoutColumn ff (X content) (Width content) (Y content) cs
    end.




(** ** Event router *)

Inductive MouseEvent := MouseDown | MouseUp | MouseMove.

(** The loop [for i := len(children) - 1; i >= 0; i--] that every handler
    runs: [i] is the number of children still to visit, the child is read
    from the parent's current slice at each turn, and the first child that
    reports the event handled ends the loop. *)
Fixpoint dispatchLoop (call : Ref -> M bool) (b : addr) (i : nat) : M bool :=
  match i with
  | O => mret false
  | S j =>
    cs ← Children b;
    match (cs : list Ref) !! j with
    | Some child =>
      handled ← call child;
      if (handled : bool) then mret true else dispatchLoop call b j
    | None => fail
    end
  end.

Definition dispatchChildren (call : Ref -> M bool) (b : addr) : M bool :=
  cs ← Children b;
  dispatchLoop call b (length cs).

(** [BaseElement.IsMouseOver] tests the local bounds. *)
Definition IsMouseOver (b : addr) (x y : Z) : M bool :=
  r ← Bounds b;
  mret (PointInRect (mkPoint x y) r).

Definition BaseElement_HandleMouseDown (call : Ref -> M bool) (b : addr) (x y : Z)
    : M bool :=
  over ← IsMouseOver b x y;
  if (over : bool) then
    modify_obj b (set_base (BaseElement.set_pressed true));;
    handled ← dispatchChildren call b;
    if (handled : bool) then mret true else mret true
  else mret false.

Definition BaseElement_HandleMouseUp (call : Ref -> M bool) (b : addr) (x y : Z)
    : M bool :=
  o ← get_obj b;
  let wasPressed := BaseElement.pressed (base o) in
  modify_obj b (set_base (BaseElement.set_pressed false));;
  over ← (if wasPressed then IsMouseOver b x y else mret false);
  if wasPressed && (over : bool) then
    handled ← dispatchChildren call b;
    if (handled : bool) then mret true else mret true
  else
    handled ← dispatchChildren call b;
    if (handled : bool) then mret true else mret false.

Definition BaseElement_HandleMouseMove (call : Ref -> M bool) (b : addr) (x y : Z)
    : M bool :=
  over ← IsMouseOver b x y;
  modify_obj b (set_base (BaseElement.set_mouseOver over));;
  handled ← dispatchChildren call b;
  if (handled : bool) then mret true
  else o ← get_obj b; mret (BaseElement.mouseOver (base o)).

Definition get_button (a : addr) : M Button.t :=
  o ← get_obj a;
  match widget o with
  | WButton bt => mret bt
  | _ => fail
  end.

Definition set_button (a : addr) (f : Button.t -> Button.t) : M unit :=
  bt ← get_button a;
  modify_obj a (set_widget (WButton (f bt))).

Definition Button_HandleMouseDown (k : nat) (call : Ref -> M bool) (b : addr)
    (x y : Z) : M bool :=
  bt ← get_button b;
  if Button.disabled bt then mret false
  else
    bounds ← ComputedBounds k b;
    if PointInRect (mkPoint x y) bounds then
      set_button b (Button.set_pressed true);;
      handled ← dispatchChildren call b;
      if (handled : bool) then mret true else mret true
    else mret false.

Definition Button_HandleMouseUp (k : nat) (call : Ref -> M bool) (b : addr)
    (x y : Z) : M bool :=
  bt ← get_button b;
  let wasPressed := Button.pressed bt in
  set_button b (Button.set_pressed false);;
  if Button.disabled bt then mret false
  else
    bounds ← ComputedBounds k b;
    if wasPressed && PointInRect (mkPoint x y) bounds then
      match Button.onClick bt with
      | Some cb => emit (Clicked b cb)
      | None => mret tt
      end;;
      mret true
    else dispatchChildren call b.

Definition Button_HandleMouseMove (k : nat) (call : Ref -> M bool) (b : addr)
    (x y : Z) : M bool :=
  bt ← get_button b;
  let wasHovered := Button.hovered bt in
  bounds ← ComputedBounds k b;
  set_button b (Button.set_hovered (PointInRect (mkPoint x y) bounds));;
  handled ← dispatchChildren call b;
  if (handled : bool) then mret true
  else
    bt ← get_button b;
    mret (Button.hovered bt || negb (eqb wasHovered (Button.hovered bt))).

Definition get_checkbox (a : addr) : M Checkbox.t :=
  o ← get_obj a;
  match widget o with
  | WCheckbox c => mret c
  | _ => fail
  end.

Definition Checkbox_HandleMouseDown (k : nat) (c : addr) (x y : Z) : M bool :=
  bounds ← ComputedBounds k c;
  if PointInRect (mkPoint x y) bounds then
    cb ← get_checkbox c;
    let checked := negb (Checkbox.checked cb) in
    modify_obj c (set_widget (WCheckbox (Checkbox.set_checked checked cb)));;
    match Checkbox.checkedChanged cb with
    | Some handler => emit (CheckedChanged c handler checked)
    | None => mret tt
    end;;
    mret true
  else mret false.

Definition Checkbox_HandleMouseMove (c : addr) (x y : Z) : M bool := mret false.

Definition FlexContainer_HandleMouseDown (k : nat) (call : Ref -> M bool) (f : addr)
    (x y : Z) : M bool :=
  bounds ← ComputedBounds k f;
  if PointInRect (mkPoint x y) bounds then
    handled ← dispatchChildren call f;
    if (handled : bool) then mret true else mret true
  else mret false.

Definition FlexContainer_HandleMouseUp (call : Ref -> M bool) (f : addr) (x y : Z)
    : M bool :=
  dispatchChildren call f.

Definition FlexContainer_HandleMouseMove (call : Ref -> M bool) (f : addr) (x y : Z)
    : M bool :=
  dispatchChildren call f.

(** [Text] and [Label] pass mouse-down and mouse-move on to their children. *)
Definition Text_HandleMouseDown (call : Ref -> M bool) (t : addr) (x y : Z) : M bool :=
  dispatchChildren call t.

Definition Text_HandleMouseMove (call : Ref -> M bool) (t : addr) (x y : Z) : M bool :=
  dispatchChildren call t.

(** Dynamic dispatch of [e.HandleMouseDown(x, y)], [e.HandleMouseUp(x, y)] and
    [e.HandleMouseMove(x, y)] on an interface value [e]: the method of the
    dynamic type, or the one promoted from the embedded [BaseElement].
    [n] bounds the depth of nested handler calls and [k] is the fuel given to
    every [ComputedBounds]. *)
Fixpoint HandleMouse (n k : nat) (ev : MouseEvent) (e : Ref) (x y : Z) : M bool :=
  match n with
  | O => fail
  | S n' =>
    let call := fun child => HandleMouse n' k ev child x y in
    let a := raddr e in
    match rtype e, ev with
    | (TBaseElement | TNode), MouseDown => BaseElement_HandleMouseDown call a x y
    | (TBaseElement | TNode), MouseUp => BaseElement_HandleMouseUp call a x y
    | (TBaseElement | TNode), MouseMove => BaseElement_HandleMouseMove call a x y
    | TButton, MouseDown => Button_HandleMouseDown k call a x y
    | TButton, MouseUp => Button_HandleMouseUp k call a x y
    | TButton, MouseMove => Button_HandleMouseMove k call a x y
    | TCheckbox, MouseDown => Checkbox_HandleMouseDown k a x y
    | TCheckbox, MouseUp => BaseElement_HandleMouseUp call a x y
    | TCheckbox, MouseMove => Checkbox_HandleMouseMove a x y
    | TFlexContainer, MouseDown => FlexContainer_HandleMouseDown k call a x y
    | TFlexContainer, MouseUp => FlexContainer_HandleMouseUp call a x y
    | TFlexContainer, MouseMove => FlexContainer_HandleMouseMove call a x y
    | (TText | TLabel), MouseDown => Text_HandleMouseDown call a x y
    | (TText | TLabel), MouseUp => BaseElement_HandleMouseUp call a x y
    | (TText | TLabel), MouseMove => Text_HandleMouseMove call a x y
    end
  end.

Definition HandleMouseDown (n k : nat) (e : Ref) (x y : Z) : M bool :=
  HandleMouse n k MouseDown e x y.

Definition HandleMouseUp (n k : nat) (e : Ref) (x y : Z) : M bool :=
  HandleMouse n k MouseUp e x y.

Definition HandleMouseMove (n k : nat) (e : Ref) (x y : Z) : M bool :=
  HandleMouse n k MouseMove e x y.

(** ** Reactive state cell: [State] of the fluent API

    The value is boxed ([interface{}] in the source), here a type [V].  A
    watcher is a Go closure: besides acting on the application around the
    cell it may call back into the cell it watches.  What a closure does when
    it runs is written as a command: [Emit e] is an effect outside the cell,
    recorded in a trace of type [list E]; [CallUpdate] and [CallWatch] are
    calls of [s.Update] and [s.Watch] on the same cell.  Such calls nest
    without bound, so running a command takes the number [n] of steps it may
    use. *)

Module State.
Section Cell.
Context {V E : Type}.

Inductive Cmd :=
| Done
| Emit (e : E) (k : Cmd)
| CallUpdate (transform : V -> V) (k : Cmd)
| CallWatch (watcher : V -> Cmd) (k : Cmd).

Record t := mk {
  value : V;
  watchers : list (V -> Cmd)
}.

(** [ui.State(initialValue)] *)
Definition new (initialValue : V) : t := mk initialValue [].

(** A method of the cell: from the cell and the trace so far to the cell and
    the trace it leaves, or nothing when the steps run out. *)
Definition Run : Type := t -> list E -> option (t * list E).

(** [for _, watcher := range s.watchers { watcher(s.value) }]: the slice is
    the one read when the loop starts, the value is read again at every
    turn. *)
Fixpoint notify (call : Cmd -> Run) (ws : list (V -> Cmd)) : Run :=
  fun s trace =>
    match ws with
    | [] => Some (s, trace)
    | watcher :: rest =>
      match call (watcher (value s)) s trace with
      | Some (s', trace') => notify call rest s' trace'
      | None => None
      end
    end.

Definition UpdateWith (call : Cmd -> Run) (transform : V -> V) : Run :=
  fun s trace =>
    let newValue := transform (value s) in
    let s := mk newValue (watchers s) in
    notify call (watchers s) s trace.

Definition WatchWith (call : Cmd -> Run) (watcher : V -> Cmd) : Run :=
  fun s trace =>
    let s := mk (value s) (watchers s ++ [watcher]) in
    call (watcher (value s)) s trace.

(** Running the body of a closure. *)
Fixpoint exec (n : nat) (c : Cmd) : Run :=
  fun s trace =>
    match n with
    | O => None
    | S n' =>
      match c with
      | Done => Some (s, trace)
      | Emit e k => exec n' k s (trace ++ [e])
      | CallUpdate transform k =>
        match UpdateWith (exec n') transform s trace with
        | Some (s', trace') => exec n' k s' trace'
        | None => None
        end
      | CallWatch watcher k =>
        match WatchWith (exec n') watcher s trace with
        | Some (s', trace') => exec n' k s' trace'
        | None => None
        end
      end
    end.

Definition Update (n : nat) (transform : V -> V) : Run := UpdateWith (exec n) transform.

Definition Watch (n : nat) (watcher : V -> Cmd) : Run := WatchWith (exec n) watcher.

Definition Value (s : t) : V := value s.

(** A closure that only acts outside the cell, and what it does there. *)
Fixpoint passive (c : Cmd) : Prop :=
  match c with
  | Done => True
  | Emit _ k => passive k
  | CallUpdate _ _ | CallWatch _ _ => False
  end.

Fixpoint says (c : Cmd) : list E :=
  match c with
  | Emit e k => e :: says k
  | _ => []
  end.

(** The watchers in [ws] are passive when called with [v], and [n] steps are
    enough to run each of them. *)
Definition observers (n : nat) (ws : list (V -> Cmd)) (v : V) : Prop :=
  forall w, w ∈ ws -> passive (w v) /\ length (says (w v)) < n.

End Cell.

Arguments Cmd : clear implicits.
Arguments t : clear implicits.
Arguments Run : clear implicits.

(** A watcher that writes down who was called, and with what. *)
Definition recorder {V : Type} (i : nat) : V -> Cmd V (nat * V) :=
  fun v => Emit (i, v) Done.

(** A watcher that, when it sees 1, updates the cell it watches. *)
Definition bump : Z -> Cmd Z (nat * Z) :=
  fun v => if (v =? 1)%Z then CallUpdate (fun x => (x + 10)%Z) Done else Done.

End State.

(** ** Well-formed trees

    The invariants of the element tree: every reference points to an object
    that has the layer its dynamic type names, and no object is its own
    descendant or ancestor.  Acyclicity is witnessed by a rank [rk] that
    decreases from an object to its children, increases to its parent and
    stays below [D]. *)

Definition widget_ok (t : DynType) (wd : Widget) : Prop :=
  match t with
  | TBaseElement | TNode => True
  | TButton => exists bt, wd = WButton bt
  | TCheckbox => exists c, wd = WCheckbox c
  | TFlexContainer => exists ff, wd = WFlexContainer ff
  | TText => wd = WText
  | TLabel => wd = WLabel
  end.

Definition ref_ok (w : World) (e : Ref) : Prop :=
  exists o, heap w !! raddr e = Some o /\ widget_ok (rtype e) (widget o).

Definition wf (D : nat) (rk : addr -> nat) (w : World) : Prop :=
  forall a o, heap w !! a = Some o ->
    rk a < D /\
    (forall c, c ∈ BaseElement.children (base o) ->
       ref_ok w c /\ rk (raddr c) < rk a) /\
    (forall p, BaseElement.parent (base o) = Some p ->
       is_Some (heap w !! raddr p) /\ rk a < rk (raddr p)).

(** A checker for [wf] on a concrete world. *)
Definition widget_okb (t : DynType) (wd : Widget) : bool :=
  match t, wd with
  | (TBaseElement | TNode), _ => true
  | TButton, WButton _ => true
  | TCheckbox, WCheckbox _ => true
  | TFlexContainer, WFlexContainer _ => true
  | TText, WText => true
  | TLabel, WLabel => true
  | _, _ => false
  end.

Definition ref_okb (w : World) (e : Ref) : bool :=
  match heap w !! raddr e with
  | Some o => widget_okb (rtype e) (widget o)
  | None => false
  end.

Definition wf_objb (D : nat) (rk : addr -> nat) (w : World) (a : addr) (o : Object) : bool :=
  (rk a <? D)
  && forallb (fun c => ref_okb w c && (rk (raddr c) <? rk a))
             (BaseElement.children (base o))
  && match BaseElement.parent (base o) with
     | None => true
     | Some p =>
       match heap w !! raddr p with
       | Some _ => rk a <? rk (raddr p)
       | None => false
       end
     end.

Definition wfb (D : nat) (rk : addr -> nat) (w : World) : bool :=
  forallb (fun ao => wf_objb D rk w ao.1 ao.2) (map_to_list (heap w)).

(** What handlers never change: everything but the interaction flags. *)
Definition erase_widget (wd : Widget) : Widget :=
  match wd with
  | WButton bt => WButton (Button.set_hovered false (Button.set_pressed false bt))
  | WCheckbox c => WCheckbox (Checkbox.set_checked false c)
  | _ => wd
  end.

Definition erase (o : Object) : Object :=
  mkObject (BaseElement.set_mouseOver false (BaseElement.set_pressed false (base o)))
           (node o) (erase_widget (widget o)).

Definition same_structure (w w' : World) : Prop :=
  forall a, erase <$> heap w' !! a = erase <$> heap w !! a.

(** [evolves rk m w w']: from [w] to [w'] only interaction flags changed, only
    in objects of rank below [m], and the callbacks that ran were called by
    such objects. *)
Definition evolves (rk : addr -> nat) (m : nat) (w w' : World) : Prop :=
  same_structure w w' /\
  (forall a, m <= rk a -> heap w' !! a = heap w !! a) /\
  exists evs, log w' = log w ++ evs /\ Forall (fun e => rk (source e) < m) evs.

(** The children of [rs] that decline the event one after the other. *)
Fixpoint declined (call : Ref -> M bool) (rs : list Ref) (w : World) : option World :=
  match rs with
  | [] => Some w
  | r :: rest =>
    match call r w with
    | Some (false, w') => declined call rest w'
    | _ => None
    end
  end.

(** ** Concrete trees used below *)

Definition plainNode (i : string) (bounds : Rect) (parent : option Ref)
    (children : list Ref) (n : Node.t) : Object :=
  mkObject (BaseElement.mk i bounds parent children false false) n WNode.

(** A node at (50,60) with padding and, attached to it by [SetParent], a node
    with local bounds (10,20,30,40), relative position (3,4) and a margin. *)
Definition geometry_panel : Object :=
  plainNode "panel" (mkRect 50 60 200 100) None [mkRef TNode 1]
    (Node.set_boxModel
       (mkBoxModel zeroSpacing (mkSpacing 7 0 0 5) (mkBorder zeroSpacing BorderNone))
       Node.new).

Definition geometry_item : Object :=
  plainNode "item" (mkRect 10 20 30 40) (Some (mkRef TNode 0)) []
    (Node.set_relativePos (mkPoint 3 4)
       (Node.set_boxModel
          (mkBoxModel (mkSpacing 1 0 0 2) zeroSpacing (mkBorder zeroSpacing BorderNone))
          Node.new)).

Definition geometry_world : World :=
  mkWorld (list_to_map [ (0, geometry_panel); (1, geometry_item) ]) [].

Definition geometry_rank (a : addr) : nat :=
  match a with O => 1 | _ => 0 end.

(** The rectangle claim C1 describes: the parent's content-box origin plus the
    x, y of the element's local bounds plus its margin. *)
Definition boundsFromLocalOffset (pr : Rect) (po o : Object) : Rect :=
  let pad := Padding (Node.boxModel (node po)) in
  let m := Margin (Node.boxModel (node o)) in
  let local := BaseElement.bounds (base o) in
  mkRect (GoInt.add (GoInt.add (GoInt.add (X pr) (Left pad)) (X local)) (Left m))
         (GoInt.add (GoInt.add (GoInt.add (Y pr) (Top pad)) (Y local)) (Top m))
         (Width local) (Height local).

(** The rectangle the resolver returns: the offset is the relative position. *)
Definition boundsFromRelativePos (pr : Rect) (po o : Object) : Rect :=
  let pad := Padding (Node.boxModel (node po)) in
  let m := Margin (Node.boxModel (node o)) in
  let local := BaseElement.bounds (base o) in
  let rel := Node.relativePos (node o) in
  mkRect (GoInt.add (GoInt.add (GoInt.add (X pr) (Left pad)) (PX rel)) (Left m))
         (GoInt.add (GoInt.add (GoInt.add (Y pr) (Top pad)) (PY rel)) (Top m))
         (Width local) (Height local).

(** Two calls of [ComputedBounds] in a row. *)
Definition ComputedBounds_twice (k : nat) (d : addr) : M (Rect * Rect) :=
  r1 ← ComputedBounds k d;
  r2 ← ComputedBounds k d;
  mret (r1, r2).

(** [p.AddChild(c)] followed by [p.RemoveChild(c)]. *)
Definition AddThenRemove (p : addr) (c : Ref) : M unit :=
  BaseElement_AddChild p c;;
  BaseElement_RemoveChild p c.

(** A parent that already holds [mkRef TNode 1] followed by [mkRef TNode 2]. *)
Definition family_world : World :=
  mkWorld (list_to_map
    [ (0, plainNode "p" (mkRect 0 0 100 100) None [mkRef TNode 1; mkRef TNode 2] Node.new);
      (1, plainNode "c" (mkRect 0 0 10 10) (Some (mkRef TBaseElement 0)) [] Node.new);
      (2, plainNode "d" (mkRect 0 0 10 10) (Some (mkRef TBaseElement 0)) [] Node.new);
      (3, plainNode "e" (mkRect 0 0 10 10) None [] Node.new) ]) [].

(** Three [Update(v => v+1)] on a cell that starts at 0 and has one
    subscriber, which records what it is called with. *)
Definition counter_run : option (State.t Z (nat * Z) * list (nat * Z)) :=
  '(s, seen) ← State.Watch 2 (State.recorder 0) (State.new 0%Z) [];
  '(s, seen) ← State.Update 2 (fun v => (v + 1)%Z) s seen;
  '(s, seen) ← State.Update 2 (fun v => (v + 1)%Z) s seen;
  State.Update 2 (fun v => (v + 1)%Z) s seen.

(** A cell at 0 watched by [bump] and then by a recorder. *)
Definition reentrant_cell : State.t Z (nat * Z) :=
  State.mk 0%Z [State.bump; State.recorder 1].

(** ** The flex placement as the specification words it (section 4.3)

    A cursor starts at the content box's x (row) or y (column).  For each
    child in insertion order the cross-axis placement comes from
    [alignItems]: start, the content origin; center, the origin plus half
    the free space; end, the origin plus the free space; stretch, the origin
    with the child's cross size forced to the content's.  The child is put at
    the cursor with its original main-axis size, and the cursor advances by
    that size plus the spacing.  Sums, differences and the halving are those
    of the program's integers. *)

(** The content box: the container's computed bounds shrunk by its padding,
    that is moved right by the left padding and down by the top padding, and
    narrowed by the padding of both sides. *)
Definition prescribedContent (bounds : Rect) (padding : Spacing) : Rect :=
  mkRect (GoInt.add (X bounds) (Left padding))
         (GoInt.add (Y bounds) (Top padding))
         (GoInt.sub (GoInt.sub (Width bounds) (Left padding)) (Right padding))
         (GoInt.sub (GoInt.sub (Height bounds) (Top padding)) (Bottom padding)).

Definition prescribedCross (al : Alignment) (origin size childSize : Z) : Z * Z :=
  match al with
  | AlignStart => (origin, childSize)
  | AlignCenter =>
    (GoInt.add origin (GoInt.quot (GoInt.sub size childSize) 2), childSize)
  | AlignEnd => (GoInt.sub (GoInt.add origin size) childSize, childSize)
  | AlignStretch => (origin, size)
  end.

Definition prescribedBounds (ff : FlexContainer.t) (content : Rect) (cursor : Z)
    (child : Rect) : Rect :=
  match FlexContainer.flexDirection ff with
  | FlexRow =>
    let '(y, h) := prescribedCross (FlexContainer.alignItems ff) (Y content)
                                   (Height content) (Height child) in
    mkRect cursor y (Width child) h
  | FlexColumn =>
    let '(x, wd) := prescribedCross (FlexContainer.alignItems ff) (X content)
                                    (Width content) (Width child) in
    mkRect x cursor wd (Height child)
  end.

Definition prescribedAdvance (ff : FlexContainer.t) (child : Rect) : Z :=
  match FlexContainer.flexDirection ff with
  | FlexRow => GoInt.add (Width child) (FlexContainer.spacing ff)
  | FlexColumn => GoInt.add (Height child) (FlexContainer.spacing ff)
  end.

Definition prescribedStart (ff : FlexContainer.t) (content : Rect) : Z :=
  match FlexContainer.flexDirection ff with
  | FlexRow => X content
  | FlexColumn => Y content
  end.

(** The cursor after the children whose bounds are [placed]. *)
Definition cursorAfter (advance : Rect -> Z) (start : Z) (placed : list Rect) : Z :=
  fold_left (fun cursor b => GoInt.add cursor (advance b)) placed start.

(** The local bounds of the object a reference points to. *)
Definition boundsIn (w : World) (c : Ref) : Rect :=
  match heap w !! raddr c with
  | Some o => BaseElement.bounds (base o)
  | None => mkRect 0 0 0 0
  end.

(** A child listed more than once is one object with one rectangle: the
    layout pass leaves it where its last slot puts it. *)
Definition lastSlot (cs : list Ref) (i : nat) (c : Ref) : Prop :=
  cs !! i = Some c /\ raddr c ∉ map raddr (drop (S i) cs).


(** The common shape of the two loops of [updateLayout]: [place] builds the
    child's new bounds from the cursor and its current bounds, [advance]
    moves the cursor. *)
Fixpoint layoutLoop (place : Z -> Rect -> Rect) (advance : Rect -> Z)
    (cursor : Z) (cs : list Ref) : M unit :=
  match cs with
  | [] => mret tt
  | child :: rest =>
    childBounds ← Bounds (raddr child);
    SetBounds (raddr child) (place cursor childBounds);;
    layoutLoop place advance (GoInt.add cursor (advance childBounds)) rest
  end.

(** [b'] may stand for [b] in every later placement: the cursor advances by
    the same amount and the rectangle built from it is the same. *)
Definition placed_like (place : Z -> Rect -> Rect) (advance : Rect -> Z)
    (b' b : Rect) : Prop :=
  advance b' = advance b /\ forall cur, place cur b' = place cur b.

(** What [ComputedBounds] reads of an object. *)
Definition geometry (o : Object) : Rect * option Ref * Node.t :=
  (BaseElement.bounds (base o), BaseElement.parent (base o), node o).

(** Replace the local bounds of an object, as [SetBounds] does. *)
Definition with_bounds (r : Rect) (o : Object) : Object :=
  set_base (BaseElement.set_bounds r) o.

(** A row container at the origin, spacing 10, no padding, holding a child of
    width 100 and a child of width 120. *)
Definition row_container : Object :=
  mkObject (BaseElement.mk "row" (mkRect 0 0 400 100) None
              [mkRef TNode 1; mkRef TNode 2] false false)
           Node.new
           (WFlexContainer (FlexContainer.mk FlexRow AlignStart AlignStart 10)).

Definition row_world : World :=
  mkWorld (list_to_map
    [ (0, row_container);
      (1, plainNode "a" (mkRect 20 20 100 30) (Some (mkRef TBaseElement 0)) [] Node.new);
      (2, plainNode "b" (mkRect 130 5 120 40) (Some (mkRef TBaseElement 0)) [] Node.new);
      (3, plainNode "c" (mkRect 0 0 50 20) None [] Node.new) ]) [].

Definition row_rank (a : addr) : nat :=
  match a with O => 1 | _ => 0 end.

(** [call] runs to completion on every well-formed tree, for every child of
    rank below [m], and only touches that child and what is below it. *)
Definition handles (D : nat) (rk : addr -> nat) (m : nat) (call : Ref -> M bool) : Prop :=
  forall c w, wf D rk w -> ref_ok w c -> rk (raddr c) < m ->
    exists res w', call c w = Some (res, w') /\ evolves rk (S (rk (raddr c))) w w'.

(** [Button.IsPressed], [Button.IsHovered], [Checkbox.IsChecked] *)
Definition Button_IsPressed (b : addr) : M bool :=
  bt ← get_button b; mret (Button.pressed bt).

Definition Button_IsHovered (b : addr) : M bool :=
  bt ← get_button b; mret (Button.hovered bt).

Definition Checkbox_IsChecked (c : addr) : M bool :=
  cb ← get_checkbox c; mret (Checkbox.checked cb).

(** The button, or the checkbox, with one flag rewritten. *)
Definition with_button (f : Button.t -> Button.t) (bt : Button.t) (o : Object) : Object :=
  set_widget (WButton (f bt)) o.

Definition with_checked (v : bool) (cb : Checkbox.t) (o : Object) : Object :=
  set_widget (WCheckbox (Checkbox.set_checked v cb)) o.

(** What a registered callback adds to the log when it is called. *)
Definition clicks (b : addr) (onClick : option Callback) : list Event :=
  match onClick with
  | Some cb => [Clicked b cb]
  | None => []
  end.

Definition checkedChanges (c : addr) (handler : option Callback) (v : bool) : list Event :=
  match handler with
  | Some h => [CheckedChanged c h v]
  | None => []
  end.

(** A container holding one button that occupies the screen rectangle
    (100,100)-(200,150) and has click callback 7. *)
Definition button_object (disabled : bool) : Object :=
  mkObject (BaseElement.mk "ok" (mkRect 100 100 100 50) (Some (mkRef TBaseElement 0)) []
              false false)
           (Node.set_relativePos (mkPoint 100 100) Node.new)
           (WButton (Button.mk (Some 7) false false disabled)).

Definition button_world (disabled : bool) : World :=
  mkWorld (list_to_map
    [ (0, mkObject (BaseElement.mk "root" (mkRect 0 0 400 300) None [mkRef TButton 1]
                      false false)
                   Node.new (WFlexContainer FlexContainer.new));
      (1, button_object disabled) ]) [].

Definition button_rank (a : addr) : nat :=
  match a with O => 1 | _ => 0 end.

(** A bare node with local bounds (0,0)-(10,10). *)
Definition hover_world : World :=
  mkWorld (list_to_map
    [ (0, plainNode "n" (mkRect 0 0 10 10) None [] Node.new) ]) [].

(** A checkbox at (10,10)-(30,30) with callback 3. *)
Definition checkbox_object : Object :=
  mkObject (BaseElement.mk "cb" (mkRect 10 10 20 20) None [] false false)
           Node.new (WCheckbox (Checkbox.mk false (Some 3))).

Definition checkbox_world : World :=
  mkWorld (list_to_map [ (0, checkbox_object) ]) [].

(** A container with three children added in the order 1, 2, 3: two buttons
    that both cover (0,0)-(100,100) and a checkbox at (150,0)-(170,20). *)
Definition stack_container : Object :=
  mkObject (BaseElement.mk "stack" (mkRect 0 0 200 100) None
              [mkRef TButton 1; mkRef TButton 2; mkRef TCheckbox 3] false false)
           Node.new (WFlexContainer FlexContainer.new).

Definition stack_button (i : string) (cb : Callback) : Object :=
  mkObject (BaseElement.mk i (mkRect 0 0 100 100) (Some (mkRef TBaseElement 0)) []
              false false)
           Node.new (WButton (Button.mk (Some cb) false false false)).

Definition stack_world : World :=
  mkWorld (list_to_map
    [ (0, stack_container);
      (1, stack_button "first" 1);
      (2, stack_button "second" 2);
      (3, mkObject (BaseElement.mk "third" (mkRect 0 0 20 20)
                      (Some (mkRef TBaseElement 0)) [] false false)
                   (Node.set_relativePos (mkPoint 150 0) Node.new)
                   (WCheckbox Checkbox.new)) ]) [].

(** [stack_world] after the second button has taken a press. *)
Definition stack_world_pressed : World :=
  mkWorld (<[2 := with_button (Button.set_pressed true)
                    (Button.mk (Some 2) false false false) (stack_button "second" 2)]>
             (heap stack_world)) [].

(** ** Further definitions

    A column container at (10,20) of size 200 x 300 with padding, centred
    items and spacing 5, holding children of sizes 100 x 30 and 51 x 40. *)
Definition column_container : Object :=
  mkObject (BaseElement.mk "col" (mkRect 10 20 200 300) None
              [mkRef TNode 1; mkRef TNode 2] false false)
           (Node.set_boxModel
              (mkBoxModel zeroSpacing (mkSpacing 4 6 8 2) (mkBorder zeroSpacing BorderNone))
              Node.new)
           (WFlexContainer (FlexContainer.mk FlexColumn AlignCenter AlignStart 5)).

Definition column_world : World :=
  mkWorld (list_to_map
    [ (0, column_container);
      (1, plainNode "a" (mkRect 0 0 100 30) (Some (mkRef TBaseElement 0)) [] Node.new);
      (2, plainNode "b" (mkRect 0 0 51 40) (Some (mkRef TBaseElement 0)) [] Node.new) ]) [].

(** Coordinates far enough from the ends of the integer range that the sums
    of the layout pass do not wrap. *)
Definition small (z : Z) : Prop := (- 2 ^ 61 <= z < 2 ^ 61)%Z.

Definition smallRect (r : Rect) : Prop :=
  small (X r) /\ small (Y r) /\ small (Width r) /\ small (Height r).

(** Where a child of cross size [old] ends up on the cross axis of a content
    box that starts at [origin] and is [size] long: [pos'] and [size'] are its
    new position and size.  Centring leaves free space before and after the
    child that differs by at most one. *)
Definition aligned (al : Alignment) (origin size old pos' size' : Z) : Prop :=
  match al with
  | AlignStart => pos' = origin /\ size' = old
  | AlignCenter =>
    size' = old /\
    let before := (pos' - origin)%Z in
    let after := ((origin + size) - (pos' + size'))%Z in
    (before + after = size - old)%Z /\ (-1 <= before - after <= 1)%Z
  | AlignEnd => size' = old /\ (pos' + size' = origin + size)%Z
  | AlignStretch => pos' = origin /\ size' = size
  end.

(** The handlers that do nothing but run the dispatch loop over the
    children: [FlexContainer.HandleMouseUp] and [HandleMouseMove],
    [Text.HandleMouseDown] and [HandleMouseMove], and the same two of
    [Label]. *)
Definition forwards (t : DynType) (ev : MouseEvent) : bool :=
  match t, ev with
  | TFlexContainer, (MouseUp | MouseMove) => true
  | (TText | TLabel), (MouseDown | MouseMove) => true
  | _, _ => false
  end.

(** A run of [Update] calls on one cell, and the values the cell takes. *)
Fixpoint State_Updates {V E : Type} (n : nat) (transforms : list (V -> V))
    : State.Run V E :=
  fun s trace =>
    match transforms with
    | [] => Some (s, trace)
    | transform :: rest =>
      match State.Update n transform s trace with
      | Some (s', trace') => State_Updates n rest s' trace'
      | None => None
      end
    end.

Fixpoint State_running {V : Type} (transforms : list (V -> V)) (v : V) : list V :=
  match transforms with
  | [] => []
  | transform :: rest => transform v :: State_running rest (transform v)
  end.

(** ** Class names: [Node.HasClass], [AddClass], [RemoveClass], [GetClassNames] *)

Definition Node_set_classNames (cs : list string) (n : Node.t) : Node.t :=
  Node.mk (Node.positionType n) (Node.boxModel n) (Node.relativePos n)
          (Node.flexDirection n) (Node.alignItems n) (Node.justifyContent n)
          cs (Node.visible n).

(** [for _, c := range d.classNames { if c == className { return true } }] *)
Fixpoint hasClass (className : string) (classNames : list string) : bool :=
  match classNames with
  | [] => false
  | c :: rest => if decide (c = className) then true else hasClass className rest
  end.

(** The loop of [RemoveClass]: cut out the first match and stop. *)
Fixpoint removeClass (className : string) (classNames : list string) : list string :=
  match classNames with
  | [] => []
  | c :: rest => if decide (c = className) then rest else c :: removeClass className rest
  end.

Definition Node_HasClass (d : addr) (className : string) : M bool :=
  o ← get_obj d; mret (hasClass className (Node.classNames (node o))).

Definition Node_GetClassNames (d : addr) : M (list string) :=
  o ← get_obj d; mret (Node.classNames (node o)).

Definition Node_AddClass (d : addr) (className : string) : M unit :=
  has ← Node_HasClass d className;
  if (has : bool) then mret tt
  else modify_obj d (set_node (fun n =>
         Node_set_classNames (Node.classNames n ++ [className]) n)).

Definition Node_RemoveClass (d : addr) (className : string) : M unit :=
  modify_obj d (set_node (fun n =>
    Node_set_classNames (removeClass className (Node.classNames n)) n)).

(** ** Selectors: [parseSelectorString], [Node.QuerySelector],
    [Node.QuerySelectorAll]

    Go strings are byte strings, as are the strings here. *)

(** [strings.HasPrefix], [strings.HasSuffix], [strings.Contains] *)
Fixpoint HasPrefix (s prefix : string) {struct prefix} : bool :=
  match prefix, s with
  | EmptyString, _ => true
  | String p ps, String c cs => Ascii.eqb c p && HasPrefix cs ps
  | String _ _, EmptyString => false
  end.

Fixpoint HasSuffix (s suffix : string) {struct s} : bool :=
  bool_decide (s = suffix)
  || match s with
     | EmptyString => false
     | String _ rest => HasSuffix rest suffix
     end.

Fixpoint Contains (s substr : string) {struct s} : bool :=
  HasPrefix s substr
  || match s with
     | EmptyString => false
     | String _ rest => Contains rest substr
     end.

(** The selector's kind and value; [selector[1:]] and
    [selector[1:len(selector)-1]] are the substrings from byte 1. *)
Definition parseSelectorString (selector : string) : string * string :=
  if bool_decide (selector = EmptyString) then (EmptyString, EmptyString)
  else if HasPrefix selector "#" then
    ("id", String.substring 1 (String.length selector - 1) selector)
  else if HasPrefix selector "." then
    ("class", String.substring 1 (String.length selector - 1) selector)
  else if HasPrefix selector "[" && HasSuffix selector "]" then
    ("attr", String.substring 1 (String.length selector - 2) selector)
  else ("tag", selector).

(** "Check if this element matches": the [if / else if] chain both query
    methods start with. *)
Definition selectsSelf (selectorType selectorValue : string) (o : Object) : bool :=
  if bool_decide (selectorType = "id")
     && bool_decide (BaseElement.id (base o) = selectorValue) then true
  else if bool_decide (selectorType = "class") then
    hasClass selectorValue (Node.classNames (node o))
  else if bool_decide (selectorType = "tag")
          && Contains (BaseElement.id (base o)) selectorValue then true
  else false.

(** The loops over [d.Children()]: only children that are [NodeElement]s are
    searched, and [QuerySelector] stops at the first child with a result. *)
Fixpoint firstMatch (call : Ref -> option (option Ref)) (cs : list Ref)
    : option (option Ref) :=
  match cs with
  | [] => Some None
  | child :: rest =>
    if isNodeElement (rtype child) then
      result ← call child;
      match result with
      | Some r => Some (Some r)
      | None => firstMatch call rest
      end
    else firstMatch call rest
  end.

Fixpoint allMatches (call : Ref -> option (list Ref)) (cs : list Ref)
    : option (list Ref) :=
  match cs with
  | [] => Some []
  | child :: rest =>
    if isNodeElement (rtype child) then
      childResults ← call child;
      restResults ← allMatches call rest;
      Some (childResults ++ restResults)
    else allMatches call rest
  end.

(** Both methods only read the tree: they are functions of the store.  The
    receiver is the [*Node] at [d], which is what a match returns; [n] bounds
    the depth of the recursion, and [nil] is [None]. *)
Fixpoint QuerySelector (n : nat) (h : gmap addr Object) (d : addr) (selector : string)
    : option (option Ref) :=
  match n with
  | O => None
  | S n' =>
    o ← h !! d;
    let '(selectorType, selectorValue) := parseSelectorString selector in
    if selectsSelf selectorType selectorValue o then Some (Some (mkRef TNode d))
    else firstMatch (fun child => QuerySelector n' h (raddr child) selector)
                    (BaseElement.children (base o))
  end.

Fixpoint QuerySelectorAll (n : nat) (h : gmap addr Object) (d : addr) (selector : string)
    : option (list Ref) :=
  match n with
  | O => None
  | S n' =>
    o ← h !! d;
    let '(selectorType, selectorValue) := parseSelectorString selector in
    let results :=
      if selectsSelf selectorType selectorValue o then [mkRef TNode d] else [] in
    childResults ←
      allMatches (fun child => QuerySelectorAll n' h (raddr child) selector)
                 (BaseElement.children (base o));
    Some (results ++ childResults)
  end.

(** A page: a root holding a header, a bare [*BaseElement] and a button. *)
Definition page_world : World :=
  mkWorld (list_to_map
    [ (0, plainNode "app" (mkRect 0 0 400 300) None
            [mkRef TNode 1; mkRef TBaseElement 2; mkRef TButton 3] Node.new);
      (1, plainNode "header" (mkRect 0 0 400 40) (Some (mkRef TBaseElement 0)) []
            (Node_set_classNames ["bar"; "top"] Node.new));
      (2, plainNode "ok-shadow" (mkRect 0 0 10 10) (Some (mkRef TBaseElement 0)) []
            (Node_set_classNames ["bar"] Node.new));
      (3, mkObject (BaseElement.mk "ok-button" (mkRect 0 50 100 30)
                      (Some (mkRef TBaseElement 0)) [] false false)
                   (Node_set_classNames ["bar"] Node.new)
                   (WButton Button.new)) ]) [].

Definition page_rank (a : addr) : nat :=
  match a with O => 1 | _ => 0 end.

(** [searched h d a]: the element at [a] is the one at [d] or can be reached
    from it through children that are [NodeElement]s. *)
Inductive searched (h : gmap addr Object) : addr -> addr -> Prop :=
| searched_self (d : addr) : searched h d d
| searched_child (d : addr) (o : Object) (c : Ref) (a : addr) :
    h !! d = Some o ->
    c ∈ BaseElement.children (base o) ->
    isNodeElement (rtype c) = true ->
    searched h (raddr c) a ->
    searched h d a.

(** ** Select box ([components/form.go])

    The select box keeps its own fields next to the [*Node] it embeds; only
    [HandleMouseDown] reads the node, through [ComputedBounds].  A call of
    the [onChange] handler is recorded with the index it is given. *)

Definition GoInt_mul (a b : Z) : Z := GoInt.wrap (a * b).

(** [len(s)] *)
Definition len {A : Type} (l : list A) : Z := Z.of_nat (length l).

Module Select.

Record t := mk {
  options : list string;
  selectedIndex : Z;
  onChange : option Callback;
  isOpen : bool
}.

(** [NewSelect] *)
Definition new (options : list string) : t := mk options (-1) None false.

Definition set_options (o : list string) (s : t) : t :=
  mk o (selectedIndex s) (onChange s) (isOpen s).

Definition set_selectedIndex (i : Z) (s : t) : t :=
  mk (options s) i (onChange s) (isOpen s).

Definition set_isOpen (v : bool) (s : t) : t :=
  mk (options s) (selectedIndex s) (onChange s) v.

End Select.

Inductive SelectEvent := Changed (handler : Callback) (index : Z).

Definition changes (handler : option Callback) (index : Z) : list SelectEvent :=
  match handler with
  | Some h => [Changed h index]
  | None => []
  end.

Definition Select_SetOptions (options : list string) (s : Select.t) : Select.t :=
  let s := Select.set_options options s in
  if (len options <=? Select.selectedIndex s)%Z then Select.set_selectedIndex (-1) s
  else s.

Definition Select_SetSelectedIndex (index : Z) (s : Select.t)
    : Select.t * list SelectEvent :=
  if (-1 <=? index)%Z && (index <? len (Select.options s))%Z then
    (Select.set_selectedIndex index s, changes (Select.onChange s) index)
  else (s, []).

(** The index is in range where the slice is read. *)
Definition Select_GetSelectedOption (s : Select.t) : string :=
  if (0 <=? Select.selectedIndex s)%Z
     && (Select.selectedIndex s <? len (Select.options s))%Z then
    default EmptyString (Select.options s !! Z.to_nat (Select.selectedIndex s))
  else EmptyString.

Definition Select_HandleMouseDown (k : nat) (a : addr) (x y : Z) (s : Select.t)
    : M (bool * Select.t * list SelectEvent) :=
  bounds ← ComputedBounds k a;
  if PointInRect (mkPoint x y) bounds then
    mret (true, Select.set_isOpen (negb (Select.isOpen s)) s, [])
  else if Select.isOpen s then
    let dropdownHeight := GoInt_mul (len (Select.options s)) 20 in
    let dropdownBounds :=
      mkRect (X bounds) (GoInt.add (Y bounds) (Height bounds)) (Width bounds)
             dropdownHeight in
    if PointInRect (mkPoint x y) dropdownBounds then
      let optionIndex :=
        GoInt.quot (GoInt.sub y (GoInt.add (Y bounds) (Height bounds))) 20 in
      if (0 <=? optionIndex)%Z && (optionIndex <? len (Select.options s))%Z then
        let '(s, evs) := Select_SetSelectedIndex optionIndex s in
        mret (true, Select.set_isOpen false s, evs)
      else mret (false, s, [])
    else mret (true, Select.set_isOpen false s, [])
  else mret (false, s, []).

(** The selection is [-1] (none) or an index into the options. *)
Definition Select_ok (s : Select.t) : Prop :=
  (-1 <= Select.selectedIndex s < len (Select.options s))%Z.

(** ** Clipping test of the renderer: [EbitenRenderer.isVisibleInClipRect]

    The renderer's only state the test reads is its clip rectangle. *)
Definition isVisibleInClipRect (clipRect : Rect) (x y width height : Z) : bool :=
  if (GoInt.add x width <? X clipRect)%Z
     || (GoInt.add (X clipRect) (Width clipRect) <? x)%Z
     || (GoInt.add y height <? Y clipRect)%Z
     || (GoInt.add (Y clipRect) (Height clipRect) <? y)%Z
  then false
  else true.

(** A row container at (10,20) of size 400 x 100 with padding (top 4, right 6,
    bottom 8, left 2) and spacing 10, holding a child of width 100 and a
    child of width 120; element 3 is not attached. *)
Definition padded_row_container : Object :=
  mkObject (BaseElement.mk "row" (mkRect 10 20 400 100) None
              [mkRef TNode 1; mkRef TNode 2] false false)
           (Node.set_boxModel
              (mkBoxModel zeroSpacing (mkSpacing 4 6 8 2) (mkBorder zeroSpacing BorderNone))
              Node.new)
           (WFlexContainer (FlexContainer.mk FlexRow AlignStart AlignStart 10)).

Definition padded_row_world : World :=
  mkWorld (list_to_map
    [ (0, padded_row_container);
      (1, plainNode "a" (mkRect 20 20 100 30) (Some (mkRef TBaseElement 0)) [] Node.new);
      (2, plainNode "b" (mkRect 130 5 120 40) (Some (mkRef TBaseElement 0)) [] Node.new);
      (3, plainNode "c" (mkRect 0 0 50 20) None [] Node.new) ]) [].

(** The world a run leaves, for looking into it. *)
Definition worldAfter {A : Type} (run : option (A * World)) : World :=
  match run with
  | Some (_, w) => w
  | None => mkWorld ∅ []
  end.

(** A bare node with local bounds (0,0)-(10,10) that has taken a press. *)
Definition pressed_node : Object :=
  mkObject (BaseElement.mk "n" (mkRect 0 0 10 10) None [] false true) Node.new WNode.

Definition pressed_node_world : World :=
  mkWorld (list_to_map [ (0, pressed_node) ]) [].

(** What an observer of a run of the cell sees: the value it ends with and
    the trace. *)
Definition State_outcome {V E : Type} (r : option (State.t V E * list E))
    : option (V * list E) :=
  match r with
  | Some (s, trace) => Some (State.Value s, trace)
  | None => None
  end.
(** ** Reasoning about monadic code *)

Lemma bind_run {A B} (m : M A) (f : A -> M B) (w w1 : World) (a : A) :
  m w = Some (a, w1) -> (m ≫= f) w = f a w1.
Proof. unfold mbind, M_bind. by intros ->. Qed.

Lemma ret_run {A} (a : A) (w : World) : (mret a : M A) w = Some (a, w).
Proof. done. Qed.

Lemma get_obj_run (a : addr) (w : World) (o : Object) :
  heap w !! a = Some o -> get_obj a w = Some (o, w).
Proof. unfold get_obj. by intros ->. Qed.

Lemma modify_obj_run (a : addr) (f : Object -> Object) (w : World) (o : Object) :
  heap w !! a = Some o ->
  modify_obj a f w = Some (tt, mkWorld (<[a := f o]> (heap w)) (log w)).
Proof. unfold modify_obj. by intros ->. Qed.

(** ** The resolver reads and never writes *)

Lemma ComputedBounds_resolve (k : nat) :
  forall (d : addr) (w : World),
    ComputedBounds k d w = (fun r => (r, w)) <$> resolve k (heap w) d.
Proof.
  induction k as [|k IH]; intros d w; [done|].
  simpl. unfold mbind at 1, M_bind at 1, get_obj.
  destruct (heap w !! d) as [o|]; [simpl|done].
  destruct (decide _) as [Hfix|Hfix]; [done|].
  destruct (BaseElement.parent (base o)) as [p|]; [|done].
  unfold mbind at 1, M_bind at 1. unfold mbind at 1, M_bind at 1.
  destruct (isNodeElement (rtype p)).
  - unfold mbind at 1, M_bind at 1. rewrite IH.
    destruct (resolve k (heap w) (raddr p)) as [pb|]; [simpl|done].
    unfold GetBoxModel, mbind at 1, M_bind at 1, mbind at 1, M_bind at 1, get_obj.
    destruct (heap w !! raddr p) as [po|]; [simpl|done].
    by destruct (Node.positionType (node o)).
  - unfold Bounds, mbind at 1, M_bind at 1, get_obj.
    destruct (heap w !! raddr p) as [po|]; [simpl|done].
    by destruct (Node.positionType (node o)).
Qed.

Lemma ComputedBounds_pure (k : nat) (d : addr) (w w' : World) (r : Rect) :
  ComputedBounds k d w = Some (r, w') -> w' = w.
Proof.
  rewrite ComputedBounds_resolve.
  destruct (resolve k (heap w) d); [|discriminate]. by intros [= _ <-].
Qed.

Lemma ComputedBounds_Some (k : nat) (d : addr) (w : World) (r : Rect) :
  ComputedBounds k d w = Some (r, w) <-> resolve k (heap w) d = Some r.
Proof.
  rewrite ComputedBounds_resolve.
  destruct (resolve k (heap w) d); simpl; split; congruence.
Qed.

(** More fuel never changes a result. *)
Lemma resolve_fuel_S (k : nat) :
  forall (h : gmap addr Object) (d : addr) (r : Rect),
    resolve k h d = Some r -> resolve (S k) h d = Some r.
Proof.
  induction k as [|k IH]; intros h d r H; [discriminate|].
  remember (S k) as k1 eqn:Ek. rewrite Ek in H at 1. simpl in H. simpl.
  destruct (h !! d) as [o|]; [simpl in *|done].
  destruct (decide _) as [Hfix|Hfix]; [done|].
  destruct (BaseElement.parent (base o)) as [p|]; [|done].
  destruct (isNodeElement (rtype p)); [|done].
  destruct (resolve k h (raddr p)) as [pb|] eqn:Hpb; [|done].
  subst k1. by rewrite (IH _ _ _ Hpb).
Qed.

Lemma resolve_fuel_le (k k' : nat) (h : gmap addr Object) (d : addr) (r : Rect) :
  k <= k' -> resolve k h d = Some r -> resolve k' h d = Some r.
Proof.
  induction 1 as [|k' _ IH]; [done|].
  intros H. by apply resolve_fuel_S, IH.
Qed.

(** ** Checking well-formedness by computation *)

Lemma widget_okb_sound (t : DynType) (wd : Widget) :
  widget_okb t wd = true -> widget_ok t wd.
Proof. destruct t, wd; simpl; intros H; try discriminate; eauto. Qed.

Lemma ref_okb_sound (w : World) (e : Ref) : ref_okb w e = true -> ref_ok w e.
Proof.
  unfold ref_okb, ref_ok. destruct (heap w !! raddr e) as [o|]; [|discriminate].
  intros H. exists o. split; [done|]. by apply widget_okb_sound.
Qed.

Lemma wfb_sound (D : nat) (rk : addr -> nat) (w : World) :
  wfb D rk w = true -> wf D rk w.
Proof.
  unfold wfb. rewrite forallb_forall. intros H a o Ho.
  specialize (H (a, o)). simpl in H.
  assert (Hobj : wf_objb D rk w a o = true).
  { apply H. apply list_elem_of_In. by apply elem_of_map_to_list. }
  unfold wf_objb in Hobj.
  apply andb_true_iff in Hobj as [Hobj Hpar].
  apply andb_true_iff in Hobj as [Hrk Hch].
  split; [by apply Nat.ltb_lt|]. split.
  - intros c Hc. rewrite forallb_forall in Hch.
    specialize (Hch c (proj1 (list_elem_of_In _ _) Hc)).
    apply andb_true_iff in Hch as [Hok Hlt].
    split; [by apply ref_okb_sound | by apply Nat.ltb_lt].
  - intros p Hp. rewrite Hp in Hpar.
    destruct (heap w !! raddr p); [|discriminate].
    split; [by eexists | by apply Nat.ltb_lt].
Qed.

(** ** Termination of the resolver on well-formed trees *)

Lemma resolve_total (D : nat) (rk : addr -> nat) (w : World) :
  wf D rk w ->
  forall (j : nat) (d : addr) (o : Object),
    heap w !! d = Some o -> D - rk d <= j -> exists r, resolve j (heap w) d = Some r.
Proof.
  intros Hwf j. induction j as [|j IH]; intros d o Ho Hj.
  { destruct (Hwf d o Ho) as (Hlt & _). lia. }
  simpl. rewrite Ho. simpl.
  destruct (decide _) as [Hfix|Hfix]; [by eexists|].
  destruct (BaseElement.parent (base o)) as [p|] eqn:Hp; [|by eexists].
  destruct (Hwf d o Ho) as (Hlt & _ & Hpar).
  destruct (Hpar p Hp) as ([po Hpo] & Hrk).
  simpl. rewrite Hpo.
  destruct (isNodeElement (rtype p)); [|by eexists].
  destruct (IH (raddr p) po Hpo) as [pb Hpb]; [lia|].
  rewrite Hpb. by eexists.
Qed.

Lemma ComputedBounds_total (D : nat) (rk : addr -> nat) (w : World) (k : nat)
    (d : addr) (o : Object) :
  wf D rk w -> D <= k -> heap w !! d = Some o ->
  exists r, ComputedBounds k d w = Some (r, w).
Proof.
  intros Hwf Hk Ho.
  destruct (resolve_total D rk w Hwf k d o Ho) as [r Hr]; [lia|].
  exists r. by apply ComputedBounds_Some.
Qed.

(** ** C1: position of an element under a NodeElement parent *)

(** C1, as amended.  For an element whose position type is relative or
    absolute and whose parent is a NodeElement, [ComputedBounds] returns the
    parent's computed x plus the parent's left padding, plus the x of the
    element's relative position (the field set by [SetRelativePosition], not
    the x of its local bounds), plus its own left margin; y likewise with
    top padding and margin; width and height are those of the local
    bounds. *)
Theorem ComputedBounds_under_node_parent (k : nat) (w : World) (d : addr)
    (o po : Object) (p : Ref) (pr : Rect) :
  heap w !! d = Some o ->
  Node.positionType (node o) = PositionRelative
    \/ Node.positionType (node o) = PositionAbsolute ->
  BaseElement.parent (base o) = Some p ->
  isNodeElement (rtype p) = true ->
  heap w !! raddr p = Some po ->
  ComputedBounds k (raddr p) w = Some (pr, w) ->
  ComputedBounds (S k) d w = Some (boundsFromRelativePos pr po o, w).
Proof.
  intros Ho Hpos Hp Hnode Hpo Hpr.
  apply ComputedBounds_Some. apply ComputedBounds_Some in Hpr.
  simpl. rewrite Ho. simpl.
  destruct (decide _) as [Hfix|_]; [destruct Hpos; congruence|].
  rewrite Hp, Hnode. simpl. rewrite Hpr. simpl. rewrite Hpo. done.
Qed.

Lemma ComputedBounds_under_node_parent_witness :
  boundsFromRelativePos (mkRect 50 60 200 100) geometry_panel geometry_item
    = mkRect 60 72 30 40 /\
  ComputedBounds 2 1 geometry_world
    = Some (boundsFromRelativePos (mkRect 50 60 200 100) geometry_panel geometry_item,
            geometry_world).
Proof.
  split; [vm_compute; reflexivity|].
  apply (ComputedBounds_under_node_parent 1 geometry_world 1 geometry_item
           geometry_panel (mkRef TNode 0) (mkRect 50 60 200 100)).
  - reflexivity.
  - left. reflexivity.
  - reflexivity.
  - reflexivity.
  - reflexivity.
  - vm_compute. reflexivity.
Defined.

(** C1 as stated fails: in [geometry_world] the child's local bounds start at
    x = 10, y = 20, and the rectangle built from them is not the one
    [ComputedBounds] returns. *)
Lemma ComputedBounds_ignores_local_offset :
  exists o po pr r,
    heap geometry_world !! 1 = Some o /\
    Node.positionType (node o) = PositionRelative /\
    BaseElement.parent (base o) = Some (mkRef TNode 0) /\
    heap geometry_world !! 0 = Some po /\
    ComputedBounds 1 0 geometry_world = Some (pr, geometry_world) /\
    ComputedBounds 2 1 geometry_world = Some (r, geometry_world) /\
    r = mkRect 60 72 30 40 /\
    boundsFromLocalOffset pr po o = mkRect 67 88 30 40 /\
    r <> boundsFromLocalOffset pr po o.
Proof.
  do 4 eexists.
  split; [reflexivity|]. split; [reflexivity|]. split; [reflexivity|].
  split; [reflexivity|]. split; [vm_compute; reflexivity|].
  split; [vm_compute; reflexivity|]. split; [reflexivity|].
  split; [vm_compute; reflexivity|]. vm_compute. discriminate.
Qed.

(** ** C8: the resolver is a pure function of the tree *)

(** C8.  Whenever a call of [ComputedBounds] returns, it leaves every object
    and the callback log as they were, and two calls in a row return the same
    rectangle; on a well-formed (acyclic) tree the call does return for every
    element. *)
Theorem ComputedBounds_idempotent_and_pure :
  (forall (k : nat) (d : addr) (w w1 : World) (r : Rect),
      ComputedBounds k d w = Some (r, w1) ->
      w1 = w /\ ComputedBounds_twice k d w = Some ((r, r), w)) /\
  (forall (D : nat) (rk : addr -> nat) (w : World) (k : nat) (d : addr) (o : Object),
      wf D rk w -> D <= k -> heap w !! d = Some o ->
      exists r, ComputedBounds_twice k d w = Some ((r, r), w)).
Proof.
  assert (Htwice : forall k d w r, ComputedBounds k d w = Some (r, w) ->
                     ComputedBounds_twice k d w = Some ((r, r), w)).
  { intros k d w r H. unfold ComputedBounds_twice.
    rewrite (bind_run _ _ _ _ _ H). by rewrite (bind_run _ _ _ _ _ H). }
  split.
  - intros k d w w1 r H.
    assert (w1 = w) as -> by (by eapply ComputedBounds_pure).
    split; [done|]. by apply Htwice.
  - intros D rk w k d o Hwf Hk Ho.
    destruct (ComputedBounds_total D rk w k d o Hwf Hk Ho) as [r Hr].
    exists r. by apply Htwice.
Qed.

Lemma ComputedBounds_idempotent_and_pure_witness :
  ComputedBounds_twice 2 1 geometry_world
    = Some ((mkRect 60 72 30 40, mkRect 60 72 30 40), geometry_world) /\
  exists r, ComputedBounds_twice 2 0 geometry_world = Some ((r, r), geometry_world).
Proof.
  split.
  - apply (proj1 ComputedBounds_idempotent_and_pure 2 1 geometry_world geometry_world).
    vm_compute. reflexivity.
  - apply (proj2 ComputedBounds_idempotent_and_pure 2 geometry_rank geometry_world 2 0
             geometry_panel).
    + apply wfb_sound. vm_compute. reflexivity.
    + lia.
    + reflexivity.
Defined.

(** ** C9: adding then removing a child *)

Lemma remove_first_app_new (c : Ref) (s : list Ref) :
  c ∉ s -> remove_first c (s ++ [c]) = s.
Proof.
  induction s as [|x s IH]; intros Hc; simpl.
  - by rewrite decide_True.
  - apply not_elem_of_cons in Hc as [Hne Hc].
    rewrite decide_False by congruence. by rewrite IH.
Qed.

(** C9, as amended.  For a parent with children sequence [s] and an element
    [c] that is not already in [s], [AddChild(p,c)] followed by
    [RemoveChild(p,c)] succeeds and leaves [p.Children()] equal to [s]. *)
Theorem AddChild_RemoveChild_restores (w : World) (p : addr) (c : Ref) (o : Object) :
  heap w !! p = Some o ->
  c ∉ BaseElement.children (base o) ->
  is_Some (heap w !! raddr c) ->
  exists w', AddThenRemove p c w = Some (tt, w') /\
             Children p w' = Some (BaseElement.children (base o), w').
Proof.
  intros Ho Hc [oc Hoc].
  unfold AddThenRemove, BaseElement_AddChild, BaseElement_RemoveChild, SetParent.
  set (o1 := set_base (fun e =>
     BaseElement.set_children (BaseElement.children e ++ [c]) e) o).
  set (w1 := mkWorld (<[p := o1]> (heap w)) (log w)).
  assert (exists o2, heap w1 !! raddr c = Some o2 /\
            (raddr c = p -> o2 = o1)) as (o2 & Ho2 & Ho2p).
  { destruct (decide (raddr c = p)) as [->|Hne].
    - exists o1. split; [apply lookup_insert_eq | done].
    - exists oc. split; [|done]. simpl. by rewrite lookup_insert_ne. }
  set (o2' := set_base (BaseElement.set_parent (Some (mkRef TBaseElement p))) o2).
  set (w2 := mkWorld (<[raddr c := o2']> (heap w1)) (log w1)).
  assert (exists o3, heap w2 !! p = Some o3 /\
            BaseElement.children (base o3) = BaseElement.children (base o) ++ [c])
    as (o3 & Ho3 & Hch3).
  { destruct (decide (raddr c = p)) as [Heq|Hne].
    - exists o2'. split; [rewrite <- Heq; apply lookup_insert_eq|].
      unfold o2'. simpl. by rewrite (Ho2p Heq).
    - exists o1. split; [|done]. simpl.
      rewrite lookup_insert_ne by done. apply lookup_insert_eq. }
  eexists. split.
  - rewrite (bind_run _ _ w w2 tt).
    + by apply modify_obj_run.
    + rewrite (bind_run _ _ w w1 tt); [by apply modify_obj_run|].
      by apply modify_obj_run.
  - unfold Children. erewrite bind_run.
    2: { apply get_obj_run. simpl. apply lookup_insert_eq. }
    simpl. rewrite Hch3. by rewrite remove_first_app_new.
Qed.

Lemma AddChild_RemoveChild_restores_witness :
  exists w', AddThenRemove 0 (mkRef TNode 3) family_world = Some (tt, w') /\
             Children 0 w' = Some ([mkRef TNode 1; mkRef TNode 2], w').
Proof.
  apply (AddChild_RemoveChild_restores family_world 0 (mkRef TNode 3)
           (plainNode "p" (mkRect 0 0 100 100) None [mkRef TNode 1; mkRef TNode 2]
                      Node.new)).
  - reflexivity.
  - simpl. intros H. apply list_elem_of_In in H. simpl in H.
    destruct H as [H|[H|[]]]; discriminate.
  - eexists. reflexivity.
Defined.

(** C9 as stated fails when the element is already a child: [RemoveChild]
    drops its first occurrence, so [c, d] becomes [d, c]. *)
Lemma AddChild_RemoveChild_reorders :
  Children 0 family_world = Some ([mkRef TNode 1; mkRef TNode 2], family_world) /\
  exists w', AddThenRemove 0 (mkRef TNode 1) family_world = Some (tt, w') /\
             Children 0 w' = Some ([mkRef TNode 2; mkRef TNode 1], w') /\
             Children 0 w' <> Some ([mkRef TNode 1; mkRef TNode 2], w').
Proof.
  split; [reflexivity|].
  eexists. split; [vm_compute; reflexivity|].
  split; [vm_compute; reflexivity|]. vm_compute. discriminate.
Qed.

(** ** C7: the reactive state cell *)

Lemma State_exec_passive {V E : Type} (c : State.Cmd V E) :
  forall (n : nat) (s : State.t V E) (trace : list E),
    State.passive c -> length (State.says c) < n ->
    State.exec n c s trace = Some (s, trace ++ State.says c).
Proof.
  induction c as [|e k IH|transform k IH|watcher IHw k IH];
    intros n s trace Hp Hn; simpl in *; try done.
  - destruct n as [|n]; [lia|]. simpl. by rewrite app_nil_r.
  - destruct n as [|n]; [lia|]. simpl.
    rewrite IH; [|done|lia]. by rewrite <- app_assoc.
Qed.

Lemma State_notify_observers {V E : Type} (n : nat) (ws : list (V -> State.Cmd V E))
    (s : State.t V E) :
  State.observers n ws (State.value s) ->
  forall trace,
    State.notify (State.exec n) ws s trace
      = Some (s, trace ++ flat_map (fun w => State.says (w (State.value s))) ws).
Proof.
  induction ws as [|w ws IH]; intros Hobs trace; simpl.
  - by rewrite app_nil_r.
  - destruct (Hobs w) as [Hp Hn]; [by left|].
    rewrite (State_exec_passive _ n s trace Hp Hn).
    rewrite IH by (intros w' Hw'; apply Hobs; by right).
    by rewrite <- app_assoc.
Qed.

Lemma State_Update_observers {V E : Type} (n : nat) (transform : V -> V)
    (s : State.t V E) (trace : list E) :
  State.observers n (State.watchers s) (transform (State.value s)) ->
  State.Update n transform s trace
    = Some (State.mk (transform (State.value s)) (State.watchers s),
            trace ++ flat_map (fun w => State.says (w (transform (State.value s))))
                              (State.watchers s)).
Proof.
  intros Hobs. unfold State.Update, State.UpdateWith.
  by rewrite State_notify_observers.
Qed.

Lemma State_recorders_observe {V : Type} (ids : list nat) (v : V) :
  State.observers 2 (map State.recorder ids) v.
Proof.
  intros w Hw. apply list_elem_of_fmap in Hw as (i & -> & _).
  split; [exact I|]. simpl. lia.
Qed.

Lemma State_recorders_say {V : Type} (ids : list nat) (v : V) :
  flat_map (fun w => State.says (w v)) (map State.recorder ids)
    = map (fun i => (i, v)) ids.
Proof. induction ids as [|i ids IH]; simpl; [done|by rewrite IH]. Qed.

(** C7, as amended.  For a cell whose watchers do not call back into the
    cell, [Update(transform)] returns, replaces the value by [transform] of
    the old value, keeps the subscriber list, and has run every watcher once
    on the new value, in subscription order, whatever the new value is (no
    equality check): recording watchers see exactly one entry each, in
    order.  A cell that starts at 0 and is updated three times with
    [v => v+1] ends at 3 and has notified its subscriber with 1, 2, 3 in
    that order (after the 0 it saw on subscribing). *)
Theorem State_Update_notifies :
  (forall (V E : Type) (n : nat) (transform : V -> V) (s : State.t V E)
          (trace : list E),
      State.observers n (State.watchers s) (transform (State.value s)) ->
      State.Update n transform s trace
        = Some (State.mk (transform (State.value s)) (State.watchers s),
                trace ++ flat_map (fun w => State.says (w (transform (State.value s))))
                                  (State.watchers s))) /\
  (forall (V : Type) (transform : V -> V) (v : V) (ids : list nat)
          (seen : list (nat * V)),
      State.Update 2 transform (State.mk v (map State.recorder ids)) seen
        = Some (State.mk (transform v) (map State.recorder ids),
                seen ++ map (fun i => (i, transform v)) ids)) /\
  State_outcome counter_run
    = Some (3%Z, [(0, 0%Z)] ++ [(0, 1%Z); (0, 2%Z); (0, 3%Z)]).
Proof.
  split; [|split].
  - intros V E n transform s trace Hobs.
    unfold State.Update, State.UpdateWith.
    rewrite (State_notify_observers n (State.watchers s)
               (State.mk (transform (State.value s)) (State.watchers s)) Hobs).
    done.
  - intros V transform v ids seen.
    rewrite (State_Update_observers 2 transform
               (State.mk v (map State.recorder ids)) seen)
      by apply State_recorders_observe.
    simpl. by rewrite State_recorders_say.
  - reflexivity.
Qed.

Lemma State_Update_notifies_witness :
  State.Update 2 (fun v => (v + 1)%Z)
               (State.mk 0%Z [State.recorder 0; State.recorder 1]) []
    = Some (State.mk (0 + 1)%Z [State.recorder 0; State.recorder 1],
            [] ++ flat_map (fun w => State.says (w (0 + 1)%Z))
                           [State.recorder 0; State.recorder 1]).
Proof.
  apply (proj1 State_Update_notifies Z (nat * Z)%type 2 (fun v => (v + 1)%Z)
           (State.mk 0%Z [State.recorder 0; State.recorder 1]) []).
  intros w Hw. simpl in Hw.
  apply elem_of_cons in Hw as [->|Hw]; [split; [exact I|simpl; lia]|].
  apply elem_of_cons in Hw as [->|Hw]; [split; [exact I|simpl; lia]|].
  by apply elem_of_nil in Hw.
Defined.

(** C7 as stated fails for a watcher that updates the cell it watches.  The
    cell starts at 0 and is watched by [bump] and then by a recorder;
    [Update(v => v+1)] stores 1 and calls [bump], which updates the cell to
    11 before the loop reaches the recorder.  The recorder is called twice,
    both times with 11 and never with 1, and the cell ends at 11. *)
Theorem State_Update_reentrant_watcher :
  State_outcome (State.Update 4 (fun v => (v + 1)%Z) reentrant_cell [])
    = Some (11%Z, [(1, 11%Z); (1, 11%Z)]).
Proof. reflexivity. Qed.

(** ** The resolver only depends on the geometry of the ancestors *)

Lemma resolve_ext (P : addr -> Prop) (h h' : gmap addr Object) :
  (forall a, P a -> geometry <$> h' !! a = geometry <$> h !! a) ->
  (forall a o p, P a -> h !! a = Some o ->
     BaseElement.parent (base o) = Some p -> P (raddr p)) ->
  forall (k : nat) (d : addr), P d -> resolve k h' d = resolve k h d.
Proof.
  intros Hgeo Hclosed k. induction k as [|k IH]; intros d Hd; [done|].
  simpl. pose proof (Hgeo d Hd) as Hg.
  destruct (h !! d) as [o|] eqn:Ho, (h' !! d) as [o'|] eqn:Ho';
    simpl in Hg; try discriminate; [|done].
  injection Hg as Hb Hp Hn. simpl. rewrite Hb, Hp, Hn.
  destruct (decide _) as [Hfix|Hfix]; [done|].
  destruct (BaseElement.parent (base o)) as [p|] eqn:Hpar; [|done].
  pose proof (Hclosed d o p Hd Ho Hpar) as HPp.
  pose proof (Hgeo (raddr p) HPp) as Hgp.
  rewrite (IH (raddr p) HPp).
  destruct (h !! raddr p) as [po|], (h' !! raddr p) as [po'|];
    simpl in Hgp; try discriminate.
  - injection Hgp as Hpb _ Hpn. simpl. by rewrite Hpb, Hpn.
  - simpl. destruct (isNodeElement (rtype p)); [|done].
    by destruct (resolve k h (raddr p)).
Qed.

Lemma erase_geometry (o o' : Object) : erase o' = erase o -> geometry o' = geometry o.
Proof.
  destruct o as [[] ? ?], o' as [[] ? ?]. unfold erase, geometry. simpl.
  intros [= -> -> -> -> -> ?]. done.
Qed.

Lemma resolve_same_structure (w w' : World) (k : nat) (d : addr) :
  same_structure w w' -> resolve k (heap w') d = resolve k (heap w) d.
Proof.
  intros Hs. apply (resolve_ext (fun _ => True)); [|done|done].
  intros a _. specialize (Hs a).
  destruct (heap w !! a), (heap w' !! a); simpl in *; try discriminate; [|done].
  f_equal. apply erase_geometry. congruence.
Qed.

(** On a well-formed tree, changes to objects ranked below [d] do not reach
    its computed bounds. *)
Lemma resolve_above (D : nat) (rk : addr -> nat) (w : World) (h' : gmap addr Object)
    (k : nat) (d : addr) :
  wf D rk w ->
  (forall a, rk d <= rk a -> geometry <$> h' !! a = geometry <$> heap w !! a) ->
  resolve k h' d = resolve k (heap w) d.
Proof.
  intros Hwf Hgeo.
  apply (resolve_ext (fun a => rk d <= rk a)); [done| |done].
  intros a o p Ha Ho Hp. destruct (Hwf a o Ho) as (_ & _ & Hpar).
  destruct (Hpar p Hp) as [_ Hlt]. lia.
Qed.

(** ** The layout loops *)

Lemma with_bounds_same (o : Object) : with_bounds (BaseElement.bounds (base o)) o = o.
Proof. by destruct o as [[] ? ?]. Qed.

Lemma with_bounds_twice (r r' : Rect) (o : Object) :
  with_bounds r' (with_bounds r o) = with_bounds r' o.
Proof. by destruct o as [[] ? ?]. Qed.

Lemma Bounds_run (a : addr) (w : World) (o : Object) :
  heap w !! a = Some o -> Bounds a w = Some (BaseElement.bounds (base o), w).
Proof. intros Ho. unfold Bounds. by rewrite (bind_run _ _ _ _ _ (get_obj_run _ _ _ Ho)). Qed.

Lemma Children_run (a : addr) (w : World) (o : Object) :
  heap w !! a = Some o -> Children a w = Some (BaseElement.children (base o), w).
Proof. intros Ho. unfold Children. by rewrite (bind_run _ _ _ _ _ (get_obj_run _ _ _ Ho)). Qed.

Lemma GetBoxModel_run (a : addr) (w : World) (o : Object) :
  heap w !! a = Some o -> GetBoxModel a w = Some (Node.boxModel (node o), w).
Proof. intros Ho. unfold GetBoxModel. by rewrite (bind_run _ _ _ _ _ (get_obj_run _ _ _ Ho)). Qed.

Lemma get_flex_run (a : addr) (w : World) (o : Object) (ff : FlexContainer.t) :
  heap w !! a = Some o -> widget o = WFlexContainer ff -> get_flex a w = Some (ff, w).
Proof.
  intros Ho Hw. unfold get_flex.
  rewrite (bind_run _ _ _ _ _ (get_obj_run _ _ _ Ho)). by rewrite Hw.
Qed.

Lemma boundsIn_lookup (w : World) (c : Ref) (o : Object) :
  heap w !! raddr c = Some o -> boundsIn w c = BaseElement.bounds (base o).
Proof. unfold boundsIn. by intros ->. Qed.

Lemma cursorAfter_cons (advance : Rect -> Z) (start : Z) (b : Rect) (l : list Rect) :
  cursorAfter advance start (b :: l)
    = cursorAfter advance (GoInt.add start (advance b)) l.
Proof. done. Qed.

Lemma cursorAfter_ext (advance : Rect -> Z) (f g : Ref -> Rect) (l : list Ref) :
  (forall x, advance (f x) = advance (g x)) ->
  forall start, cursorAfter advance start (f <$> l) = cursorAfter advance start (g <$> l).
Proof.
  intros Hfg. induction l as [|x l IH]; intros start; [done|].
  rewrite !fmap_cons, !cursorAfter_cons, Hfg. apply IH.
Qed.

Lemma cursorAfter_advance_ext (adv adv' : Rect -> Z) (l : list Rect) :
  (forall b, adv b = adv' b) ->
  forall start, cursorAfter adv start l = cursorAfter adv' start l.
Proof.
  intros Hadv. induction l as [|b l IH]; intros start; [done|].
  rewrite !cursorAfter_cons, Hadv. apply IH.
Qed.

Section LayoutLoop.

Variable place : Z -> Rect -> Rect.
Variable advance : Rect -> Z.
Hypothesis advance_place : forall cur b, advance (place cur b) = advance b.
Hypothesis place_place : forall cur cur' b, place cur' (place cur b) = place cur' b.

Lemma layoutLoop_spec (cs : list Ref) :
  forall (cursor : Z) (w : World),
    (forall c, c ∈ cs -> is_Some (heap w !! raddr c)) ->
    exists w', layoutLoop place advance cursor cs w = Some (tt, w') /\
      log w' = log w /\
      (forall a, a ∉ map raddr cs -> heap w' !! a = heap w !! a) /\
      (forall a, heap w !! a = None -> heap w' !! a = None) /\
      (forall a o, heap w !! a = Some o ->
         exists r, heap w' !! a = Some (with_bounds r o) /\
                   placed_like place advance r (BaseElement.bounds (base o))) /\
      (forall i c, lastSlot cs i c ->
         boundsIn w' c
           = place (cursorAfter advance cursor (boundsIn w <$> take i cs))
                   (boundsIn w c)).
Proof.
  induction cs as [|c rest IH]; intros cursor w Hpres.
  { exists w. split; [done|]. split; [done|]. split; [done|]. split; [done|]. split.
    - intros a o Ho. exists (BaseElement.bounds (base o)).
      rewrite with_bounds_same. by split.
    - intros i c' [Hi _]. by rewrite lookup_nil in Hi. }
  destruct (Hpres c) as [oc Hoc]; [by left|].
  set (b := BaseElement.bounds (base oc)).
  set (w1 := mkWorld (<[raddr c := with_bounds (place cursor b) oc]> (heap w)) (log w)).
  assert (Hlike : forall x, placed_like place advance (boundsIn w1 x) (boundsIn w x)).
  { intros x. unfold boundsIn. simpl.
    destruct (decide (raddr x = raddr c)) as [->|Hne].
    - rewrite lookup_insert_eq, Hoc. simpl. fold b. by split.
    - rewrite lookup_insert_ne by done. by split. }
  destruct (IH (GoInt.add cursor (advance b)) w1) as
      (w' & Hrun & Hlog & Hframe & Hnone & Hshape & Hlast).
  { intros c' Hc'. simpl. destruct (decide (raddr c' = raddr c)) as [->|Hne].
    - rewrite lookup_insert_eq. by eexists.
    - rewrite lookup_insert_ne by done. apply Hpres. by right. }
  exists w'. split; [|split; [|split; [|split; [|split]]]].
  - simpl. rewrite (bind_run _ _ _ _ _ (Bounds_run _ _ _ Hoc)).
    unfold SetBounds. rewrite (bind_run _ _ w w1 tt); [done|].
    by apply modify_obj_run.
  - by rewrite Hlog.
  - intros a Ha. simpl in Ha. apply not_elem_of_cons in Ha as [Hne Ha].
    rewrite (Hframe a Ha). simpl. by rewrite lookup_insert_ne.
  - intros a Ha. apply Hnone. simpl.
    destruct (decide (a = raddr c)) as [->|Hne]; [congruence|].
    by rewrite lookup_insert_ne.
  - intros a o Ho. destruct (decide (a = raddr c)) as [->|Hne].
    + assert (o = oc) as -> by congruence.
      destruct (Hshape (raddr c) (with_bounds (place cursor b) oc)) as (r & Hr & Hadv & Hpl).
      { simpl. apply lookup_insert_eq. }
      exists r. rewrite with_bounds_twice in Hr. split; [done|].
      simpl in Hadv, Hpl. split.
      * by rewrite Hadv, advance_place.
      * intros cur. by rewrite Hpl, place_place.
    + apply Hshape. simpl. by rewrite lookup_insert_ne.
  - intros i c' [Hi Hlater]. destruct i as [|j].
    + simpl in Hi. injection Hi as <-. simpl in Hlater. rewrite drop_0 in Hlater.
      unfold boundsIn at 1. rewrite (Hframe _ Hlater). simpl.
      rewrite lookup_insert_eq. simpl.
      by rewrite (boundsIn_lookup _ _ _ Hoc).
    + simpl in Hi, Hlater.
      rewrite (Hlast j c' (conj Hi Hlater)).
      change (take (S j) (c :: rest)) with (c :: take j rest).
      rewrite fmap_cons, cursorAfter_cons.
      rewrite (boundsIn_lookup w c oc Hoc). fold b.
      rewrite (cursorAfter_ext advance (boundsIn w1) (boundsIn w));
        [|intros x; apply Hlike].
      apply Hlike.
Qed.

End LayoutLoop.

Lemma prescribedBounds_row (ff : FlexContainer.t) (content : Rect) (x : Z) (b : Rect) :
  FlexContainer.flexDirection ff = FlexRow ->
  prescribedBounds ff content x b
    = (let '(y, h) := alignCross (FlexContainer.alignItems ff) (Y content)
                                 (Height content) (Height b) in
       mkRect x y (Width b) h).
Proof.
  intros Hdir. unfold prescribedBounds. rewrite Hdir.
  by destruct (FlexContainer.alignItems ff).
Qed.

Lemma prescribedBounds_column (ff : FlexContainer.t) (content : Rect) (y : Z) (b : Rect) :
  FlexContainer.flexDirection ff = FlexColumn ->
  prescribedBounds ff content y b
    = (let '(x, wd) := alignCross (FlexContainer.alignItems ff) (X content)
                                  (Width content) (Width b) in
       mkRect x y wd (Height b)).
Proof.
  intros Hdir. unfold prescribedBounds. rewrite Hdir.
  by destruct (FlexContainer.alignItems ff).
Qed.

Lemma prescribedAdvance_row (ff : FlexContainer.t) (b : Rect) :
  FlexContainer.flexDirection ff = FlexRow ->
  prescribedAdvance ff b = GoInt.add (Width b) (FlexContainer.spacing ff).
Proof. intros Hdir. unfold prescribedAdvance. by rewrite Hdir. Qed.

Lemma prescribedAdvance_column (ff : FlexContainer.t) (b : Rect) :
  FlexContainer.flexDirection ff = FlexColumn ->
  prescribedAdvance ff b = GoInt.add (Height b) (FlexContainer.spacing ff).
Proof. intros Hdir. unfold prescribedAdvance. by rewrite Hdir. Qed.

Lemma layoutRow_loop (ff : FlexContainer.t) (content : Rect) :
  FlexContainer.flexDirection ff = FlexRow ->
  forall (cs : list Ref) (x : Z) (w : World),
    layoutRow ff (Y content) (Height content) x cs w
      = layoutLoop (prescribedBounds ff content) (prescribedAdvance ff) x cs w.
Proof.
  intros Hdir cs. induction cs as [|c rest IH]; intros x w; [done|].
  simpl. unfold mbind at 1 3, M_bind at 1 3.
  destruct (Bounds (raddr c) w) as [[b w1]|]; [|done].
  rewrite (prescribedBounds_row ff content x b Hdir), (prescribedAdvance_row ff b Hdir).
  destruct (alignCross _ _ _ _) as [y h].
  unfold mbind, M_bind. destruct (SetBounds _ _ w1) as [[u w2]|]; [|done].
  apply IH.
Qed.

Lemma layoutColumn_loop (ff : FlexContainer.t) (content : Rect) :
  FlexContainer.flexDirection ff = FlexColumn ->
  forall (cs : list Ref) (y : Z) (w : World),
    layoutColumn ff (X content) (Width content) y cs w
      = layoutLoop (prescribedBounds ff content) (prescribedAdvance ff) y cs w.
Proof.
  intros Hdir cs. induction cs as [|c rest IH]; intros y w; [done|].
  simpl. unfold mbind at 1 3, M_bind at 1 3.
  destruct (Bounds (raddr c) w) as [[b w1]|]; [|done].
  rewrite (prescribedBounds_column ff content y b Hdir),
    (prescribedAdvance_column ff b Hdir).
  destruct (alignCross _ _ _ _) as [x wd].
  unfold mbind, M_bind. destruct (SetBounds _ _ w1) as [[u w2]|]; [|done].
  apply IH.
Qed.

Lemma prescribedAdvance_placed (ff : FlexContainer.t) (content : Rect) (cur : Z) (b : Rect) :
  prescribedAdvance ff (prescribedBounds ff content cur b) = prescribedAdvance ff b.
Proof.
  unfold prescribedAdvance, prescribedBounds.
  destruct (FlexContainer.flexDirection ff);
    by destruct (prescribedCross _ _ _ _).
Qed.

Lemma prescribedBounds_placed (ff : FlexContainer.t) (content : Rect) (cur cur' : Z)
    (b : Rect) :
  prescribedBounds ff content cur' (prescribedBounds ff content cur b)
    = prescribedBounds ff content cur' b.
Proof.
  unfold prescribedBounds.
  destruct (FlexContainer.flexDirection ff), (FlexContainer.alignItems ff); done.
Qed.

(** One layout pass, started where the container's geometry resolves. *)
Lemma updateLayout_spec (k : nat) (w : World) (f : addr) (o : Object)
    (ff : FlexContainer.t) (bounds : Rect) :
  heap w !! f = Some o ->
  widget o = WFlexContainer ff ->
  ComputedBounds k f w = Some (bounds, w) ->
  (forall c, c ∈ BaseElement.children (base o) -> is_Some (heap w !! raddr c)) ->
  let content := layoutContent bounds (Node.boxModel (node o)) in
  let cs := BaseElement.children (base o) in
  exists w', updateLayout k f w = Some (tt, w') /\
    log w' = log w /\
    (forall a, a ∉ map raddr cs -> heap w' !! a = heap w !! a) /\
    (forall a, heap w !! a = None -> heap w' !! a = None) /\
    (forall a oa, heap w !! a = Some oa ->
       exists r, heap w' !! a = Some (with_bounds r oa) /\
         placed_like (prescribedBounds ff content) (prescribedAdvance ff) r
                     (BaseElement.bounds (base oa))) /\
    (forall i c, lastSlot cs i c ->
       boundsIn w' c
         = prescribedBounds ff content
             (cursorAfter (prescribedAdvance ff) (prescribedStart ff content)
                          (boundsIn w <$> take i cs))
             (boundsIn w c)).
Proof.
  intros Ho Hw Hcb Hpres content cs.
  unfold updateLayout.
  rewrite (bind_run _ _ _ _ _ (Children_run _ _ _ Ho)). fold cs.
  destruct (decide (length cs = 0)) as [Hlen|Hlen].
  { exists w. split; [done|]. split; [done|]. split; [done|]. split; [done|]. split.
    - intros a oa Hoa. exists (BaseElement.bounds (base oa)).
      rewrite with_bounds_same. by split.
    - intros i c [Hi _]. destruct cs; [by rewrite lookup_nil in Hi | done]. }
  rewrite (bind_run _ _ _ _ _ Hcb).
  rewrite (bind_run _ _ _ _ _ (GetBoxModel_run _ _ _ Ho)).
  rewrite (bind_run _ _ _ _ _ (get_flex_run _ _ _ _ Ho Hw)).
  rewrite (bind_run _ _ _ _ _ (Children_run _ _ _ Ho)). fold cs content.
  destruct (layoutLoop_spec (prescribedBounds ff content) (prescribedAdvance ff)
              (prescribedAdvance_placed ff content)
              (prescribedBounds_placed ff content)
              cs (prescribedStart ff content) w Hpres) as (w' & Hrun & Hrest).
  exists w'. split; [|exact Hrest].
  unfold prescribedStart in Hrun.
  destruct (FlexContainer.flexDirection ff) eqn:Hdir.
  - by rewrite (layoutRow_loop ff content Hdir).
  - by rewrite (layoutColumn_loop ff content Hdir).
Qed.

(** When no child is listed twice, every slot is the last slot of its
    child. *)
Lemma lastSlot_NoDup (cs : list Ref) (i : nat) (c : Ref) :
  NoDup (map raddr cs) -> cs !! i = Some c -> lastSlot cs i c.
Proof.
  intros Hnd Hi. split; [done|].
  rewrite <- (take_drop_middle cs i c Hi), map_app in Hnd. simpl in Hnd.
  apply NoDup_app in Hnd as (_ & _ & Hnd).
  by apply NoDup_cons in Hnd as [Hnotin _].
Qed.

(** ** C5: the row cursor *)

(** C5.  One layout pass over a row container puts each child at a cursor
    that starts at the content box's x, which is the x of the container's
    computed bounds plus its left padding, and advances, after each child in
    insertion order, by that child's width plus the spacing, and leaves each
    child's width as it was.  (A child listed twice is one object: it ends up
    where its last slot puts it.)  With children of widths 100 and 120,
    spacing 10 and the content box at x = 0, the children end at x = 0 and
    x = 110 with widths 100 and 120; in a container at x = 10 with left
    padding 2 they end at x = 12 and x = 122. *)
Theorem updateLayout_row_cursor :
  (forall (k : nat) (w : World) (f : addr) (o : Object) (ff : FlexContainer.t)
          (bounds : Rect),
      heap w !! f = Some o ->
      widget o = WFlexContainer ff ->
      FlexContainer.flexDirection ff = FlexRow ->
      ComputedBounds k f w = Some (bounds, w) ->
      (forall c, c ∈ BaseElement.children (base o) -> is_Some (heap w !! raddr c)) ->
      exists w', updateLayout k f w = Some (tt, w') /\
        forall i c, lastSlot (BaseElement.children (base o)) i c ->
          X (boundsIn w' c)
            = cursorAfter (fun b => GoInt.add (Width b) (FlexContainer.spacing ff))
                (GoInt.add (X bounds) (Left (Padding (Node.boxModel (node o)))))
                (boundsIn w <$> take i (BaseElement.children (base o))) /\
          Width (boundsIn w' c) = Width (boundsIn w c)) /\
  (exists w', updateLayout 1 0 row_world = Some (tt, w') /\
     X (prescribedContent (mkRect 0 0 400 100) (Padding zeroBoxModel)) = 0%Z /\
     boundsIn w' (mkRef TNode 1) = mkRect 0 0 100 30 /\
     boundsIn w' (mkRef TNode 2) = mkRect 110 0 120 40) /\
  (exists w', updateLayout 1 0 padded_row_world = Some (tt, w') /\
     X (prescribedContent (mkRect 10 20 400 100) (mkSpacing 4 6 8 2)) = 12%Z /\
     boundsIn w' (mkRef TNode 1) = mkRect 12 24 100 30 /\
     boundsIn w' (mkRef TNode 2) = mkRect 122 24 120 40).
Proof.
  split; [|split].
  - intros k w f o ff bounds Ho Hw Hdir Hcb Hpres.
    destruct (updateLayout_spec k w f o ff bounds Ho Hw Hcb Hpres)
      as (w' & Hrun & _ & _ & _ & _ & Hlast).
    exists w'. split; [done|]. intros i c Hslot.
    rewrite (Hlast i c Hslot).
    rewrite prescribedBounds_row by done.
    destruct (alignCross _ _ _ _) as [y h]. simpl. split; [|done].
    unfold prescribedStart. rewrite Hdir.
    change (X (layoutContent bounds (Node.boxModel (node o))))
      with (GoInt.add (X bounds) (Left (Padding (Node.boxModel (node o))))).
    apply cursorAfter_advance_ext. intros b. by apply prescribedAdvance_row.
  - eexists. split; [vm_compute; reflexivity|].
    split; [reflexivity|]. split; vm_compute; reflexivity.
  - eexists. split; [vm_compute; reflexivity|].
    split; [reflexivity|]. split; vm_compute; reflexivity.
Qed.

Lemma updateLayout_row_cursor_witness :
  exists w', updateLayout 1 0 padded_row_world = Some (tt, w') /\
    forall i c, lastSlot [mkRef TNode 1; mkRef TNode 2] i c ->
      X (boundsIn w' c)
        = cursorAfter (fun b => GoInt.add (Width b) 10) 12
            (boundsIn padded_row_world <$> take i [mkRef TNode 1; mkRef TNode 2]) /\
      Width (boundsIn w' c) = Width (boundsIn padded_row_world c).
Proof.
  apply (proj1 updateLayout_row_cursor 1 padded_row_world 0 padded_row_container
           (FlexContainer.mk FlexRow AlignStart AlignStart 10) (mkRect 10 20 400 100)).
  - reflexivity.
  - reflexivity.
  - reflexivity.
  - vm_compute. reflexivity.
  - intros c Hc. apply list_elem_of_In in Hc. simpl in Hc.
    destruct Hc as [<-|[<-|[]]]; eexists; reflexivity.
Defined.

(** ** C2: a flex container is laid out after every mutation *)







(** ** What handlers leave alone *)

Lemma same_structure_refl (w : World) : same_structure w w.
Proof. by intros a. Qed.

Lemma same_structure_trans (w1 w2 w3 : World) :
  same_structure w1 w2 -> same_structure w2 w3 -> same_structure w1 w3.
Proof. intros H12 H23 a. by rewrite H23, H12. Qed.

Lemma same_structure_lookup (w w' : World) (a : addr) (o' : Object) :
  same_structure w w' -> heap w' !! a = Some o' ->
  exists o, heap w !! a = Some o /\ erase o' = erase o.
Proof.
  intros Hs Ho'. specialize (Hs a). rewrite Ho' in Hs.
  destruct (heap w !! a) as [o|]; [|discriminate].
  exists o. split; [done|]. simpl in Hs. congruence.
Qed.

Lemma same_structure_lookup_back (w w' : World) (a : addr) (o : Object) :
  same_structure w w' -> heap w !! a = Some o ->
  exists o', heap w' !! a = Some o' /\ erase o' = erase o.
Proof.
  intros Hs Ho. specialize (Hs a). rewrite Ho in Hs.
  destruct (heap w' !! a) as [o'|]; [|discriminate].
  exists o'. split; [done|]. simpl in Hs. congruence.
Qed.

Lemma erase_base (o o' : Object) :
  erase o' = erase o ->
  BaseElement.bounds (base o') = BaseElement.bounds (base o) /\
  BaseElement.parent (base o') = BaseElement.parent (base o) /\
  BaseElement.children (base o') = BaseElement.children (base o).
Proof.
  destruct o as [[] ? ?], o' as [[] ? ?]. unfold erase. simpl.
  intros [= -> -> -> -> -> ?]. done.
Qed.

Lemma erase_widget_ok (t : DynType) (o o' : Object) :
  erase o' = erase o -> widget_ok t (widget o) -> widget_ok t (widget o').
Proof.
  intros He. assert (Hw : erase_widget (widget o') = erase_widget (widget o)).
  { destruct o, o'. unfold erase in He. simpl in *. congruence. }
  destruct t, (widget o) as [|bt|c|ff| |], (widget o') as [|bt'|c'|ff'| |];
    simpl in *; try discriminate; try done; intros H;
    try (destruct H as [? H]; discriminate H); eauto.
Qed.

Lemma wf_same_structure (D : nat) (rk : addr -> nat) (w w' : World) :
  wf D rk w -> same_structure w w' -> wf D rk w'.
Proof.
  intros Hwf Hs a o' Ho'.
  destruct (same_structure_lookup w w' a o' Hs Ho') as (o & Ho & He).
  destruct (erase_base o o' He) as (_ & Hp & Hc).
  destruct (Hwf a o Ho) as (Hlt & Hch & Hpar).
  split; [done|]. split.
  - intros c Hcin. rewrite Hc in Hcin.
    destruct (Hch c Hcin) as [(oc & Hoc & Hok) Hrk]. split; [|done].
    destruct (same_structure_lookup_back w w' _ oc Hs Hoc) as (oc' & Hoc' & Hec).
    exists oc'. split; [done|]. by eapply erase_widget_ok.
  - intros p Hpp. rewrite Hp in Hpp.
    destruct (Hpar p Hpp) as [[po Hpo] Hrk]. split; [|done].
    destruct (same_structure_lookup_back w w' _ po Hs Hpo) as (po' & Hpo' & _).
    by eexists.
Qed.

Lemma evolves_refl (rk : addr -> nat) (m : nat) (w : World) : evolves rk m w w.
Proof.
  split; [apply same_structure_refl|]. split; [done|].
  exists []. by rewrite app_nil_r.
Qed.

Lemma evolves_trans (rk : addr -> nat) (m1 m2 m : nat) (w1 w2 w3 : World) :
  m1 <= m -> m2 <= m ->
  evolves rk m1 w1 w2 -> evolves rk m2 w2 w3 -> evolves rk m w1 w3.
Proof.
  intros Hm1 Hm2 (Hs1 & Hf1 & evs1 & Hl1 & He1) (Hs2 & Hf2 & evs2 & Hl2 & He2).
  split; [by eapply same_structure_trans|]. split.
  - intros a Ha. rewrite Hf2 by lia. apply Hf1. lia.
  - exists (evs1 ++ evs2). split; [by rewrite Hl2, Hl1, app_assoc|].
    apply Forall_app. split; (eapply Forall_impl; [eassumption|]); simpl; intros; lia.
Qed.

Lemma evolves_mono (rk : addr -> nat) (m m' : nat) (w w' : World) :
  m <= m' -> evolves rk m w w' -> evolves rk m' w w'.
Proof.
  intros Hm Hev.
  apply (evolves_trans rk m 0 m' w w' w'); [done|lia|done|apply evolves_refl].
Qed.

Lemma evolves_flags (rk : addr -> nat) (a : addr) (w : World) (o o' : Object) :
  heap w !! a = Some o -> erase o' = erase o ->
  evolves rk (S (rk a)) w (mkWorld (<[a := o']> (heap w)) (log w)).
Proof.
  intros Ho He. split; [|split].
  - intros a'. simpl. destruct (decide (a' = a)) as [->|Hne].
    + rewrite lookup_insert_eq, Ho. simpl. by rewrite He.
    + by rewrite lookup_insert_ne.
  - intros a' Ha'. simpl. rewrite lookup_insert_ne; [done|]. intros ->. lia.
  - exists []. simpl. by rewrite app_nil_r.
Qed.

Lemma evolves_emit (rk : addr -> nat) (e : Event) (w : World) :
  evolves rk (S (rk (source e))) w (mkWorld (heap w) (log w ++ [e])).
Proof.
  split; [by intros a|]. split; [done|].
  exists [e]. split; [done|]. apply Forall_singleton. lia.
Qed.

Lemma evolves_wf (D : nat) (rk : addr -> nat) (m : nat) (w w' : World) :
  wf D rk w -> evolves rk m w w' -> wf D rk w'.
Proof. intros Hwf [Hs _]. by eapply wf_same_structure. Qed.

Lemma evolves_ComputedBounds (rk : addr -> nat) (m k : nat) (w w' : World) (d : addr)
    (r : Rect) :
  evolves rk m w w' ->
  ComputedBounds k d w = Some (r, w) -> ComputedBounds k d w' = Some (r, w').
Proof.
  intros [Hs _] H. apply ComputedBounds_Some. apply ComputedBounds_Some in H.
  by rewrite (resolve_same_structure w w').
Qed.

(** ** Running the primitives of the handlers *)

Lemma IsMouseOver_run (b : addr) (x y : Z) (w : World) (o : Object) :
  heap w !! b = Some o ->
  IsMouseOver b x y w
    = Some (PointInRect (mkPoint x y) (BaseElement.bounds (base o)), w).
Proof.
  intros Ho. unfold IsMouseOver. by rewrite (bind_run _ _ _ _ _ (Bounds_run _ _ _ Ho)).
Qed.

Lemma get_button_run (a : addr) (w : World) (o : Object) (bt : Button.t) :
  heap w !! a = Some o -> widget o = WButton bt -> get_button a w = Some (bt, w).
Proof.
  intros Ho Hw. unfold get_button.
  rewrite (bind_run _ _ _ _ _ (get_obj_run _ _ _ Ho)). by rewrite Hw.
Qed.

Lemma set_button_run (a : addr) (f : Button.t -> Button.t) (w : World) (o : Object)
    (bt : Button.t) :
  heap w !! a = Some o -> widget o = WButton bt ->
  set_button a f w
    = Some (tt, mkWorld (<[a := set_widget (WButton (f bt)) o]> (heap w)) (log w)).
Proof.
  intros Ho Hw. unfold set_button.
  rewrite (bind_run _ _ _ _ _ (get_button_run _ _ _ _ Ho Hw)).
  by apply modify_obj_run.
Qed.

Lemma get_checkbox_run (a : addr) (w : World) (o : Object) (c : Checkbox.t) :
  heap w !! a = Some o -> widget o = WCheckbox c -> get_checkbox a w = Some (c, w).
Proof.
  intros Ho Hw. unfold get_checkbox.
  rewrite (bind_run _ _ _ _ _ (get_obj_run _ _ _ Ho)). by rewrite Hw.
Qed.

Lemma erase_set_button (f : Button.t -> Button.t) (o : Object) (bt : Button.t) :
  widget o = WButton bt ->
  Button.onClick (f bt) = Button.onClick bt ->
  Button.disabled (f bt) = Button.disabled bt ->
  erase (set_widget (WButton (f bt)) o) = erase o.
Proof.
  intros Hw Hc Hd. destruct o as [ba nd wd]. simpl in Hw. subst wd.
  unfold erase, set_widget. simpl. f_equal. f_equal.
  unfold Button.set_hovered, Button.set_pressed. simpl. by rewrite Hc, Hd.
Qed.

(** Linear arithmetic on ranks, from the order facts in the context only. *)
Ltac rk_lia :=
  repeat match goal with
  | H : ?T |- _ =>
    lazymatch T with
    | (_ < _) => fail
    | (_ <= _) => fail
    | _ => clear H
    end
  end; lia.

(** ** The dispatch loop on a well-formed tree *)

Section Dispatch.

Variables (D : nat) (rk : addr -> nat) (m : nat) (call : Ref -> M bool) (b : addr).
Hypothesis Hcall : handles D rk m call.
Hypothesis Hb : rk b <= m.

Lemma evolves_lookup_top (w w' : World) (o : Object) :
  evolves rk (rk b) w w' -> heap w !! b = Some o -> heap w' !! b = Some o.
Proof. intros (_ & Hf & _) Ho. by rewrite Hf. Qed.

Lemma call_child (w : World) (o : Object) (j : nat) (child : Ref) :
  wf D rk w -> heap w !! b = Some o ->
  BaseElement.children (base o) !! j = Some child ->
  exists res w', call child w = Some (res, w') /\ evolves rk (rk b) w w'.
Proof.
  intros Hwf Ho Hj. destruct (Hwf b o Ho) as (_ & Hch & _).
  destruct (Hch child) as [Hok Hlt]; [by eapply list_elem_of_lookup_2|].
  destruct (Hcall child w Hwf Hok) as (res & w' & Hrun & Hev); [rk_lia|].
  exists res, w'. split; [done|].
  eapply evolves_mono; [|exact Hev]. rk_lia.
Qed.

Lemma dispatchLoop_total (i : nat) :
  forall (w : World) (o : Object),
    wf D rk w -> heap w !! b = Some o ->
    i <= length (BaseElement.children (base o)) ->
    exists res w', dispatchLoop call b i w = Some (res, w') /\ evolves rk (rk b) w w'.
Proof.
  induction i as [|j IH]; intros w o Hwf Ho Hi.
  { exists false, w. split; [done|apply evolves_refl]. }
  simpl. rewrite (bind_run _ _ _ _ _ (Children_run _ _ _ Ho)).
  destruct (lookup_lt_is_Some_2 (BaseElement.children (base o)) j) as [child Hj]; [rk_lia|].
  rewrite Hj.
  destruct (call_child w o j child Hwf Ho Hj) as (res & w1 & Hrun & Hev).
  rewrite (bind_run _ _ _ _ _ Hrun). destruct res.
  { exists true, w1. by split. }
  destruct (IH w1 o) as (res & w2 & Hrun2 & Hev2).
  - by eapply evolves_wf.
  - by eapply evolves_lookup_top.
  - rk_lia.
  - exists res, w2. split; [done|].
    eapply evolves_trans; [| |exact Hev|exact Hev2]; rk_lia.
Qed.

Lemma dispatchChildren_total (w : World) (o : Object) :
  wf D rk w -> heap w !! b = Some o ->
  exists res w', dispatchChildren call b w = Some (res, w') /\ evolves rk (rk b) w w'.
Proof.
  intros Hwf Ho. unfold dispatchChildren.
  rewrite (bind_run _ _ _ _ _ (Children_run _ _ _ Ho)).
  by apply (dispatchLoop_total _ w o).
Qed.

(** The loop visits the first [i] children from the last to the first. *)
Lemma dispatchLoop_declined (i : nat) :
  forall (w w1 : World) (o : Object),
    wf D rk w -> heap w !! b = Some o ->
    i <= length (BaseElement.children (base o)) ->
    declined call (rev (take i (BaseElement.children (base o)))) w = Some w1 ->
    dispatchLoop call b i w = Some (false, w1).
Proof.
  induction i as [|j IH]; intros w w1 o Hwf Ho Hi Hdec.
  { simpl in Hdec. by injection Hdec as <-. }
  destruct (lookup_lt_is_Some_2 (BaseElement.children (base o)) j) as [child Hj]; [rk_lia|].
  rewrite (take_S_r _ _ _ Hj), rev_app_distr in Hdec. simpl in Hdec.
  simpl. rewrite (bind_run _ _ _ _ _ (Children_run _ _ _ Ho)). rewrite Hj.
  destruct (call_child w o j child Hwf Ho Hj) as (res & w2 & Hrun & Hev).
  rewrite Hrun in Hdec. rewrite (bind_run _ _ _ _ _ Hrun).
  destruct res; [discriminate|].
  apply (IH w2 w1 o); [by eapply evolves_wf|by eapply evolves_lookup_top|rk_lia|done].
Qed.

Lemma dispatchLoop_accepted (i : nat) :
  forall (w w1 w2 : World) (o : Object) (pre post : list Ref) (c : Ref),
    wf D rk w -> heap w !! b = Some o ->
    i <= length (BaseElement.children (base o)) ->
    take i (BaseElement.children (base o)) = pre ++ c :: post ->
    declined call (rev post) w = Some w1 ->
    call c w1 = Some (true, w2) ->
    dispatchLoop call b i w = Some (true, w2).
Proof.
  induction i as [|j IH]; intros w w1 w2 o pre post c Hwf Ho Hi Htake Hdec Hc.
  { rewrite take_0 in Htake. by destruct pre. }
  destruct (lookup_lt_is_Some_2 (BaseElement.children (base o)) j) as [child Hj]; [rk_lia|].
  rewrite (take_S_r _ _ _ Hj) in Htake.
  simpl. rewrite (bind_run _ _ _ _ _ (Children_run _ _ _ Ho)). rewrite Hj.
  destruct post as [|last post' _] using rev_ind.
  - simpl in Hdec. injection Hdec as <-.
    assert (c = child) as ->.
    { apply app_inj_tail in Htake as [_ Htake]. by symmetry. }
    by rewrite (bind_run _ _ _ _ _ Hc).
  - assert (last = child /\ take j (BaseElement.children (base o)) = pre ++ c :: post')
      as [-> Htake'].
    { rewrite app_comm_cons, app_assoc in Htake.
      apply app_inj_tail in Htake as [? ?]. by split. }
    rewrite rev_app_distr in Hdec. simpl in Hdec.
    destruct (call_child w o j child Hwf Ho Hj) as (res & w3 & Hrun & Hev).
    rewrite Hrun in Hdec. rewrite (bind_run _ _ _ _ _ Hrun).
    destruct res; [discriminate|].
    apply (IH w3 w1 w2 o pre post' c);
      [by eapply evolves_wf|by eapply evolves_lookup_top|rk_lia|done|done|done].
Qed.

End Dispatch.

(** ** Every handler terminates and stays within its subtree *)

Lemma erase_set_pressed (v : bool) (o : Object) :
  erase (set_base (BaseElement.set_pressed v) o) = erase o.
Proof. by destruct o as [[] ? ?]. Qed.

Lemma erase_set_mouseOver (v : bool) (o : Object) :
  erase (set_base (BaseElement.set_mouseOver v) o) = erase o.
Proof. by destruct o as [[] ? ?]. Qed.

Lemma erase_set_checked (v : bool) (o : Object) (c : Checkbox.t) :
  widget o = WCheckbox c ->
  erase (set_widget (WCheckbox (Checkbox.set_checked v c)) o) = erase o.
Proof. destruct o as [ba nd wd]. simpl. by intros ->. Qed.

Ltac step H := rewrite (bind_run _ _ _ _ _ H).

Section Handlers.

Variables (D : nat) (rk : addr -> nat) (k m : nat) (call : Ref -> M bool).
Hypothesis HDk : D <= k.
Hypothesis Hcall : handles D rk m call.

(** The world after a handler has rewritten the flags of its own object. *)
Lemma after_flags (b : addr) (w : World) (o o1 : Object) :
  wf D rk w -> heap w !! b = Some o -> erase o1 = erase o ->
  let w1 := mkWorld (<[b := o1]> (heap w)) (log w) in
  wf D rk w1 /\ heap w1 !! b = Some o1 /\ evolves rk (S (rk b)) w w1.
Proof.
  intros Hwf Ho He w1.
  assert (Hev : evolves rk (S (rk b)) w w1) by (by apply (evolves_flags rk b w o o1)).
  split; [by eapply evolves_wf|]. split; [apply lookup_insert_eq|done].
Qed.

Lemma dispatch_after (b : addr) (w w1 : World) (o1 : Object) :
  rk b <= m -> wf D rk w1 -> heap w1 !! b = Some o1 ->
  evolves rk (S (rk b)) w w1 ->
  exists res w2, dispatchChildren call b w1 = Some (res, w2) /\
    evolves rk (S (rk b)) w w2 /\ heap w2 !! b = Some o1 /\ evolves rk (rk b) w1 w2.
Proof.
  intros Hb Hwf1 Ho1 Hev1.
  destruct (dispatchChildren_total D rk m call b Hcall Hb w1 o1 Hwf1 Ho1)
    as (res & w2 & Hrun & Hev2).
  exists res, w2. split; [done|]. split; [|split; [|done]].
  - eapply evolves_trans; [| |exact Hev1|exact Hev2]; rk_lia.
  - by eapply evolves_lookup_top.
Qed.

Lemma BaseElement_HandleMouseDown_total (b : addr) (x y : Z) (w : World) (o : Object) :
  rk b <= m -> wf D rk w -> heap w !! b = Some o ->
  exists res w', BaseElement_HandleMouseDown call b x y w = Some (res, w') /\
    evolves rk (S (rk b)) w w'.
Proof.
  intros Hb Hwf Ho. unfold BaseElement_HandleMouseDown.
  step (IsMouseOver_run b x y w o Ho).
  destruct (PointInRect _ _).
  2: { exists false, w. split; [done|apply evolves_refl]. }
  step (modify_obj_run b (set_base (BaseElement.set_pressed true)) w o Ho).
  destruct (after_flags b w o _ Hwf Ho (erase_set_pressed true o)) as (Hwf1 & Ho1 & Hev1).
  destruct (dispatch_after b w _ _ Hb Hwf1 Ho1 Hev1) as (res & w2 & Hrun & Hev2 & _).
  step Hrun. exists true, w2. split; [by destruct res|done].
Qed.

Lemma BaseElement_HandleMouseUp_total (b : addr) (x y : Z) (w : World) (o : Object) :
  rk b <= m -> wf D rk w -> heap w !! b = Some o ->
  exists res w', BaseElement_HandleMouseUp call b x y w = Some (res, w') /\
    evolves rk (S (rk b)) w w'.
Proof.
  intros Hb Hwf Ho. unfold BaseElement_HandleMouseUp.
  step (get_obj_run b w o Ho).
  step (modify_obj_run b (set_base (BaseElement.set_pressed false)) w o Ho).
  destruct (after_flags b w o _ Hwf Ho (erase_set_pressed false o)) as (Hwf1 & Ho1 & Hev1).
  destruct (dispatch_after b w _ _ Hb Hwf1 Ho1 Hev1) as (res & w2 & Hrun & Hev2 & _).
  destruct (BaseElement.pressed (base o)).
  - step (IsMouseOver_run b x y _ _ Ho1).
    destruct (PointInRect _ _); simpl; step Hrun.
    + exists true, w2. split; [by destruct res|done].
    + exists res, w2. split; [by destruct res|done].
  - rewrite (bind_run _ _ _ _ false (ret_run false _)). simpl. step Hrun.
    exists res, w2. split; [by destruct res|done].
Qed.

Lemma BaseElement_HandleMouseMove_total (b : addr) (x y : Z) (w : World) (o : Object) :
  rk b <= m -> wf D rk w -> heap w !! b = Some o ->
  exists res w', BaseElement_HandleMouseMove call b x y w = Some (res, w') /\
    evolves rk (S (rk b)) w w'.
Proof.
  intros Hb Hwf Ho. unfold BaseElement_HandleMouseMove.
  step (IsMouseOver_run b x y w o Ho).
  step (modify_obj_run b (set_base (BaseElement.set_mouseOver
          (PointInRect (mkPoint x y) (BaseElement.bounds (base o))))) w o Ho).
  destruct (after_flags b w o _ Hwf Ho
              (erase_set_mouseOver (PointInRect (mkPoint x y) (BaseElement.bounds (base o))) o))
    as (Hwf1 & Ho1 & Hev1).
  destruct (dispatch_after b w _ _ Hb Hwf1 Ho1 Hev1) as (res & w2 & Hrun & Hev2 & Ho2 & _).
  step Hrun. destruct res.
  - exists true, w2. by split.
  - step (get_obj_run b w2 _ Ho2). eexists _, w2. by split.
Qed.

Lemma dispatchChildren_handler_total (b : addr) (w : World) (o : Object) :
  rk b <= m -> wf D rk w -> heap w !! b = Some o ->
  exists res w', dispatchChildren call b w = Some (res, w') /\
    evolves rk (S (rk b)) w w'.
Proof.
  intros Hb Hwf Ho.
  destruct (dispatch_after b w w o Hb Hwf Ho (evolves_refl _ _ _))
    as (res & w2 & Hrun & Hev2 & _).
  by exists res, w2.
Qed.

Lemma FlexContainer_HandleMouseDown_total (f : addr) (x y : Z) (w : World) (o : Object) :
  rk f <= m -> wf D rk w -> heap w !! f = Some o ->
  exists res w', FlexContainer_HandleMouseDown k call f x y w = Some (res, w') /\
    evolves rk (S (rk f)) w w'.
Proof.
  intros Hb Hwf Ho. unfold FlexContainer_HandleMouseDown.
  destruct (ComputedBounds_total D rk w k f o Hwf HDk Ho) as [bounds Hcb].
  step Hcb. destruct (PointInRect _ _).
  2: { exists false, w. split; [done|apply evolves_refl]. }
  destruct (dispatchChildren_handler_total f w o Hb Hwf Ho) as (res & w2 & Hrun & Hev).
  step Hrun. exists true, w2. split; [by destruct res|done].
Qed.

Lemma Checkbox_HandleMouseDown_total (c : addr) (x y : Z) (w : World) (o : Object)
    (cb : Checkbox.t) :
  wf D rk w -> heap w !! c = Some o -> widget o = WCheckbox cb ->
  exists res w', Checkbox_HandleMouseDown k c x y w = Some (res, w') /\
    evolves rk (S (rk c)) w w'.
Proof.
  intros Hwf Ho Hw. unfold Checkbox_HandleMouseDown.
  destruct (ComputedBounds_total D rk w k c o Hwf HDk Ho) as [bounds Hcb].
  step Hcb. destruct (PointInRect _ _).
  2: { exists false, w. split; [done|apply evolves_refl]. }
  step (get_checkbox_run c w o cb Ho Hw).
  step (modify_obj_run c (set_widget (WCheckbox
          (Checkbox.set_checked (negb (Checkbox.checked cb)) cb))) w o Ho).
  destruct (after_flags c w o _ Hwf Ho
              (erase_set_checked (negb (Checkbox.checked cb)) o cb Hw)) as (_ & _ & Hev1).
  destruct (Checkbox.checkedChanged cb) as [handler|].
  - eexists true, _. split; [reflexivity|].
    eapply evolves_trans; [| |exact Hev1|]; [done|done|].
    apply (evolves_emit rk (CheckedChanged c handler _)).
  - eexists true, _. split; [reflexivity|done].
Qed.

Lemma Button_HandleMouseDown_total (b : addr) (x y : Z) (w : World) (o : Object)
    (bt : Button.t) :
  rk b <= m -> wf D rk w -> heap w !! b = Some o -> widget o = WButton bt ->
  exists res w', Button_HandleMouseDown k call b x y w = Some (res, w') /\
    evolves rk (S (rk b)) w w'.
Proof.
  intros Hb Hwf Ho Hw. unfold Button_HandleMouseDown.
  step (get_button_run b w o bt Ho Hw).
  destruct (Button.disabled bt).
  { exists false, w. split; [done|apply evolves_refl]. }
  destruct (ComputedBounds_total D rk w k b o Hwf HDk Ho) as [bounds Hcb].
  step Hcb. destruct (PointInRect _ _).
  2: { exists false, w. split; [done|apply evolves_refl]. }
  step (set_button_run b (Button.set_pressed true) w o bt Ho Hw).
  destruct (after_flags b w o _ Hwf Ho
              (erase_set_button (Button.set_pressed true) o bt Hw eq_refl eq_refl))
    as (Hwf1 & Ho1 & Hev1).
  destruct (dispatch_after b w _ _ Hb Hwf1 Ho1 Hev1) as (res & w2 & Hrun & Hev2 & _).
  step Hrun. exists true, w2. split; [by destruct res|done].
Qed.

Lemma Button_HandleMouseUp_total (b : addr) (x y : Z) (w : World) (o : Object)
    (bt : Button.t) :
  rk b <= m -> wf D rk w -> heap w !! b = Some o -> widget o = WButton bt ->
  exists res w', Button_HandleMouseUp k call b x y w = Some (res, w') /\
    evolves rk (S (rk b)) w w'.
Proof.
  intros Hb Hwf Ho Hw. unfold Button_HandleMouseUp.
  step (get_button_run b w o bt Ho Hw).
  step (set_button_run b (Button.set_pressed false) w o bt Ho Hw).
  destruct (after_flags b w o _ Hwf Ho
              (erase_set_button (Button.set_pressed false) o bt Hw eq_refl eq_refl))
    as (Hwf1 & Ho1 & Hev1).
  destruct (Button.disabled bt).
  { eexists false, _. split; [reflexivity|done]. }
  destruct (ComputedBounds_total D rk _ k b _ Hwf1 HDk Ho1) as [bounds Hcb].
  step Hcb.
  destruct (Button.pressed bt && PointInRect _ _).
  - destruct (Button.onClick bt) as [cb|].
    + eexists true, _. split; [reflexivity|].
      eapply evolves_trans; [| |exact Hev1|]; [done|done|].
      apply (evolves_emit rk (Clicked b cb)).
    + eexists true, _. split; [reflexivity|done].
  - destruct (dispatch_after b w _ _ Hb Hwf1 Ho1 Hev1) as (res & w2 & Hrun & Hev2 & _).
    by exists res, w2.
Qed.

Lemma Button_HandleMouseMove_total (b : addr) (x y : Z) (w : World) (o : Object)
    (bt : Button.t) :
  rk b <= m -> wf D rk w -> heap w !! b = Some o -> widget o = WButton bt ->
  exists res w', Button_HandleMouseMove k call b x y w = Some (res, w') /\
    evolves rk (S (rk b)) w w'.
Proof.
  intros Hb Hwf Ho Hw. unfold Button_HandleMouseMove.
  step (get_button_run b w o bt Ho Hw).
  destruct (ComputedBounds_total D rk w k b o Hwf HDk Ho) as [bounds Hcb].
  step Hcb.
  step (set_button_run b (Button.set_hovered (PointInRect (mkPoint x y) bounds))
          w o bt Ho Hw).
  destruct (after_flags b w o _ Hwf Ho
              (erase_set_button (Button.set_hovered (PointInRect (mkPoint x y) bounds))
                 o bt Hw eq_refl eq_refl))
    as (Hwf1 & Ho1 & Hev1).
  destruct (dispatch_after b w _ _ Hb Hwf1 Ho1 Hev1) as (res & w2 & Hrun & Hev2 & Ho2 & _).
  step Hrun. destruct res.
  - exists true, w2. by split.
  - step (get_button_run b w2 _ _ Ho2 eq_refl). eexists _, w2. by split.
Qed.

End Handlers.

Lemma HandleMouse_total (D : nat) (rk : addr -> nat) (k : nat) (ev : MouseEvent)
    (x y : Z) :
  D <= k ->
  forall n, handles D rk n (fun e => HandleMouse n k ev e x y).
Proof.
  intros HDk n. induction n as [|n IH]; intros e w Hwf Hok Hrk; [lia|].
  assert (Hb : rk (raddr e) <= n) by lia.
  destruct Hok as (o & Ho & Hok).
  destruct e as [t a]. simpl in *.
  destruct t, ev; simpl in Hok;
    try (eapply BaseElement_HandleMouseDown_total with (D := D) (m := n); by eauto);
    try (eapply BaseElement_HandleMouseUp_total with (D := D) (m := n); by eauto);
    try (eapply BaseElement_HandleMouseMove_total with (D := D) (m := n); by eauto);
    try (eapply dispatchChildren_handler_total with (D := D) (m := n); by eauto);
    try (eapply FlexContainer_HandleMouseDown_total with (D := D) (m := n); by eauto).
  - destruct Hok as [bt Hbt].
    eapply Button_HandleMouseDown_total with (D := D) (m := n); by eauto.
  - destruct Hok as [bt Hbt].
    eapply Button_HandleMouseUp_total with (D := D) (m := n); by eauto.
  - destruct Hok as [bt Hbt].
    eapply Button_HandleMouseMove_total with (D := D) (m := n); by eauto.
  - destruct Hok as [cb Hcb].
    eapply Checkbox_HandleMouseDown_total with (D := D); by eauto.
  - exists false, w. split; [done|apply evolves_refl].
Qed.

(** ** The button's handlers, step by step *)

Section ButtonHandlers.

Variables (D : nat) (rk : addr -> nat) (k m : nat) (call : Ref -> M bool).
Hypothesis HDk : D <= k.
Hypothesis Hcall : handles D rk m call.
Variables (b : addr) (w : World) (o : Object) (bt : Button.t) (R : Rect).
Hypothesis Hb : rk b <= m.
Hypothesis Hwf : wf D rk w.
Hypothesis Ho : heap w !! b = Some o.
Hypothesis Hw : widget o = WButton bt.
Hypothesis Hcb : ComputedBounds k b w = Some (R, w).

Lemma button_flag_world (f : Button.t -> Button.t) :
  Button.onClick (f bt) = Button.onClick bt ->
  Button.disabled (f bt) = Button.disabled bt ->
  let w1 := mkWorld (<[b := with_button f bt o]> (heap w)) (log w) in
  wf D rk w1 /\ heap w1 !! b = Some (with_button f bt o) /\
  evolves rk (S (rk b)) w w1 /\ ComputedBounds k b w1 = Some (R, w1).
Proof.
  intros Hc Hd w1.
  destruct (after_flags D rk b w o (with_button f bt o) Hwf Ho
              (erase_set_button f o bt Hw Hc Hd)) as (Hwf1 & Ho1 & Hev1).
  split; [done|]. split; [done|]. split; [done|].
  by eapply evolves_ComputedBounds.
Qed.

Lemma Button_HandleMouseDown_inside (x y : Z) :
  Button.disabled bt = false ->
  PointInRect (mkPoint x y) R = true ->
  exists w', Button_HandleMouseDown k call b x y w = Some (true, w') /\
    evolves rk (S (rk b)) w w' /\
    heap w' !! b = Some (with_button (Button.set_pressed true) bt o).
Proof.
  intros Hen Hin. unfold Button_HandleMouseDown.
  step (get_button_run b w o bt Ho Hw). rewrite Hen. step Hcb. rewrite Hin.
  step (set_button_run b (Button.set_pressed true) w o bt Ho Hw).
  destruct (button_flag_world (Button.set_pressed true) eq_refl eq_refl)
    as (Hwf1 & Ho1 & Hev1 & _).
  destruct (dispatch_after D rk k m call HDk Hcall b w _ _ Hb Hwf1 Ho1 Hev1)
    as (res & w2 & Hrun & Hev2 & Ho2 & _).
  step Hrun. exists w2. split; [by destruct res|]. by split.
Qed.

Lemma Button_HandleMouseDown_disabled (x y : Z) :
  Button.disabled bt = true ->
  Button_HandleMouseDown k call b x y w = Some (false, w).
Proof.
  intros Hdis. unfold Button_HandleMouseDown.
  step (get_button_run b w o bt Ho Hw). by rewrite Hdis.
Qed.

Lemma Button_HandleMouseUp_click (x y : Z) :
  Button.disabled bt = false ->
  Button.pressed bt = true ->
  PointInRect (mkPoint x y) R = true ->
  Button_HandleMouseUp k call b x y w
    = Some (true, mkWorld (<[b := with_button (Button.set_pressed false) bt o]> (heap w))
                          (log w ++ clicks b (Button.onClick bt))).
Proof.
  intros Hen Hpr Hin. unfold Button_HandleMouseUp.
  step (get_button_run b w o bt Ho Hw).
  step (set_button_run b (Button.set_pressed false) w o bt Ho Hw).
  destruct (button_flag_world (Button.set_pressed false) eq_refl eq_refl)
    as (_ & _ & _ & Hcb1).
  rewrite Hen. step Hcb1. rewrite Hpr, Hin. simpl.
  destruct (Button.onClick bt); simpl; [done|].
  by rewrite app_nil_r.
Qed.

Lemma Button_HandleMouseUp_elsewhere (x y : Z) :
  Button.pressed bt && PointInRect (mkPoint x y) R = false ->
  exists res w', Button_HandleMouseUp k call b x y w = Some (res, w') /\
    heap w' !! b = Some (with_button (Button.set_pressed false) bt o) /\
    exists evs, log w' = log w ++ evs /\ Forall (fun e => source e <> b) evs.
Proof.
  intros Hout. unfold Button_HandleMouseUp.
  step (get_button_run b w o bt Ho Hw).
  step (set_button_run b (Button.set_pressed false) w o bt Ho Hw).
  destruct (button_flag_world (Button.set_pressed false) eq_refl eq_refl)
    as (Hwf1 & Ho1 & Hev1 & Hcb1).
  destruct (Button.disabled bt).
  { eexists false, _. split; [reflexivity|]. split; [done|].
    exists []. simpl. by rewrite app_nil_r. }
  step Hcb1. rewrite Hout.
  destruct (dispatch_after D rk k m call HDk Hcall b w _ _ Hb Hwf1 Ho1 Hev1)
    as (res & w2 & Hrun & _ & Ho2 & (_ & _ & evs & Hlog & Hevs)).
  exists res, w2. split; [done|]. split; [done|].
  exists evs. split; [done|].
  eapply Forall_impl; [exact Hevs|]. simpl. intros e He Heq.
  rewrite Heq in He. clear -He. lia.
Qed.

Lemma Button_HandleMouseMove_spec (x y : Z) :
  exists res w', Button_HandleMouseMove k call b x y w = Some (res, w') /\
    heap w' !! b
      = Some (with_button (Button.set_hovered (PointInRect (mkPoint x y) R)) bt o) /\
    (Button.hovered bt = true \/ PointInRect (mkPoint x y) R = true -> res = true) /\
    evolves rk (S (rk b)) w w'.
Proof.
  unfold Button_HandleMouseMove.
  step (get_button_run b w o bt Ho Hw). step Hcb.
  step (set_button_run b (Button.set_hovered (PointInRect (mkPoint x y) R)) w o bt Ho Hw).
  destruct (button_flag_world (Button.set_hovered (PointInRect (mkPoint x y) R))
              eq_refl eq_refl) as (Hwf1 & Ho1 & Hev1 & _).
  destruct (dispatch_after D rk k m call HDk Hcall b w _ _ Hb Hwf1 Ho1 Hev1)
    as (res & w2 & Hrun & Hev2 & Ho2 & _).
  step Hrun. destruct res.
  - exists true, w2. by split.
  - step (get_button_run b w2 _ _ Ho2 eq_refl).
    eexists _, w2. split; [reflexivity|]. split; [done|]. split; [|done].
    simpl. destruct (PointInRect _ _), (Button.hovered bt); simpl; intros [?|?]; done.
Qed.

End ButtonHandlers.

(** ** C10: the checkbox toggles on mouse-down *)

(** C10.  [HandleMouseDown] on a checkbox whose computed bounds contain the
    point returns true in a world where the checked flag is negated and, when
    a [checkedChanged] callback is registered, that callback has been called
    once with the new value; no mouse-up is involved.  When the point is
    outside the bounds it returns false and the world is unchanged. *)
Theorem Checkbox_HandleMouseDown_toggles (n k : nat) (w : World) (c : addr)
    (o : Object) (cb : Checkbox.t) (bounds : Rect) (x y : Z) :
  heap w !! c = Some o ->
  widget o = WCheckbox cb ->
  ComputedBounds k c w = Some (bounds, w) ->
  HandleMouseDown (S n) k (mkRef TCheckbox c) x y w =
    if PointInRect (mkPoint x y) bounds then
      Some (true,
            mkWorld (<[c := with_checked (negb (Checkbox.checked cb)) cb o]> (heap w))
                    (log w ++ checkedChanges c (Checkbox.checkedChanged cb)
                                             (negb (Checkbox.checked cb))))
    else Some (false, w).
Proof.
  intros Ho Hw Hcb. unfold HandleMouseDown. simpl. unfold Checkbox_HandleMouseDown.
  step Hcb. destruct (PointInRect _ _); [|done].
  step (get_checkbox_run c w o cb Ho Hw).
  step (modify_obj_run c (set_widget (WCheckbox
          (Checkbox.set_checked (negb (Checkbox.checked cb)) cb))) w o Ho).
  destruct (Checkbox.checkedChanged cb); simpl; [done|].
  by rewrite app_nil_r.
Qed.

Lemma Checkbox_HandleMouseDown_toggles_witness :
  HandleMouseDown 1 1 (mkRef TCheckbox 0) 15 15 checkbox_world =
    Some (true,
          mkWorld (<[0 := with_checked true (Checkbox.mk false (Some 3)) checkbox_object]>
                     (heap checkbox_world))
                  [CheckedChanged 0 3 true]) /\
  HandleMouseDown 1 1 (mkRef TCheckbox 0) 40 15 checkbox_world
    = Some (false, checkbox_world).
Proof.
  split.
  - apply (Checkbox_HandleMouseDown_toggles 0 1 checkbox_world 0 checkbox_object
             (Checkbox.mk false (Some 3)) (mkRect 10 10 20 20) 15 15).
    + reflexivity.
    + reflexivity.
    + vm_compute. reflexivity.
  - apply (Checkbox_HandleMouseDown_toggles 0 1 checkbox_world 0 checkbox_object
             (Checkbox.mk false (Some 3)) (mkRect 10 10 20 20) 40 15).
    + reflexivity.
    + reflexivity.
    + vm_compute. reflexivity.
Defined.

(** ** C4: dispatch order of a container *)

(** C4.  On a well-formed tree, when the point is inside the container's
    computed bounds, [HandleMouseDown] offers the event to the children from
    the last added to the first added: if the children added after [c]
    decline one after the other and [c] then accepts, the container returns
    true in the very world [c] left, so no child added before [c] is
    called; if every child declines, the container itself handles the
    event. *)
Theorem FlexContainer_HandleMouseDown_order (D : nat) (rk : addr -> nat) (k n : nat)
    (w : World) (f : addr) (o : Object) (bounds : Rect) (x y : Z) :
  wf D rk w -> D <= k -> rk f <= n ->
  heap w !! f = Some o ->
  ComputedBounds k f w = Some (bounds, w) ->
  PointInRect (mkPoint x y) bounds = true ->
  let call := fun e => HandleMouseDown n k e x y in
  (forall pre c post w1 w2,
     BaseElement.children (base o) = pre ++ c :: post ->
     declined call (rev post) w = Some w1 ->
     call c w1 = Some (true, w2) ->
     HandleMouseDown (S n) k (mkRef TFlexContainer f) x y w = Some (true, w2)) /\
  (forall w1,
     declined call (rev (BaseElement.children (base o))) w = Some w1 ->
     HandleMouseDown (S n) k (mkRef TFlexContainer f) x y w = Some (true, w1)).
Proof.
  intros Hwf HDk Hrk Ho Hcb Hin call.
  assert (Hcall : handles D rk n call).
  { apply (HandleMouse_total D rk k MouseDown x y HDk n). }
  assert (Hhead : forall res w',
            dispatchLoop call f (length (BaseElement.children (base o))) w
              = Some (res, w') ->
            HandleMouseDown (S n) k (mkRef TFlexContainer f) x y w = Some (true, w')).
  { intros res w' Hloop.
    assert (Hdisp : dispatchChildren call f w = Some (res, w')).
    { unfold dispatchChildren. by step (Children_run f w o Ho). }
    unfold HandleMouseDown. simpl.
    unfold FlexContainer_HandleMouseDown. step Hcb. rewrite Hin.
    fold call. step Hdisp. by destruct res. }
  split.
  - intros pre c post w1 w2 Hch Hdec Hc. apply (Hhead true).
    apply (dispatchLoop_accepted D rk n call f Hcall Hrk _ w w1 w2 o pre post c);
      [done|done|done| |done|done].
    by rewrite firstn_all.
  - intros w1 Hdec. apply (Hhead false).
    apply (dispatchLoop_declined D rk n call f Hcall Hrk _ w w1 o); [done|done|done|].
    by rewrite firstn_all.
Qed.

Lemma FlexContainer_HandleMouseDown_order_witness :
  HandleMouseDown 2 2 (mkRef TFlexContainer 0) 50 50 stack_world
    = Some (true, stack_world_pressed) /\
  Button_IsPressed 2 stack_world_pressed = Some (true, stack_world_pressed) /\
  Button_IsPressed 1 stack_world_pressed = Some (false, stack_world_pressed).
Proof.
  split; [|split; vm_compute; reflexivity].
  apply (proj1 (FlexContainer_HandleMouseDown_order 2 button_rank 2 1 stack_world 0
                  stack_container (mkRect 0 0 200 100) 50 50
                  (wfb_sound 2 button_rank stack_world eq_refl)
                  (le_n 2) (le_n 1) eq_refl eq_refl eq_refl)
               [mkRef TButton 1] (mkRef TButton 2) [mkRef TCheckbox 3]
               stack_world stack_world_pressed).
  - reflexivity.
  - vm_compute. reflexivity.
  - vm_compute. reflexivity.
Defined.

(** ** C3: press and click on a button *)

(** C3, as amended.  For an enabled button (not disabled) with a registered
    click callback that occupies the screen rectangle (100,100)-(200,150) in
    a well-formed tree: [HandleMouseDown(150,125)] returns true and leaves
    the button pressed; a following [HandleMouseUp(150,125)] returns true,
    calls the click callback exactly once and clears the pressed flag; a
    [HandleMouseUp(10,10)] instead clears the pressed flag without any call
    made by the button. *)
Theorem Button_press_then_release (D : nat) (rk : addr -> nat) (k n : nat) (w : World)
    (b : addr) (o : Object) (bt : Button.t) (cb : Callback) :
  wf D rk w -> D <= k -> rk b <= n ->
  heap w !! b = Some o ->
  widget o = WButton bt ->
  Button.disabled bt = false ->
  Button.onClick bt = Some cb ->
  ComputedBounds k b w = Some (mkRect 100 100 100 50, w) ->
  exists w1,
    HandleMouseDown (S n) k (mkRef TButton b) 150 125 w = Some (true, w1) /\
    Button_IsPressed b w1 = Some (true, w1) /\
    (exists w2,
       HandleMouseUp (S n) k (mkRef TButton b) 150 125 w1 = Some (true, w2) /\
       log w2 = log w1 ++ [Clicked b cb] /\
       Button_IsPressed b w2 = Some (false, w2)) /\
    (exists res w3,
       HandleMouseUp (S n) k (mkRef TButton b) 10 10 w1 = Some (res, w3) /\
       Button_IsPressed b w3 = Some (false, w3) /\
       exists evs, log w3 = log w1 ++ evs /\ Forall (fun e => source e <> b) evs).
Proof.
  intros Hwf HDk Hrk Ho Hw Hen Hclick Hcb.
  pose proof (HandleMouse_total D rk k MouseDown 150 125 HDk n) as Hdown.
  destruct (Button_HandleMouseDown_inside D rk k n _ HDk Hdown b w o bt
              (mkRect 100 100 100 50) Hrk Hwf Ho Hw Hcb 150 125 Hen eq_refl)
    as (w1 & Hrun1 & Hev1 & Ho1).
  set (bt1 := Button.set_pressed true bt) in *.
  set (o1 := with_button (Button.set_pressed true) bt o) in *.
  assert (Hwf1 : wf D rk w1) by (by eapply evolves_wf).
  assert (Hcb1 : ComputedBounds k b w1 = Some (mkRect 100 100 100 50, w1))
    by (by eapply evolves_ComputedBounds).
  assert (Hpressed : forall w' f, heap w' !! b = Some (with_button f bt1 o1) ->
                       Button_IsPressed b w' = Some (Button.pressed (f bt1), w')).
  { intros w' f Hw'. unfold Button_IsPressed.
    by step (get_button_run b w' _ (f bt1) Hw' eq_refl). }
  exists w1. split; [exact Hrun1|]. split.
  { unfold Button_IsPressed. by step (get_button_run b w1 o1 bt1 Ho1 eq_refl). }
  split.
  - pose proof (HandleMouse_total D rk k MouseUp 150 125 HDk n) as Hup.
    eexists. split.
    + unfold HandleMouseUp. simpl.
      apply (Button_HandleMouseUp_click D rk k
               (fun e => HandleMouse n k MouseUp e 150 125) b w1 o1 bt1
               (mkRect 100 100 100 50) Hwf1 Ho1 eq_refl Hcb1 150 125 Hen eq_refl eq_refl).
    + split.
      * simpl. unfold bt1. simpl. by rewrite Hclick.
      * apply (Hpressed _ (Button.set_pressed false)). simpl. apply lookup_insert_eq.
  - pose proof (HandleMouse_total D rk k MouseUp 10 10 HDk n) as Hup.
    destruct (Button_HandleMouseUp_elsewhere D rk k n _ HDk Hup b w1 o1 bt1
                (mkRect 100 100 100 50) Hrk Hwf1 Ho1 eq_refl Hcb1 10 10)
      as (res & w3 & Hrun3 & Ho3 & Hlog3).
    { unfold bt1. simpl. reflexivity. }
    exists res, w3. split; [exact Hrun3|]. split; [|exact Hlog3].
    by apply (Hpressed _ (Button.set_pressed false)).
Qed.

Lemma Button_press_then_release_witness :
  exists w1,
    HandleMouseDown 1 2 (mkRef TButton 1) 150 125 (button_world false) = Some (true, w1) /\
    Button_IsPressed 1 w1 = Some (true, w1) /\
    (exists w2,
       HandleMouseUp 1 2 (mkRef TButton 1) 150 125 w1 = Some (true, w2) /\
       log w2 = log w1 ++ [Clicked 1 7] /\
       Button_IsPressed 1 w2 = Some (false, w2)) /\
    (exists res w3,
       HandleMouseUp 1 2 (mkRef TButton 1) 10 10 w1 = Some (res, w3) /\
       Button_IsPressed 1 w3 = Some (false, w3) /\
       exists evs, log w3 = log w1 ++ evs /\ Forall (fun e => source e <> 1) evs).
Proof.
  apply (Button_press_then_release 2 button_rank 2 0 (button_world false) 1
           (button_object false) (Button.mk (Some 7) false false false) 7).
  - apply wfb_sound. vm_compute. reflexivity.
  - lia.
  - simpl. lia.
  - reflexivity.
  - reflexivity.
  - reflexivity.
  - reflexivity.
  - vm_compute. reflexivity.
Defined.

(** C3 as stated fails for a disabled button: it occupies the same
    rectangle, yet [HandleMouseDown(150,125)] returns false and the pressed
    flag stays clear. *)
Lemma Button_disabled_ignores_press :
  ComputedBounds 2 1 (button_world true)
    = Some (mkRect 100 100 100 50, button_world true) /\
  PointInRect (mkPoint 150 125) (mkRect 100 100 100 50) = true /\
  HandleMouseDown 1 2 (mkRef TButton 1) 150 125 (button_world true)
    = Some (false, button_world true) /\
  Button_IsPressed 1 (button_world true) = Some (false, button_world true).
Proof. repeat split; vm_compute; reflexivity. Qed.

(** ** C6: what [HandleMouseMove] reports *)

(** C6, as amended.  For a button in a well-formed tree,
    [HandleMouseMove(x,y)] sets the hovered flag to whether the point is in
    the button's computed bounds and returns true if the button is hovered
    after the call or was hovered immediately before it: entering, moving
    inside, and the move that leaves all return true.  (The handler that
    elements inherit from [BaseElement] tracks [mouseOver] too but reports
    only whether the pointer is over the element after the call.) *)
Theorem Button_HandleMouseMove_reports_hover (D : nat) (rk : addr -> nat) (k n : nat)
    (w : World) (b : addr) (o : Object) (bt : Button.t) (R : Rect) (x y : Z) :
  wf D rk w -> D <= k -> rk b <= n ->
  heap w !! b = Some o ->
  widget o = WButton bt ->
  ComputedBounds k b w = Some (R, w) ->
  exists res w',
    HandleMouseMove (S n) k (mkRef TButton b) x y w = Some (res, w') /\
    Button_IsHovered b w' = Some (PointInRect (mkPoint x y) R, w') /\
    (Button.hovered bt = true \/ PointInRect (mkPoint x y) R = true -> res = true).
Proof.
  intros Hwf HDk Hrk Ho Hw Hcb.
  pose proof (HandleMouse_total D rk k MouseMove x y HDk n) as Hmove.
  destruct (Button_HandleMouseMove_spec D rk k n _ HDk Hmove b w o bt R
              Hrk Hwf Ho Hw Hcb x y) as (res & w' & Hrun & Ho' & Hres & _).
  exists res, w'. split; [exact Hrun|]. split; [|exact Hres].
  unfold Button_IsHovered. by step (get_button_run b w' _ _ Ho' eq_refl).
Qed.

Lemma Button_HandleMouseMove_reports_hover_witness :
  (exists res w',
     HandleMouseMove 1 2 (mkRef TButton 1) 150 125 (button_world false) = Some (res, w') /\
     Button_IsHovered 1 w' = Some (true, w') /\
     (false = true \/ true = true -> res = true)) /\
  (exists w1 w2 w3 w4,
     HandleMouseMove 1 2 (mkRef TButton 1) 150 125 (button_world false) = Some (true, w1) /\
     Button_IsHovered 1 w1 = Some (true, w1) /\
     HandleMouseMove 1 2 (mkRef TButton 1) 160 130 w1 = Some (true, w2) /\
     Button_IsHovered 1 w2 = Some (true, w2) /\
     HandleMouseMove 1 2 (mkRef TButton 1) 10 10 w2 = Some (true, w3) /\
     Button_IsHovered 1 w3 = Some (false, w3) /\
     HandleMouseMove 1 2 (mkRef TButton 1) 10 10 w3 = Some (false, w4)).
Proof.
  split.
  - apply (Button_HandleMouseMove_reports_hover 2 button_rank 2 0 (button_world false) 1
             (button_object false) (Button.mk (Some 7) false false false)
             (mkRect 100 100 100 50) 150 125).
    + apply wfb_sound. vm_compute. reflexivity.
    + lia.
    + simpl. lia.
    + reflexivity.
    + reflexivity.
    + vm_compute. reflexivity.
  - do 4 eexists.
    split; [vm_compute; reflexivity|]. split; [vm_compute; reflexivity|].
    split; [vm_compute; reflexivity|]. split; [vm_compute; reflexivity|].
    split; [vm_compute; reflexivity|]. split; [vm_compute; reflexivity|].
    vm_compute. reflexivity.
Defined.

(** C6 as stated fails for the handler of [BaseElement], which every plain
    node inherits: after a move inside its bounds has set [mouseOver], the
    move that leaves returns false. *)
Lemma BaseElement_HandleMouseMove_silent_on_leave :
  exists w1 w2,
    HandleMouseMove 1 1 (mkRef TNode 0) 5 5 hover_world = Some (true, w1) /\
    BaseElement.mouseOver ∘ base <$> heap w1 !! 0 = Some true /\
    HandleMouseMove 1 1 (mkRef TNode 0) 50 50 w1 = Some (false, w2) /\
    BaseElement.mouseOver ∘ base <$> heap w2 !! 0 = Some false.
Proof.
  do 2 eexists.
  split; [vm_compute; reflexivity|]. split; [vm_compute; reflexivity|].
  split; [vm_compute; reflexivity|]. vm_compute. reflexivity.
Qed.

(** * Further properties of the modelled code *)

(** ** Geometry *)

Lemma GoInt_wrap_small (z : Z) : (- 2 ^ 63 <= z < 2 ^ 63)%Z -> GoInt.wrap z = z.
Proof. intros Hz. unfold GoInt.wrap. rewrite Z.mod_small; lia. Qed.

Lemma PointInRect_iff (p : Point) (r : Rect) :
  (- 2 ^ 63 <= X r + Width r < 2 ^ 63)%Z ->
  (- 2 ^ 63 <= Y r + Height r < 2 ^ 63)%Z ->
  PointInRect p r = true <->
    (X r <= PX p < X r + Width r)%Z /\ (Y r <= PY p < Y r + Height r)%Z.
Proof.
  intros Hx Hy. unfold PointInRect, GoInt.add.
  rewrite (GoInt_wrap_small _ Hx), (GoInt_wrap_small _ Hy).
  rewrite !andb_true_iff, !Z.leb_le, !Z.ltb_lt. lia.
Qed.

(** X1.  When the right and bottom edges of a rectangle do not overflow,
    [PointInRect] is membership in the half-open box: the left and top edges
    are inside, the right and bottom edges are outside.  A rectangle of zero
    or negative width or height therefore contains no point. *)
Theorem PointInRect_half_open (p : Point) (r : Rect) :
  (- 2 ^ 63 <= X r + Width r < 2 ^ 63)%Z ->
  (- 2 ^ 63 <= Y r + Height r < 2 ^ 63)%Z ->
  (PointInRect p r = true <->
     (X r <= PX p < X r + Width r)%Z /\ (Y r <= PY p < Y r + Height r)%Z) /\
  ((Width r <= 0)%Z \/ (Height r <= 0)%Z -> PointInRect p r = false).
Proof.
  intros Hx Hy.
  pose proof (PointInRect_iff p r Hx Hy) as Hiff.
  split; [exact Hiff|].
  intros Hempty. apply not_true_is_false. intros Hin.
  apply Hiff in Hin. lia.
Qed.

Lemma PointInRect_half_open_witness :
  (PointInRect (mkPoint 100 100) (mkRect 100 100 100 50) = true <->
     (100 <= 100 < 100 + 100)%Z /\ (100 <= 100 < 100 + 50)%Z) /\
  PointInRect (mkPoint 200 100) (mkRect 100 100 100 50) = false.
Proof.
  destruct (PointInRect_half_open (mkPoint 100 100) (mkRect 100 100 100 50))
    as [Hiff _]; [simpl; lia | simpl; lia|].
  split; [exact Hiff|].
  destruct (PointInRect_half_open (mkPoint 200 100) (mkRect 100 100 100 50))
    as [Hiff' _]; [simpl; lia | simpl; lia|].
  apply not_true_is_false. intros Hin.
  apply Hiff' in Hin. simpl in Hin. lia.
Defined.

Lemma resolve_under_base (h : gmap addr Object) (d p : addr) (o po : Object) :
  h !! d = Some o ->
  h !! p = Some po ->
  BaseElement.parent (base o) = Some (mkRef TBaseElement p) ->
  Node.positionType (node o) <> PositionFixed ->
  resolve 1 h d
    = Some (applyMargin (Margin (Node.boxModel (node o)))
              (mkRect (GoInt.add (X (BaseElement.bounds (base po)))
                                 (PX (Node.relativePos (node o))))
                      (GoInt.add (Y (BaseElement.bounds (base po)))
                                 (PY (Node.relativePos (node o))))
                      (Width (BaseElement.bounds (base o)))
                      (Height (BaseElement.bounds (base o))))).
Proof.
  intros Ho Hpo Hpar Hfix. simpl. rewrite Ho. simpl.
  destruct (decide _) as [?|_]; [done|].
  rewrite Hpar. simpl. rewrite Hpo. done.
Qed.

(** X2.  A child attached with [AddChild] gets the parent's [*BaseElement] as
    its parent, which is not a [NodeElement]: unless it is fixed, its computed
    bounds are the parent's *local* origin plus its own relative position and
    margin, with its own width and height.  The parent's padding, margin and
    ancestors play no part, and one call deep is enough. *)
Theorem AddChild_resolves_against_local_bounds (w : World) (p : addr) (c : Ref)
    (op oc : Object) :
  heap w !! p = Some op ->
  heap w !! raddr c = Some oc ->
  Node.positionType (node oc) <> PositionFixed ->
  exists w', BaseElement_AddChild p c w = Some (tt, w') /\
    ComputedBounds 1 (raddr c) w'
      = Some (applyMargin (Margin (Node.boxModel (node oc)))
                (mkRect (GoInt.add (X (BaseElement.bounds (base op)))
                                   (PX (Node.relativePos (node oc))))
                        (GoInt.add (Y (BaseElement.bounds (base op)))
                                   (PY (Node.relativePos (node oc))))
                        (Width (BaseElement.bounds (base oc)))
                        (Height (BaseElement.bounds (base oc)))), w').
Proof.
  intros Hop Hoc Hfix.
  set (op1 := set_base (fun e =>
     BaseElement.set_children (BaseElement.children e ++ [c]) e) op).
  set (w1 := mkWorld (<[p := op1]> (heap w)) (log w)).
  assert (exists oc1, heap w1 !! raddr c = Some oc1 /\ geometry oc1 = geometry oc)
    as (oc1 & Hoc1 & Hg1).
  { destruct (decide (raddr c = p)) as [Heq|Hne].
    - exists op1. split; [rewrite Heq; apply lookup_insert_eq|].
      rewrite Heq, Hop in Hoc. injection Hoc as <-. by destruct op as [[] ? ?].
    - exists oc. split; [|done]. simpl. by rewrite lookup_insert_ne. }
  set (oc2 := set_base (BaseElement.set_parent (Some (mkRef TBaseElement p))) oc1).
  set (w2 := mkWorld (<[raddr c := oc2]> (heap w1)) (log w1)).
  assert (Hoc2 : heap w2 !! raddr c = Some oc2) by apply lookup_insert_eq.
  assert (exists op2, heap w2 !! p = Some op2 /\
            BaseElement.bounds (base op2) = BaseElement.bounds (base op))
    as (op2 & Hop2 & Hb2).
  { destruct (decide (raddr c = p)) as [Heq|Hne].
    - exists oc2. split; [rewrite <- Heq; apply lookup_insert_eq|].
      rewrite Heq in Hoc1. unfold w1 in Hoc1. simpl in Hoc1.
      rewrite lookup_insert_eq in Hoc1. injection Hoc1 as <-.
      by destruct op as [[] ? ?].
    - exists op1. split; [|by destruct op as [[] ? ?]].
      simpl. rewrite lookup_insert_ne by done. apply lookup_insert_eq. }
  exists w2. split.
  - unfold BaseElement_AddChild, SetParent.
    rewrite (bind_run _ _ w w1 tt); [|by apply modify_obj_run].
    by rewrite (modify_obj_run (raddr c) _ w1 oc1).
  - apply ComputedBounds_Some.
    assert (Hp2 : BaseElement.parent (base oc2) = Some (mkRef TBaseElement p))
      by (unfold oc2; by destruct oc1 as [[] ? ?]).
    injection Hg1 as Hgb _ Hgn.
    assert (Hn2 : node oc2 = node oc) by (rewrite <- Hgn; by destruct oc1).
    assert (Hbb : BaseElement.bounds (base oc2) = BaseElement.bounds (base oc)).
    { rewrite <- Hgb. unfold oc2. by destruct oc1 as [[] ? ?]. }
    rewrite (resolve_under_base (heap w2) (raddr c) p oc2 op2 Hoc2 Hop2 Hp2);
      [|by rewrite Hn2].
    by rewrite Hn2, Hbb, Hb2.
Qed.

Lemma AddChild_resolves_against_local_bounds_witness :
  exists w', BaseElement_AddChild 0 (mkRef TNode 1) geometry_world = Some (tt, w') /\
    ComputedBounds 1 1 w' = Some (mkRect 55 65 30 40, w').
Proof.
  destruct (AddChild_resolves_against_local_bounds geometry_world 0 (mkRef TNode 1)
              geometry_panel geometry_item) as (w' & Hrun & Hcb).
  - reflexivity.
  - reflexivity.
  - discriminate.
  - exists w'. split; [exact Hrun|]. etransitivity; [exact Hcb|]. reflexivity.
Defined.

Lemma resolve_parented (k : nat) (h : gmap addr Object) (d : addr) (o : Object)
    (p : Ref) :
  h !! d = Some o ->
  BaseElement.parent (base o) = Some p ->
  Node.positionType (node o) <> PositionFixed ->
  resolve (S k) h d =
    (if isNodeElement (rtype p) then
       pb ← resolve k h (raddr p);
       po ← h !! raddr p;
       Some (contentBox pb (Padding (Node.boxModel (node po))))
     else po ← h !! raddr p; Some (BaseElement.bounds (base po))) ≫= fun parentBounds =>
    Some (applyMargin (Margin (Node.boxModel (node o)))
            (mkRect (GoInt.add (X parentBounds) (PX (Node.relativePos (node o))))
                    (GoInt.add (Y parentBounds) (PY (Node.relativePos (node o))))
                    (Width (BaseElement.bounds (base o)))
                    (Height (BaseElement.bounds (base o))))).
Proof.
  intros Ho Hp Hfix. simpl. rewrite Ho. simpl.
  destruct (decide _) as [?|_]; [done|].
  rewrite Hp. simpl.
  destruct (isNodeElement (rtype p)); simpl.
  - destruct (resolve k h (raddr p)); simpl; [|done]. by destruct (h !! raddr p).
  - by destruct (h !! raddr p).
Qed.

(** X3.  On a well-formed tree, [SetBounds] on an element that has a parent
    and is not fixed cannot move it: its computed bounds keep their origin,
    which comes from the parent and the relative position, and take the new
    width and height. *)
Theorem SetBounds_resizes_only (D : nat) (rk : addr -> nat) (w : World) (k : nat)
    (d : addr) (o : Object) (p : Ref) (r0 r : Rect) :
  wf D rk w ->
  heap w !! d = Some o ->
  BaseElement.parent (base o) = Some p ->
  Node.positionType (node o) <> PositionFixed ->
  ComputedBounds k d w = Some (r0, w) ->
  exists w', SetBounds d r w = Some (tt, w') /\
    ComputedBounds k d w' = Some (mkRect (X r0) (Y r0) (Width r) (Height r), w').
Proof.
  intros Hwf Ho Hp Hfix Hcb.
  set (w' := mkWorld (<[d := with_bounds r o]> (heap w)) (log w)).
  exists w'. split; [by apply modify_obj_run|].
  apply ComputedBounds_Some. apply ComputedBounds_Some in Hcb.
  destruct (Hwf d o Ho) as (_ & _ & Hpar).
  destruct (Hpar p Hp) as [[po Hpo] Hrk].
  assert (Hne : raddr p <> d) by (intros Heq; rewrite Heq in Hrk; lia).
  destruct k as [|k]; [discriminate|].
  rewrite (resolve_parented _ _ _ _ _ Ho Hp Hfix) in Hcb.
  assert (Hpp : BaseElement.parent (base (with_bounds r o)) = Some p)
    by (rewrite <- Hp; by destruct o as [[] ? ?]).
  assert (Hbb : BaseElement.bounds (base (with_bounds r o)) = r)
    by (by destruct o as [[] ? ?]).
  change (heap w') with (<[d := with_bounds r o]> (heap w)).
  rewrite (resolve_parented k (<[d := with_bounds r o]> (heap w)) d
             (with_bounds r o) p); [|apply lookup_insert_eq|done|done].
  change (node (with_bounds r o)) with (node o). rewrite Hbb.
  rewrite lookup_insert_ne by done.
  assert (Hup : resolve k (<[d := with_bounds r o]> (heap w)) (raddr p)
                = resolve k (heap w) (raddr p)).
  { apply (resolve_above D rk w); [done|].
    intros a Ha. rewrite lookup_insert_ne; [done|].
    intros <-. lia. }
  rewrite Hup.
  match type of Hcb with (?m ≫= _) = _ => destruct m as [pb|] end;
    [|discriminate].
  simpl in *. injection Hcb as <-. done.
Qed.

Lemma SetBounds_resizes_only_witness :
  exists w', SetBounds 1 (mkRect 500 600 11 12) geometry_world = Some (tt, w') /\
    ComputedBounds 2 1 w' = Some (mkRect 60 72 11 12, w').
Proof.
  apply (SetBounds_resizes_only 2 geometry_rank geometry_world 2 1 geometry_item
           (mkRef TNode 0) (mkRect 60 72 30 40) (mkRect 500 600 11 12)).
  - apply wfb_sound. vm_compute. reflexivity.
  - reflexivity.
  - reflexivity.
  - discriminate.
  - vm_compute. reflexivity.
Defined.

(** ** Element tree *)

Lemma remove_first_absent (c : Ref) (cs : list Ref) :
  c ∉ cs -> remove_first c cs = cs.
Proof.
  induction cs as [|x cs IH]; intros Hc; simpl; [done|].
  apply not_elem_of_cons in Hc as [Hne Hc].
  rewrite decide_False by congruence. by rewrite IH.
Qed.

(** X4.  [RemoveChild] of an element that is not among the children changes
    nothing at all. *)
Theorem BaseElement_RemoveChild_absent (w : World) (b : addr) (c : Ref) (o : Object) :
  heap w !! b = Some o ->
  c ∉ BaseElement.children (base o) ->
  BaseElement_RemoveChild b c w = Some (tt, w).
Proof.
  intros Ho Hc. unfold BaseElement_RemoveChild, modify_obj. rewrite Ho.
  assert (Hid : set_base (fun e => BaseElement.set_children
                    (remove_first c (BaseElement.children e)) e) o = o).
  { destruct o as [[] ? ?]. simpl in Hc. unfold set_base, BaseElement.set_children.
    simpl. by rewrite (remove_first_absent _ _ Hc). }
  rewrite Hid, insert_id by done. by destruct w.
Qed.

Lemma BaseElement_RemoveChild_absent_witness :
  BaseElement_RemoveChild 0 (mkRef TNode 7) family_world = Some (tt, family_world).
Proof.
  apply (BaseElement_RemoveChild_absent family_world 0 (mkRef TNode 7)
           (default geometry_panel (heap family_world !! 0))).
  - reflexivity.
  - vm_compute. intros H. repeat (apply elem_of_cons in H as [H|H]; [discriminate|]).
    by apply elem_of_nil in H.
Defined.

Lemma Parent_lookup (a : addr) (w : World) :
  Parent a w = (fun o => (BaseElement.parent (base o), w)) <$> heap w !! a.
Proof.
  unfold Parent, mbind, M_bind, get_obj. by destruct (heap w !! a).
Qed.

Lemma geometry_set_children (f : BaseElement.t -> list Ref) (o : Object) :
  geometry (set_base (fun e => BaseElement.set_children (f e) e) o) = geometry o.
Proof. by destruct o as [[] ? ?]. Qed.

Lemma children_geometry (b : addr) (f : BaseElement.t -> list Ref) (w : World)
    (o : Object) :
  heap w !! b = Some o ->
  let w' := mkWorld (<[b := set_base (fun e => BaseElement.set_children (f e) e) o]>
                       (heap w)) (log w) in
  (forall a, (fst <$> Parent a w') = (fst <$> Parent a w)) /\
  (forall k a, (fst <$> ComputedBounds k a w') = (fst <$> ComputedBounds k a w)).
Proof.
  intros Ho w'.
  assert (Hg : forall a, geometry <$> heap w' !! a = geometry <$> heap w !! a).
  { intros a. simpl. destruct (decide (a = b)) as [->|Hne].
    - rewrite lookup_insert_eq, Ho. simpl. by rewrite geometry_set_children.
    - by rewrite lookup_insert_ne. }
  split.
  - intros a. rewrite !Parent_lookup. specialize (Hg a).
    destruct (heap w' !! a) as [o1|], (heap w !! a) as [o2|]; simpl in *;
      try discriminate; [|done].
    injection Hg as _ Hp _. by rewrite Hp.
  - intros k a. rewrite !ComputedBounds_resolve.
    rewrite (resolve_ext (fun _ => True) (heap w) (heap w')); [|by auto|done|done].
    by destruct (resolve k (heap w) a).
Qed.

(** X5.  [RemoveChild] and [RemoveAllChildren] edit the parent's child list
    and nothing else: every element, the removed ones included, still reports
    the same parent and the same computed bounds afterwards. *)
Theorem RemoveChild_does_not_detach (w : World) (b : addr) (c : Ref) (o : Object) :
  heap w !! b = Some o ->
  (exists w', BaseElement_RemoveChild b c w = Some (tt, w') /\
     Children b w' = Some (remove_first c (BaseElement.children (base o)), w') /\
     (forall a, (fst <$> Parent a w') = (fst <$> Parent a w)) /\
     (forall k a, (fst <$> ComputedBounds k a w') = (fst <$> ComputedBounds k a w))) /\
  (exists w', BaseElement_RemoveAllChildren b w = Some (tt, w') /\
     Children b w' = Some ([], w') /\
     (forall a, (fst <$> Parent a w') = (fst <$> Parent a w)) /\
     (forall k a, (fst <$> ComputedBounds k a w') = (fst <$> ComputedBounds k a w))).
Proof.
  intros Ho. split.
  - eexists. split; [by apply modify_obj_run|]. split.
    + erewrite Children_run by apply lookup_insert_eq.
      by destruct o as [[] ? ?].
    + apply (children_geometry b
               (fun e => remove_first c (BaseElement.children e)) w o Ho).
  - eexists. split; [by apply modify_obj_run|]. split.
    + erewrite Children_run by apply lookup_insert_eq.
      by destruct o as [[] ? ?].
    + apply (children_geometry b (fun _ => []) w o Ho).
Qed.

Lemma RemoveChild_does_not_detach_witness :
  exists w', BaseElement_RemoveChild 0 (mkRef TNode 1) geometry_world = Some (tt, w') /\
    Children 0 w' = Some ([], w') /\
    (fst <$> Parent 1 w') = Some (Some (mkRef TNode 0)).
Proof.
  destruct (RemoveChild_does_not_detach geometry_world 0 (mkRef TNode 1) geometry_panel)
    as [(w' & Hrun & Hch & Hpar & _) _]; [reflexivity|].
  exists w'. split; [exact Hrun|]. split; [exact Hch|].
  rewrite Hpar. reflexivity.
Defined.

(** ** Flex layout *)

(** X6.  One layout pass over a column container puts each child at a cursor
    that starts at the content box's y and advances, after each child in
    insertion order, by that child's height plus the spacing, and leaves each
    child's height as it was. *)
Theorem updateLayout_column_cursor (k : nat) (w : World) (f : addr) (o : Object)
    (ff : FlexContainer.t) (bounds : Rect) :
  heap w !! f = Some o ->
  widget o = WFlexContainer ff ->
  FlexContainer.flexDirection ff = FlexColumn ->
  ComputedBounds k f w = Some (bounds, w) ->
  (forall c, c ∈ BaseElement.children (base o) -> is_Some (heap w !! raddr c)) ->
  exists w', updateLayout k f w = Some (tt, w') /\
    forall i c, lastSlot (BaseElement.children (base o)) i c ->
      Y (boundsIn w' c)
        = cursorAfter (fun b => GoInt.add (Height b) (FlexContainer.spacing ff))
            (Y (layoutContent bounds (Node.boxModel (node o))))
            (boundsIn w <$> take i (BaseElement.children (base o))) /\
      Height (boundsIn w' c) = Height (boundsIn w c).
Proof.
  intros Ho Hw Hdir Hcb Hpres.
  destruct (updateLayout_spec k w f o ff bounds Ho Hw Hcb Hpres)
    as (w' & Hrun & _ & _ & _ & _ & Hlast).
  exists w'. split; [done|]. intros i c Hslot.
  rewrite (Hlast i c Hslot).
  rewrite prescribedBounds_column by done.
  destruct (alignCross _ _ _ _) as [x wd]. simpl. split; [|done].
  unfold prescribedStart. rewrite Hdir.
  apply cursorAfter_advance_ext. intros b. by apply prescribedAdvance_column.
Qed.

Lemma updateLayout_column_cursor_witness :
  exists w', updateLayout 1 0 column_world = Some (tt, w') /\
    Y (boundsIn w' (mkRef TNode 1)) = 24%Z /\
    Y (boundsIn w' (mkRef TNode 2)) = 59%Z /\
    Height (boundsIn w' (mkRef TNode 2)) = 40%Z.
Proof.
  destruct (updateLayout_column_cursor 1 column_world 0 column_container
              (FlexContainer.mk FlexColumn AlignCenter AlignStart 5)
              (mkRect 10 20 200 300)) as (w' & Hrun & Hall).
  - reflexivity.
  - reflexivity.
  - reflexivity.
  - vm_compute. reflexivity.
  - intros c Hc. apply elem_of_cons in Hc as [->|Hc]; [by eexists|].
    apply elem_of_cons in Hc as [->|Hc]; [by eexists|].
    by apply elem_of_nil in Hc.
  - exists w'. split; [exact Hrun|].
    destruct (Hall 0 (mkRef TNode 1)) as [Hy1 _].
    { split; [reflexivity|]. simpl. intros H.
      apply elem_of_cons in H as [H|H]; [discriminate|].
      by apply elem_of_nil in H. }
    destruct (Hall 1 (mkRef TNode 2)) as [Hy2 Hh2].
    { split; [reflexivity|]. simpl. apply not_elem_of_nil. }
    rewrite Hy1, Hy2, Hh2. repeat split; vm_compute; reflexivity.
Defined.

Lemma alignCross_aligned (al : Alignment) (origin size old : Z) :
  small origin -> small size -> small old ->
  aligned al origin size old (alignCross al origin size old).1
          (alignCross al origin size old).2.
Proof.
  unfold small. intros Ho Hs Hc.
  destruct al; simpl; unfold GoInt.add, GoInt.sub, GoInt.quot.
  - done.
  - split; [done|].
    rewrite (GoInt_wrap_small (size - old)) by lia.
    assert (Hq : (- 2 ^ 62 <= (size - old) ÷ 2 <= 2 ^ 62)%Z).
    { pose proof (Z.quot_rem' (size - old) 2).
      pose proof (Z.rem_bound_abs (size - old) 2). lia. }
    rewrite (GoInt_wrap_small ((size - old) ÷ 2)) by lia.
    rewrite GoInt_wrap_small by lia.
    pose proof (Z.quot_rem' (size - old) 2).
    pose proof (Z.rem_bound_abs (size - old) 2). lia.
  - split; [done|].
    rewrite (GoInt_wrap_small (origin + size)) by lia.
    rewrite GoInt_wrap_small by lia. lia.
  - done.
Qed.

(** X7.  Where one layout pass puts each child on the cross axis (y and
    height in a row, x and width in a column), for coordinates that do not
    overflow: start keeps the size and sits at the content origin; end keeps
    the size and ends flush with the content box; stretch takes the content
    box's origin and size; center keeps the size and leaves free space on the
    two sides that differs by at most one. *)
Theorem updateLayout_cross_axis (k : nat) (w : World) (f : addr) (o : Object)
    (ff : FlexContainer.t) (bounds : Rect) :
  heap w !! f = Some o ->
  widget o = WFlexContainer ff ->
  ComputedBounds k f w = Some (bounds, w) ->
  (forall c, c ∈ BaseElement.children (base o) -> is_Some (heap w !! raddr c)) ->
  smallRect (layoutContent bounds (Node.boxModel (node o))) ->
  (forall c, c ∈ BaseElement.children (base o) -> smallRect (boundsIn w c)) ->
  exists w', updateLayout k f w = Some (tt, w') /\
    forall i c, lastSlot (BaseElement.children (base o)) i c ->
      let content := layoutContent bounds (Node.boxModel (node o)) in
      match FlexContainer.flexDirection ff with
      | FlexRow =>
        aligned (FlexContainer.alignItems ff) (Y content) (Height content)
                (Height (boundsIn w c)) (Y (boundsIn w' c)) (Height (boundsIn w' c))
      | FlexColumn =>
        aligned (FlexContainer.alignItems ff) (X content) (Width content)
                (Width (boundsIn w c)) (X (boundsIn w' c)) (Width (boundsIn w' c))
      end.
Proof.
  intros Ho Hw Hcb Hpres (HcX & HcY & HcW & HcH) Hsmall.
  destruct (updateLayout_spec k w f o ff bounds Ho Hw Hcb Hpres)
    as (w' & Hrun & _ & _ & _ & _ & Hlast).
  exists w'. split; [done|]. intros i c Hslot content.
  rewrite (Hlast i c Hslot).
  destruct (Hsmall c) as (_ & _ & HW & HH).
  { destruct Hslot as [Hi _]. by eapply list_elem_of_lookup_2. }
  destruct (FlexContainer.flexDirection ff) eqn:Hdir.
  - rewrite prescribedBounds_row by done.
    pose proof (alignCross_aligned (FlexContainer.alignItems ff) (Y content)
                  (Height content) (Height (boundsIn w c)) HcY HcH HH) as Hal.
    fold content. by destruct (alignCross _ _ _ _).
  - rewrite prescribedBounds_column by done.
    pose proof (alignCross_aligned (FlexContainer.alignItems ff) (X content)
                  (Width content) (Width (boundsIn w c)) HcX HcW HW) as Hal.
    fold content. by destruct (alignCross _ _ _ _).
Qed.

Lemma updateLayout_cross_axis_witness :
  exists w', updateLayout 1 0 column_world = Some (tt, w') /\
    aligned AlignCenter 12 192 51 (X (boundsIn w' (mkRef TNode 2)))
            (Width (boundsIn w' (mkRef TNode 2))).
Proof.
  destruct (updateLayout_cross_axis 1 column_world 0 column_container
              (FlexContainer.mk FlexColumn AlignCenter AlignStart 5)
              (mkRect 10 20 200 300)) as (w' & Hrun & Hall).
  - reflexivity.
  - reflexivity.
  - vm_compute. reflexivity.
  - intros c Hc. apply elem_of_cons in Hc as [->|Hc]; [by eexists|].
    apply elem_of_cons in Hc as [->|Hc]; [by eexists|].
    by apply elem_of_nil in Hc.
  - vm_compute. repeat split; first [reflexivity | intros H; discriminate H].
  - intros c Hc.
    apply elem_of_cons in Hc as [->|Hc];
      [vm_compute; repeat split; first [reflexivity | intros H; discriminate H]|].
    apply elem_of_cons in Hc as [->|Hc];
      [vm_compute; repeat split; first [reflexivity | intros H; discriminate H]|].
    by apply elem_of_nil in Hc.
  - exists w'. split; [exact Hrun|].
    apply (Hall 1 (mkRef TNode 2)).
    split; [reflexivity|]. simpl. apply not_elem_of_nil.
Defined.

Lemma lastSlot_exists (cs : list Ref) (a : addr) :
  a ∈ map raddr cs -> exists i c, lastSlot cs i c /\ raddr c = a.
Proof.
  induction cs as [|x rest IH]; simpl; intros Ha; [by apply elem_of_nil in Ha|].
  destruct (decide (a ∈ map raddr rest)) as [Hin|Hout].
  - destruct (IH Hin) as (i & c & [Hi Hlast] & Hc).
    exists (S i), c. by repeat split.
  - apply elem_of_cons in Ha as [->|Ha]; [|done].
    exists 0, x. repeat split. simpl. by rewrite drop_0.
Qed.

Lemma bounds_with_bounds (r : Rect) (o : Object) :
  BaseElement.bounds (base (with_bounds r o)) = r.
Proof. by destruct o as [[] ? ?]. Qed.

Lemma boundsIn_raddr (w : World) (c c' : Ref) :
  raddr c' = raddr c -> boundsIn w c' = boundsIn w c.
Proof. unfold boundsIn. by intros ->. Qed.

(** X8.  A layout pass writes bounds of the container's children and nothing
    else: no callback runs, objects that are not children are untouched,
    every object keeps everything but its bounds, and every child keeps its
    size along the main axis (width in a row, height in a column). *)
Theorem updateLayout_writes_bounds_only (k : nat) (w : World) (f : addr) (o : Object)
    (ff : FlexContainer.t) (bounds : Rect) :
  heap w !! f = Some o ->
  widget o = WFlexContainer ff ->
  ComputedBounds k f w = Some (bounds, w) ->
  (forall c, c ∈ BaseElement.children (base o) -> is_Some (heap w !! raddr c)) ->
  exists w', updateLayout k f w = Some (tt, w') /\
    log w' = log w /\
    (forall a, a ∉ map raddr (BaseElement.children (base o)) ->
       heap w' !! a = heap w !! a) /\
    (forall a oa, heap w !! a = Some oa ->
       exists r, heap w' !! a = Some (with_bounds r oa)) /\
    (forall c, c ∈ BaseElement.children (base o) ->
       match FlexContainer.flexDirection ff with
       | FlexRow => Width (boundsIn w' c) = Width (boundsIn w c)
       | FlexColumn => Height (boundsIn w' c) = Height (boundsIn w c)
       end).
Proof.
  intros Ho Hw Hcb Hpres.
  destruct (updateLayout_spec k w f o ff bounds Ho Hw Hcb Hpres)
    as (w' & Hrun & Hlog & Hframe & _ & Hshape & Hlast).
  exists w'. split; [done|]. split; [done|]. split; [done|]. split.
  - intros a oa Hoa. destruct (Hshape a oa Hoa) as (r & Hr & _). by exists r.
  - intros c Hc.
    destruct (lastSlot_exists (BaseElement.children (base o)) (raddr c))
      as (i & c' & Hslot & Heq).
    { apply list_elem_of_fmap. by exists c. }
    rewrite <- (boundsIn_raddr w' c c' Heq), <- (boundsIn_raddr w c c' Heq).
    rewrite (Hlast i c' Hslot).
    destruct (FlexContainer.flexDirection ff) eqn:Hdir.
    + rewrite prescribedBounds_row by done. by destruct (alignCross _ _ _ _).
    + rewrite prescribedBounds_column by done. by destruct (alignCross _ _ _ _).
Qed.

Lemma updateLayout_writes_bounds_only_witness :
  exists w', updateLayout 1 0 row_world = Some (tt, w') /\
    log w' = [] /\
    heap w' !! 3 = heap row_world !! 3 /\
    Width (boundsIn w' (mkRef TNode 2)) = 120%Z.
Proof.
  destruct (updateLayout_writes_bounds_only 1 row_world 0 row_container
              (FlexContainer.mk FlexRow AlignStart AlignStart 10)
              (mkRect 0 0 400 100)) as (w' & Hrun & Hlog & Hframe & _ & Hsize).
  - reflexivity.
  - reflexivity.
  - vm_compute. reflexivity.
  - intros c Hc. apply elem_of_cons in Hc as [->|Hc]; [by eexists|].
    apply elem_of_cons in Hc as [->|Hc]; [by eexists|].
    by apply elem_of_nil in Hc.
  - exists w'. split; [exact Hrun|]. split; [exact Hlog|]. split.
    + apply Hframe. simpl. intros H.
      apply elem_of_cons in H as [H|H]; [discriminate|].
      apply elem_of_cons in H as [H|H]; [discriminate|].
      by apply elem_of_nil in H.
    + etransitivity; [apply (Hsize (mkRef TNode 2))|reflexivity].
      right. left.
Defined.

(** X9.  On a well-formed tree a second layout pass changes nothing: the
    pass succeeds, and running it again on its result gives that result
    back. *)
Theorem updateLayout_idempotent (D : nat) (rk : addr -> nat) (w : World) (k : nat)
    (f : addr) (o : Object) (ff : FlexContainer.t) :
  wf D rk w -> D <= k ->
  heap w !! f = Some o ->
  widget o = WFlexContainer ff ->
  exists w', updateLayout k f w = Some (tt, w') /\
             updateLayout k f w' = Some (tt, w').
Proof.
  intros Hwf Hk Ho Hw.
  destruct (ComputedBounds_total D rk w k f o Hwf Hk Ho) as [bounds Hcb].
  destruct (Hwf f o Ho) as (_ & Hch & _).
  set (cs := BaseElement.children (base o)) in *.
  assert (Hpres : forall c, c ∈ cs -> is_Some (heap w !! raddr c)).
  { intros c Hc. destruct (Hch c Hc) as [(oc & Hoc & _) _]. by eexists. }
  assert (Hrank : forall a, rk f <= rk a -> a ∉ map raddr cs).
  { intros a Ha Hin. apply list_elem_of_fmap in Hin as (c & -> & Hc).
    destruct (Hch c Hc) as [_ Hlt]. lia. }
  destruct (updateLayout_spec k w f o ff bounds Ho Hw Hcb Hpres)
    as (w' & Hrun & Hlog & Hframe & Hnone & Hshape & Hlast).
  fold cs in Hframe, Hlast.
  exists w'. split; [done|].
  assert (Ho' : heap w' !! f = Some o).
  { rewrite Hframe; [done|]. by apply Hrank. }
  assert (Hcb' : ComputedBounds k f w' = Some (bounds, w')).
  { apply ComputedBounds_Some. apply ComputedBounds_Some in Hcb.
    rewrite <- Hcb. apply (resolve_above D rk w); [done|].
    intros a Ha. by rewrite Hframe by by apply Hrank. }
  assert (Hpres' : forall c, c ∈ cs -> is_Some (heap w' !! raddr c)).
  { intros c Hc. destruct (Hpres c Hc) as [oc Hoc].
    destruct (Hshape _ _ Hoc) as (r & Hr & _). by eexists. }
  destruct (updateLayout_spec k w' f o ff bounds Ho' Hw Hcb' Hpres')
    as (w'' & Hrun2 & Hlog2 & Hframe2 & _ & Hshape2 & Hlast2).
  fold cs in Hframe2, Hlast2.
  rewrite Hrun2. do 2 f_equal.
  assert (Hadv : forall x, prescribedAdvance ff (boundsIn w' x)
                           = prescribedAdvance ff (boundsIn w x)).
  { intros x. unfold boundsIn.
    destruct (heap w !! raddr x) as [ox|] eqn:Hox.
    - destruct (Hshape _ _ Hox) as (r & -> & [Hr _]).
      by rewrite bounds_with_bounds.
    - by rewrite (Hnone _ Hox). }
  destruct w'' as [h'' l''], w' as [h' l']. simpl in *. f_equal; [|done].
  apply map_eq. intros a.
  destruct (decide (a ∈ map raddr cs)) as [Hin|Hout]; [|by apply Hframe2].
  destruct (lastSlot_exists cs a Hin) as (i & c & Hslot & Hc).
  destruct (Hpres' c) as [o' Ho'c].
  { destruct Hslot as [Hi _]. by eapply list_elem_of_lookup_2. }
  rewrite Hc in Ho'c.
  destruct (Hshape2 _ _ Ho'c) as (r2 & Hr2 & _).
  rewrite Hr2, Ho'c. f_equal.
  assert (Hb2 : r2 = BaseElement.bounds (base o')); [|by rewrite Hb2, with_bounds_same].
  pose proof (Hlast2 i c Hslot) as H2. pose proof (Hlast i c Hslot) as H1.
  rewrite (cursorAfter_ext (prescribedAdvance ff) _ _ (take i cs) Hadv) in H2.
  rewrite H1, prescribedBounds_placed, <- H1 in H2.
  unfold boundsIn in H2. simpl in H2. rewrite Hc, Hr2, Ho'c in H2.
  by rewrite bounds_with_bounds in H2.
Qed.

Lemma updateLayout_idempotent_witness :
  exists w', updateLayout 2 0 row_world = Some (tt, w') /\
             updateLayout 2 0 w' = Some (tt, w').
Proof.
  apply (updateLayout_idempotent 2 row_rank row_world 2 0 row_container
           (FlexContainer.mk FlexRow AlignStart AlignStart 10)).
  - apply wfb_sound. vm_compute. reflexivity.
  - lia.
  - reflexivity.
  - reflexivity.
Defined.

(** ** Events *)

Lemma Children_lookup (a : addr) (w : World) :
  Children a w = (fun o => (BaseElement.children (base o), w)) <$> heap w !! a.
Proof.
  unfold Children, mbind, M_bind, get_obj. by destruct (heap w !! a).
Qed.

(** X10.  On a well-formed tree the handlers run every mouse event sent to
    an element of the tree to the end and return a result.  When no callback
    is called during the event, the tree it leaves is well formed, every
    element has the same children, the same parent and the same computed
    bounds as before, and no object ranked above the target (its ancestors
    among them) has changed. *)
Theorem HandleMouse_preserves_tree (D : nat) (rk : addr -> nat) (k n : nat)
    (ev : MouseEvent) (e : Ref) (x y : Z) (w : World) :
  wf D rk w -> D <= k -> ref_ok w e -> rk (raddr e) < n ->
  exists res w', HandleMouse n k ev e x y w = Some (res, w') /\
    (log w' = log w ->
     wf D rk w' /\
     (forall a, (fst <$> Children a w') = (fst <$> Children a w) /\
                (fst <$> Parent a w') = (fst <$> Parent a w)) /\
     (forall j a, (fst <$> ComputedBounds j a w') = (fst <$> ComputedBounds j a w)) /\
     (forall a, rk (raddr e) < rk a -> heap w' !! a = heap w !! a)).
Proof.
  intros Hwf HDk Hok Hrk.
  destruct (HandleMouse_total D rk k ev x y HDk n e w Hwf Hok Hrk)
    as (res & w' & Hrun & Hev).
  exists res, w'. split; [done|]. intros _. split; [by eapply evolves_wf|].
  destruct Hev as (Hs & Hf & _). split; [|split].
  - intros a. rewrite !Children_lookup, !Parent_lookup. specialize (Hs a).
    destruct (heap w' !! a) as [o'|], (heap w !! a) as [o|]; simpl in *;
      try discriminate; [|done].
    destruct (erase_base o o') as (_ & Hp & Hc); [congruence|].
    by rewrite Hp, Hc.
  - intros j a. rewrite !ComputedBounds_resolve.
    rewrite (resolve_same_structure w w' j a Hs).
    by destruct (resolve j (heap w) a).
  - intros a Ha. apply Hf. lia.
Qed.

Lemma HandleMouse_preserves_tree_witness :
  exists res w', HandleMouse 2 2 MouseDown (mkRef TFlexContainer 0) 50 50 stack_world
                   = Some (res, w') /\
    log w' = log stack_world /\
    Button_IsPressed 2 w' = Some (true, w') /\
    wf 2 button_rank w' /\
    (forall a, (fst <$> Children a w') = (fst <$> Children a stack_world) /\
               (fst <$> Parent a w') = (fst <$> Parent a stack_world)) /\
    (forall j a, (fst <$> ComputedBounds j a w')
                 = (fst <$> ComputedBounds j a stack_world)) /\
    (forall a, button_rank 0 < button_rank a -> heap w' !! a = heap stack_world !! a).
Proof.
  destruct (HandleMouse_preserves_tree 2 button_rank 2 2 MouseDown
              (mkRef TFlexContainer 0) 50 50 stack_world)
    as (res & w' & Hrun & Hkeep).
  - apply wfb_sound. vm_compute. reflexivity.
  - lia.
  - apply ref_okb_sound. vm_compute. reflexivity.
  - simpl. lia.
  - assert (Hw : w' = worldAfter (HandleMouse 2 2 MouseDown (mkRef TFlexContainer 0)
                                     50 50 stack_world))
      by (by rewrite Hrun).
    assert (Hlog : log w' = log stack_world)
      by (rewrite Hw; vm_compute; reflexivity).
    exists res, w'. split; [exact Hrun|]. split; [exact Hlog|]. split.
    + rewrite Hw. vm_compute. reflexivity.
    + exact (Hkeep Hlog).
Defined.

(** X11.  [FlexContainer.HandleMouseUp] and [HandleMouseMove], and
    [HandleMouseDown] and [HandleMouseMove] of [Text] and [Label], never look
    at their own bounds: wherever the point is, they offer the event to the
    children from the last added to the first added, return true in the world
    left by the first child that accepts, and return false when every child
    declines. *)
Theorem forwarding_handlers_order (D : nat) (rk : addr -> nat) (k n : nat)
    (w : World) (t : DynType) (f : addr) (o : Object) (ev : MouseEvent) (x y : Z) :
  wf D rk w -> D <= k -> rk f <= n ->
  heap w !! f = Some o ->
  forwards t ev = true ->
  let call := fun e => HandleMouse n k ev e x y in
  (forall pre c post w1 w2,
     BaseElement.children (base o) = pre ++ c :: post ->
     declined call (rev post) w = Some w1 ->
     call c w1 = Some (true, w2) ->
     HandleMouse (S n) k ev (mkRef t f) x y w = Some (true, w2)) /\
  (forall w1,
     declined call (rev (BaseElement.children (base o))) w = Some w1 ->
     HandleMouse (S n) k ev (mkRef t f) x y w = Some (false, w1)).
Proof.
  intros Hwf HDk Hrk Ho Hfw call.
  assert (Hcall : handles D rk n call).
  { apply (HandleMouse_total D rk k ev x y HDk n). }
  assert (Hhead : HandleMouse (S n) k ev (mkRef t f) x y w
                  = dispatchLoop call f (length (BaseElement.children (base o))) w).
  { transitivity (dispatchChildren call f w).
    - by destruct t, ev.
    - unfold dispatchChildren. by step (Children_run f w o Ho). }
  rewrite Hhead. split.
  - intros pre c post w1 w2 Hch Hdec Hc.
    apply (dispatchLoop_accepted D rk n call f Hcall Hrk _ w w1 w2 o pre post c);
      [done|done|done| |done|done].
    by rewrite firstn_all.
  - intros w1 Hdec.
    apply (dispatchLoop_declined D rk n call f Hcall Hrk _ w w1 o); [done|done|done|].
    by rewrite firstn_all.
Qed.

Lemma forwarding_handlers_order_witness :
  HandleMouse 2 2 MouseMove (mkRef TFlexContainer 0) 500 500 stack_world
    = Some (false, stack_world).
Proof.
  apply (proj2 (forwarding_handlers_order 2 button_rank 2 1 stack_world TFlexContainer 0
                  stack_container MouseMove 500 500
                  (wfb_sound 2 button_rank stack_world eq_refl)
                  (le_n 2) (le_n 1) eq_refl eq_refl)).
  vm_compute. reflexivity.
Defined.

(** X12.  What [HandleMouseDown] answers on a well-formed tree, whatever the
    children do.  A flex container answers whether the point is inside its
    *computed* bounds; a plain element or node answers whether the point is
    inside its *local* bounds, and is marked pressed when it is.  In both
    cases a point outside leaves the world as it was, so no child is
    offered the event. *)
Theorem HandleMouseDown_hit_test (D : nat) (rk : addr -> nat) (k n : nat)
    (w : World) (a : addr) (o : Object) (x y : Z) :
  wf D rk w -> D <= k -> rk a <= n ->
  heap w !! a = Some o ->
  (forall bounds, ComputedBounds k a w = Some (bounds, w) ->
     exists w', HandleMouseDown (S n) k (mkRef TFlexContainer a) x y w
                  = Some (PointInRect (mkPoint x y) bounds, w') /\
       (PointInRect (mkPoint x y) bounds = false -> w' = w)) /\
  (forall t, t = TBaseElement \/ t = TNode ->
     let inside := PointInRect (mkPoint x y) (BaseElement.bounds (base o)) in
     exists w', HandleMouseDown (S n) k (mkRef t a) x y w = Some (inside, w') /\
       (inside = false -> w' = w) /\
       (inside = true ->
          exists o', heap w' !! a = Some o' /\ BaseElement.pressed (base o') = true)).
Proof.
  intros Hwf HDk Hrk Ho.
  assert (Hcall : handles D rk n (fun e => HandleMouse n k MouseDown e x y)).
  { apply (HandleMouse_total D rk k MouseDown x y HDk n). }
  split.
  - intros bounds Hcb. unfold HandleMouseDown. simpl.
    unfold FlexContainer_HandleMouseDown. step Hcb.
    destruct (PointInRect _ _); [|by exists w].
    destruct (dispatchChildren_total D rk n _ a Hcall Hrk w o Hwf Ho)
      as (res & w' & Hrun & _).
    step Hrun. exists w'. split; [by destruct res|done].
  - intros t Ht inside.
    assert (Hhead : HandleMouseDown (S n) k (mkRef t a) x y w
              = BaseElement_HandleMouseDown
                  (fun e => HandleMouse n k MouseDown e x y) a x y w).
    { by destruct Ht as [-> | ->]. }
    rewrite Hhead. unfold BaseElement_HandleMouseDown.
    step (IsMouseOver_run a x y w o Ho). fold inside.
    destruct inside; [|by exists w].
    step (modify_obj_run a (set_base (BaseElement.set_pressed true)) w o Ho).
    destruct (after_flags D rk a w o _ Hwf Ho (erase_set_pressed true o))
      as (Hwf1 & Ho1 & Hev1).
    destruct (dispatch_after D rk k n _ HDk Hcall a w _ _ Hrk Hwf1 Ho1 Hev1)
      as (res & w2 & Hrun & _ & Ho2 & _).
    step Hrun. exists w2. split; [by destruct res|]. split; [done|].
    intros _. eexists. split; [exact Ho2|]. by destruct o as [[] ? ?].
Qed.

Lemma HandleMouseDown_hit_test_witness :
  (exists w', HandleMouseDown 2 2 (mkRef TFlexContainer 0) 300 50 stack_world
                = Some (false, w') /\ w' = stack_world) /\
  (exists w', HandleMouseDown 1 2 (mkRef TNode 1) 5 5 geometry_world = Some (false, w')).
Proof.
  split.
  - destruct (proj1 (HandleMouseDown_hit_test 2 button_rank 2 1 stack_world 0
                       stack_container 300 50
                       (wfb_sound 2 button_rank stack_world eq_refl)
                       (le_n 2) (le_n 1) eq_refl)
                    (mkRect 0 0 200 100) eq_refl) as (w' & Hrun & Hsame).
    exists w'. split; [exact Hrun|]. by apply Hsame.
  - destruct (proj2 (HandleMouseDown_hit_test 2 geometry_rank 2 0 geometry_world 1
                       geometry_item 5 5
                       (wfb_sound 2 geometry_rank geometry_world eq_refl)
                       (le_n 2) (le_n 0) eq_refl)
                    TNode (or_intror eq_refl)) as (w' & Hrun & _).
    exists w'. exact Hrun.
Defined.

(** X13.  [Button.HandleMouseUp] on a well-formed tree always leaves the
    button released, and calls the click callback only when the button is
    enabled, was pressed and the point is inside its computed bounds; then
    that call is all that happens. *)
Theorem Button_click_only_when_armed (D : nat) (rk : addr -> nat) (k n : nat)
    (w : World) (b : addr) (o : Object) (bt : Button.t) (R : Rect) (x y : Z) :
  wf D rk w -> D <= k -> rk b <= n ->
  heap w !! b = Some o ->
  widget o = WButton bt ->
  ComputedBounds k b w = Some (R, w) ->
  exists res w' evs,
    HandleMouseUp (S n) k (mkRef TButton b) x y w = Some (res, w') /\
    log w' = log w ++ evs /\
    Button_IsPressed b w' = Some (false, w') /\
    (forall cb, Clicked b cb ∈ evs ->
       Button.disabled bt = false /\ Button.pressed bt = true /\
       PointInRect (mkPoint x y) R = true /\
       Button.onClick bt = Some cb /\ evs = [Clicked b cb] /\ res = true).
Proof.
  intros Hwf HDk Hrk Ho Hw Hcb.
  assert (Hcall : handles D rk n (fun e => HandleMouse n k MouseUp e x y)).
  { apply (HandleMouse_total D rk k MouseUp x y HDk n). }
  assert (Hreleased : forall w', 
            heap w' !! b = Some (with_button (Button.set_pressed false) bt o) ->
            Button_IsPressed b w' = Some (false, w')).
  { intros w' Ho'. unfold Button_IsPressed.
    by step (get_button_run b w' _ _ Ho' eq_refl). }
  unfold HandleMouseUp. simpl.
  destruct (Button.pressed bt && PointInRect (mkPoint x y) R) eqn:Harmed.
  - apply andb_true_iff in Harmed as [Hpr Hin].
    destruct (Button.disabled bt) eqn:Hdis.
    + unfold Button_HandleMouseUp.
      step (get_button_run b w o bt Ho Hw).
      step (set_button_run b (Button.set_pressed false) w o bt Ho Hw).
      rewrite Hdis. eexists false, _, []. split; [reflexivity|].
      split; [simpl; by rewrite app_nil_r|]. split.
      * apply Hreleased. apply lookup_insert_eq.
      * intros cb Hcbin. by apply elem_of_nil in Hcbin.
    + rewrite (Button_HandleMouseUp_click D rk k _ b w o bt R Hwf Ho Hw Hcb x y
                 Hdis Hpr Hin).
      eexists true, _, _. split; [reflexivity|]. split; [reflexivity|]. split.
      * apply Hreleased. apply lookup_insert_eq.
      * intros cb Hcbin. unfold clicks in *.
        destruct (Button.onClick bt) as [cb'|]; [|by apply elem_of_nil in Hcbin].
        apply list_elem_of_singleton in Hcbin. injection Hcbin as ->. done.
  - destruct (Button_HandleMouseUp_elsewhere D rk k n _ HDk Hcall b w o bt R Hrk Hwf
                Ho Hw Hcb x y Harmed) as (res & w' & Hrun & Ho' & evs & Hlog & Hevs).
    exists res, w', evs. split; [done|]. split; [done|]. split; [by apply Hreleased|].
    intros cb Hcbin. rewrite Forall_forall in Hevs.
    by destruct (Hevs _ Hcbin).
Qed.

Lemma Button_click_only_when_armed_witness :
  exists res w' evs,
    HandleMouseUp 1 2 (mkRef TButton 2) 50 50 stack_world_pressed = Some (res, w') /\
    log w' = log stack_world_pressed ++ evs /\
    Button_IsPressed 2 w' = Some (false, w') /\
    (forall cb, Clicked 2 cb ∈ evs ->
       false = false /\ true = true /\
       PointInRect (mkPoint 50 50) (mkRect 0 0 100 100) = true /\
       Some 2 = Some cb /\ evs = [Clicked 2 cb] /\ res = true).
Proof.
  apply (Button_click_only_when_armed 2 button_rank 2 0 stack_world_pressed 2
           (with_button (Button.set_pressed true)
              (Button.mk (Some 2) false false false) (stack_button "second" 2))
           (Button.mk (Some 2) false true false) (mkRect 0 0 100 100) 50 50).
  - apply wfb_sound. vm_compute. reflexivity.
  - lia.
  - simpl. lia.
  - reflexivity.
  - reflexivity.
  - vm_compute. reflexivity.
Defined.

(** X14.  Two presses inside a checkbox that has no [checkedChanged]
    handler put everything back: both return true, the first negates the
    checked flag, and the second leaves exactly the world the first press
    started from. *)
Theorem Checkbox_double_press_restores (n k : nat) (w : World) (c : addr)
    (o : Object) (cb : Checkbox.t) (bounds : Rect) (x y : Z) :
  heap w !! c = Some o ->
  widget o = WCheckbox cb ->
  Checkbox.checkedChanged cb = None ->
  ComputedBounds k c w = Some (bounds, w) ->
  PointInRect (mkPoint x y) bounds = true ->
  exists w1,
    HandleMouseDown (S n) k (mkRef TCheckbox c) x y w = Some (true, w1) /\
    Checkbox_IsChecked c w1 = Some (negb (Checkbox.checked cb), w1) /\
    HandleMouseDown (S n) k (mkRef TCheckbox c) x y w1 = Some (true, w).
Proof.
  intros Ho Hw Hnone Hcb Hin.
  assert (Hpress : forall w0 o0 cb0,
            heap w0 !! c = Some o0 -> widget o0 = WCheckbox cb0 ->
            Checkbox.checkedChanged cb0 = None ->
            ComputedBounds k c w0 = Some (bounds, w0) ->
            HandleMouseDown (S n) k (mkRef TCheckbox c) x y w0
              = Some (true,
                  mkWorld (<[c := with_checked (negb (Checkbox.checked cb0)) cb0 o0]>
                             (heap w0))
                          (log w0))).
  { intros w0 o0 cb0 Ho0 Hw0 Hnone0 Hcb0. unfold HandleMouseDown. simpl.
    unfold Checkbox_HandleMouseDown. step Hcb0. rewrite Hin.
    step (get_checkbox_run c w0 o0 cb0 Ho0 Hw0).
    step (modify_obj_run c (set_widget (WCheckbox
            (Checkbox.set_checked (negb (Checkbox.checked cb0)) cb0))) w0 o0 Ho0).
    by rewrite Hnone0. }
  set (o1 := with_checked (negb (Checkbox.checked cb)) cb o).
  set (cb1 := Checkbox.set_checked (negb (Checkbox.checked cb)) cb).
  set (w1 := mkWorld (<[c := o1]> (heap w)) (log w)).
  assert (Ho1 : heap w1 !! c = Some o1) by apply lookup_insert_eq.
  assert (Hcb1 : ComputedBounds k c w1 = Some (bounds, w1)).
  { apply ComputedBounds_Some. apply ComputedBounds_Some in Hcb. rewrite <- Hcb.
    apply (resolve_same_structure w w1). intros a. simpl.
    destruct (decide (a = c)) as [->|Hne].
    - rewrite lookup_insert_eq, Ho. simpl. f_equal.
      by apply erase_set_checked.
    - by rewrite lookup_insert_ne. }
  exists w1. split; [by apply Hpress|]. split.
  - unfold Checkbox_IsChecked. by step (get_checkbox_run c w1 o1 cb1 Ho1 eq_refl).
  - rewrite (Hpress w1 o1 cb1 Ho1 eq_refl Hnone Hcb1). do 2 f_equal.
    destruct w as [h l]. simpl in *. f_equal.
    rewrite insert_insert_eq. apply insert_id. rewrite Ho. f_equal.
    destruct o as [ba nd wd], cb as [ch hd]. simpl in Hw. subst wd.
    unfold o1, with_checked, set_widget, Checkbox.set_checked. simpl.
    by rewrite negb_involutive.
Qed.

Lemma Checkbox_double_press_restores_witness :
  exists w1,
    HandleMouseDown 1 1 (mkRef TCheckbox 3) 155 5 stack_world = Some (true, w1) /\
    Checkbox_IsChecked 3 w1 = Some (true, w1) /\
    HandleMouseDown 1 1 (mkRef TCheckbox 3) 155 5 w1 = Some (true, stack_world).
Proof.
  apply (Checkbox_double_press_restores 0 1 stack_world 3
           (mkObject (BaseElement.mk "third" (mkRect 0 0 20 20)
                        (Some (mkRef TBaseElement 0)) [] false false)
                     (Node.set_relativePos (mkPoint 150 0) Node.new)
                     (WCheckbox Checkbox.new))
           Checkbox.new (mkRect 150 0 20 20) 155 5).
  - reflexivity.
  - reflexivity.
  - reflexivity.
  - vm_compute. reflexivity.
  - reflexivity.
Defined.

(** ** The reactive state cell, continued *)

(** X15.  For watchers that do not call back into the cell: [Watch] returns,
    keeps the value, appends the watcher to the subscribers and runs the
    new watcher, and no other, once on the current value; on the next
    [Update] the new watcher runs after all earlier ones. *)
Theorem State_Watch_subscribes (V E : Type) (n : nat) (watcher : V -> State.Cmd V E)
    (transform : V -> V) (s : State.t V E) (trace : list E) :
  State.observers n [watcher] (State.value s) ->
  State.observers n (State.watchers s ++ [watcher]) (transform (State.value s)) ->
  let s1 := State.mk (State.value s) (State.watchers s ++ [watcher]) in
  let trace1 := trace ++ State.says (watcher (State.value s)) in
  State.Watch n watcher s trace = Some (s1, trace1) /\
  State.Update n transform s1 trace1
    = Some (State.mk (transform (State.value s)) (State.watchers s ++ [watcher]),
            trace1
            ++ flat_map (fun w => State.says (w (transform (State.value s))))
                        (State.watchers s)
            ++ State.says (watcher (transform (State.value s)))).
Proof.
  intros Hnew Hall s1 trace1. split.
  - unfold State.Watch, State.WatchWith.
    destruct (Hnew watcher) as [Hp Hn]; [by left|].
    simpl. by rewrite (State_exec_passive _ n _ trace Hp Hn).
  - rewrite (State_Update_observers n transform s1 trace1 Hall). simpl.
    rewrite flat_map_app. simpl. by rewrite app_nil_r.
Qed.

Lemma State_Watch_subscribes_witness :
  State.Watch 2 (State.recorder 1) (State.mk 5%Z [State.recorder 0]) []
    = Some (State.mk 5%Z [State.recorder 0; State.recorder 1], [(1, 5%Z)]) /\
  State.Update 2 (fun v => (v + 1)%Z)
               (State.mk 5%Z [State.recorder 0; State.recorder 1]) [(1, 5%Z)]
    = Some (State.mk 6%Z [State.recorder 0; State.recorder 1],
            [(1, 5%Z); (0, 6%Z); (1, 6%Z)]).
Proof.
  apply (State_Watch_subscribes Z (nat * Z)%type 2 (State.recorder 1)
           (fun v => (v + 1)%Z) (State.mk 5%Z [State.recorder 0]) []).
  - apply (State_recorders_observe [1]).
  - apply (State_recorders_observe [0; 1]).
Defined.

(** X16.  For watchers that do not call back into the cell, a run of
    [Update] calls composes: it returns, the cell ends with the transforms
    applied in order, the subscriber list is kept, and every watcher has run
    once per update on the value the cell had right after that update,
    update by update and in subscription order. *)
Theorem State_Updates_compose (V E : Type) (n : nat) (transforms : list (V -> V))
    (s : State.t V E) (trace : list E) :
  (forall v, State.observers n (State.watchers s) v) ->
  State_Updates n transforms s trace
    = Some (State.mk (fold_left (fun x transform => transform x) transforms
                                (State.value s))
                     (State.watchers s),
            trace ++ flat_map (fun v => flat_map (fun w => State.says (w v))
                                                 (State.watchers s))
                              (State_running transforms (State.value s))).
Proof.
  revert s trace. induction transforms as [|transform rest IH];
    intros s trace Hobs; simpl.
  - destruct s. simpl. by rewrite app_nil_r.
  - rewrite (State_Update_observers n transform s trace (Hobs _)).
    rewrite IH by done. simpl. by rewrite <- app_assoc.
Qed.

Lemma State_Updates_compose_witness :
  State_Updates 2 [fun v => (v + 1)%Z; fun v => (v * 2)%Z]
                (State.mk 1%Z [State.recorder 0; State.recorder 1]) []
    = Some (State.mk 4%Z [State.recorder 0; State.recorder 1],
            [(0, 2%Z); (1, 2%Z); (0, 4%Z); (1, 4%Z)]).
Proof.
  apply (State_Updates_compose Z (nat * Z)%type 2
           [fun v => (v + 1)%Z; fun v => (v * 2)%Z]
           (State.mk 1%Z [State.recorder 0; State.recorder 1]) []).
  intros v. apply (State_recorders_observe [0; 1]).
Defined.

(** ** Class names *)

Lemma hasClass_elem (c : string) (cs : list string) : hasClass c cs = true <-> c ∈ cs.
Proof.
  induction cs as [|x cs IH]; simpl.
  - split; [discriminate|]. intros H. by apply elem_of_nil in H.
  - destruct (decide (x = c)) as [->|Hne].
    + split; [intros _; by left|done].
    + rewrite IH. split; [by right|].
      intros H. apply elem_of_cons in H as [->|H]; done.
Qed.

Lemma hasClass_absent (c : string) (cs : list string) : c ∉ cs -> hasClass c cs = false.
Proof.
  intros Hc. apply not_true_is_false. intros H. by apply hasClass_elem in H.
Qed.

Lemma hasClass_snoc (c' c : string) (cs : list string) :
  hasClass c' (cs ++ [c]) = hasClass c' cs || bool_decide (c = c').
Proof.
  induction cs as [|x cs IH]; simpl.
  - destruct (decide (c = c')) as [->|Hne].
    + by rewrite bool_decide_eq_true_2.
    + by rewrite bool_decide_eq_false_2.
  - by destruct (decide (x = c')).
Qed.

Lemma removeClass_elem (c x : string) (cs : list string) :
  x ∈ removeClass c cs -> x ∈ cs.
Proof.
  induction cs as [|y cs IH]; simpl; [done|].
  destruct (decide (y = c)); intros Hx.
  - by right.
  - apply elem_of_cons in Hx as [->|Hx]; [by left | right; by apply IH].
Qed.

Lemma removeClass_NoDup (c : string) (cs : list string) :
  NoDup cs -> NoDup (removeClass c cs).
Proof.
  induction 1 as [|y cs Hy Hnd IH]; simpl; [constructor|].
  destruct (decide (y = c)); [done|].
  constructor; [|done]. intros Hin. by apply removeClass_elem in Hin.
Qed.

Lemma hasClass_removeClass (c' c : string) (cs : list string) :
  NoDup cs ->
  hasClass c' (removeClass c cs) = negb (bool_decide (c' = c)) && hasClass c' cs.
Proof.
  induction 1 as [|y cs Hy Hnd IH]; simpl; [by rewrite andb_false_r|].
  destruct (decide (y = c)) as [->|Hne].
  - destruct (decide (c = c')) as [<-|Hne'].
    + rewrite bool_decide_eq_true_2 by done. simpl. by apply hasClass_absent.
    + rewrite bool_decide_eq_false_2 by congruence. done.
  - simpl. destruct (decide (y = c')) as [->|Hne'].
    + rewrite bool_decide_eq_false_2 by congruence. done.
    + exact IH.
Qed.

Lemma Node_HasClass_run (d : addr) (c : string) (w : World) (o : Object) :
  heap w !! d = Some o ->
  Node_HasClass d c w = Some (hasClass c (Node.classNames (node o)), w).
Proof. intros Ho. unfold Node_HasClass. by step (get_obj_run d w o Ho). Qed.

Lemma Node_GetClassNames_run (d : addr) (w : World) (o : Object) :
  heap w !! d = Some o ->
  Node_GetClassNames d w = Some (Node.classNames (node o), w).
Proof. intros Ho. unfold Node_GetClassNames. by step (get_obj_run d w o Ho). Qed.

(** X17.  [AddClass] makes [HasClass] true for the class and changes it for
    no other class; adding a class twice is the same as adding it once; and
    a class list without duplicates stays without duplicates. *)
Theorem Node_AddClass_spec (w : World) (d : addr) (o : Object) (c : string) :
  heap w !! d = Some o ->
  exists w', Node_AddClass d c w = Some (tt, w') /\
    (forall c', Node_HasClass d c' w'
                = Some (bool_decide (c' = c) || hasClass c' (Node.classNames (node o)),
                        w')) /\
    Node_AddClass d c w' = Some (tt, w') /\
    (NoDup (Node.classNames (node o)) ->
       exists cs, Node_GetClassNames d w' = Some (cs, w') /\ NoDup cs).
Proof.
  intros Ho. unfold Node_AddClass.
  step (Node_HasClass_run d c w o Ho).
  destruct (hasClass c (Node.classNames (node o))) eqn:Hhas.
  - exists w. split; [done|]. split; [|split].
    + intros c'. rewrite (Node_HasClass_run d c' w o Ho). do 2 f_equal.
      destruct (decide (c' = c)) as [->|Hne].
      * by rewrite bool_decide_eq_true_2, Hhas.
      * by rewrite bool_decide_eq_false_2.
    + step (Node_HasClass_run d c w o Ho). by rewrite Hhas.
    + intros Hnd. exists (Node.classNames (node o)).
      split; [by apply Node_GetClassNames_run|done].
  - set (o' := set_node (fun n =>
        Node_set_classNames (Node.classNames n ++ [c]) n) o).
    set (w' := mkWorld (<[d := o']> (heap w)) (log w)).
    assert (Ho' : heap w' !! d = Some o') by apply lookup_insert_eq.
    assert (Hcs : Node.classNames (node o') = Node.classNames (node o) ++ [c])
      by done.
    exists w'. split; [by apply modify_obj_run|]. split; [|split].
    + intros c'. rewrite (Node_HasClass_run d c' w' o' Ho'), Hcs, hasClass_snoc.
      do 2 f_equal. rewrite orb_comm. f_equal.
      apply bool_decide_ext. split; congruence.
    + step (Node_HasClass_run d c w' o' Ho'). rewrite Hcs, hasClass_snoc.
      by rewrite bool_decide_eq_true_2, orb_true_r.
    + intros Hnd. exists (Node.classNames (node o) ++ [c]).
      split; [by rewrite (Node_GetClassNames_run d w' o' Ho'), Hcs|].
      apply NoDup_app. split; [done|]. split; [|apply NoDup_singleton].
      intros x Hx Hxc. apply list_elem_of_singleton in Hxc as ->.
      apply hasClass_elem in Hx. congruence.
Qed.

Lemma Node_AddClass_spec_witness :
  exists w', Node_AddClass 1 "new" page_world = Some (tt, w') /\
    Node_HasClass 1 "new" w' = Some (true, w') /\
    Node_HasClass 1 "bar" w' = Some (true, w') /\
    Node_HasClass 1 "other" w' = Some (false, w') /\
    Node_AddClass 1 "new" w' = Some (tt, w').
Proof.
  destruct (Node_AddClass_spec page_world 1
              (plainNode "header" (mkRect 0 0 400 40) (Some (mkRef TBaseElement 0)) []
                 (Node_set_classNames ["bar"; "top"] Node.new)) "new")
    as (w' & Hrun & Hhas & Hagain & _); [reflexivity|].
  exists w'. split; [exact Hrun|].
  split; [by rewrite Hhas|]. split; [by rewrite Hhas|]. split; [by rewrite Hhas|].
  exact Hagain.
Defined.

(** X18.  On a class list without duplicates, which is what [AddClass]
    builds, [RemoveClass] makes [HasClass] false for the class, changes it for
    no other class, and leaves the list without duplicates. *)
Theorem Node_RemoveClass_spec (w : World) (d : addr) (o : Object) (c : string) :
  heap w !! d = Some o ->
  NoDup (Node.classNames (node o)) ->
  exists w', Node_RemoveClass d c w = Some (tt, w') /\
    (forall c', Node_HasClass d c' w'
                = Some (negb (bool_decide (c' = c))
                        && hasClass c' (Node.classNames (node o)), w')) /\
    (exists cs, Node_GetClassNames d w' = Some (cs, w') /\ NoDup cs).
Proof.
  intros Ho Hnd.
  set (o' := set_node (fun n =>
      Node_set_classNames (removeClass c (Node.classNames n)) n) o).
  set (w' := mkWorld (<[d := o']> (heap w)) (log w)).
  assert (Ho' : heap w' !! d = Some o') by apply lookup_insert_eq.
  assert (Hcs : Node.classNames (node o') = removeClass c (Node.classNames (node o)))
    by done.
  exists w'. split; [by apply modify_obj_run|]. split.
  - intros c'. rewrite (Node_HasClass_run d c' w' o' Ho'), Hcs.
    by rewrite hasClass_removeClass.
  - exists (removeClass c (Node.classNames (node o))).
    split; [by rewrite (Node_GetClassNames_run d w' o' Ho'), Hcs|].
    by apply removeClass_NoDup.
Qed.

Lemma Node_RemoveClass_spec_witness :
  exists w', Node_RemoveClass 1 "bar" page_world = Some (tt, w') /\
    Node_HasClass 1 "bar" w' = Some (false, w') /\
    Node_HasClass 1 "top" w' = Some (true, w').
Proof.
  destruct (Node_RemoveClass_spec page_world 1
              (plainNode "header" (mkRect 0 0 400 40) (Some (mkRef TBaseElement 0)) []
                 (Node_set_classNames ["bar"; "top"] Node.new)) "bar")
    as (w' & Hrun & Hhas & _).
  - reflexivity.
  - simpl. apply NoDup_cons. split.
    + intros H. apply list_elem_of_singleton in H. discriminate.
    + apply NoDup_singleton.
  - exists w'. split; [exact Hrun|]. split; by rewrite Hhas.
Defined.

(** ** Selectors *)

Lemma substring_prefix (v t : string) :
  String.substring 0 (String.length v) (v +:+ t) = v.
Proof.
  induction v as [|c v IH]; simpl.
  - by destruct t.
  - by rewrite IH.
Qed.

Lemma substring_all (v : string) : String.substring 0 (String.length v) v = v.
Proof. induction v as [|c v IH]; simpl; [done|by rewrite IH]. Qed.

Lemma HasSuffix_app (a b : string) : HasSuffix (a +:+ b) b = true.
Proof.
  induction a as [|c a IH].
  - change (HasSuffix b b = true). destruct b as [|c b]; [done|]. cbn [HasSuffix].
    by rewrite bool_decide_eq_true_2.
  - simpl. by rewrite IH, orb_true_r.
Qed.

(** X19.  What [parseSelectorString] makes of a selector: the empty
    selector has no kind; [#v] is an id selector for [v], [.v] a class
    selector for [v] and [[v]] an attribute selector for [v]; any other
    selector is a tag selector for the whole string. *)
Theorem parseSelectorString_kinds :
  parseSelectorString EmptyString = (EmptyString, EmptyString) /\
  (forall v, parseSelectorString ("#" +:+ v) = ("id", v)) /\
  (forall v, parseSelectorString ("." +:+ v) = ("class", v)) /\
  (forall v, parseSelectorString ("[" +:+ (v +:+ "]")) = ("attr", v)) /\
  (forall selector,
     selector <> EmptyString ->
     HasPrefix selector "#" = false ->
     HasPrefix selector "." = false ->
     HasPrefix selector "[" && HasSuffix selector "]" = false ->
     parseSelectorString selector = ("tag", selector)).
Proof.
  split; [done|]. split; [|split; [|split]].
  - intros v. unfold parseSelectorString. simpl.
    by rewrite Nat.sub_0_r, substring_all.
  - intros v. unfold parseSelectorString. simpl.
    by rewrite Nat.sub_0_r, substring_all.
  - intros v. unfold parseSelectorString.
    rewrite bool_decide_eq_false_2 by done.
    change (HasPrefix ("[" +:+ (v +:+ "]")) "#") with false.
    change (HasPrefix ("[" +:+ (v +:+ "]")) ".") with false.
    change (HasPrefix ("[" +:+ (v +:+ "]")) "[") with true.
    assert (Hs : HasSuffix ("[" +:+ (v +:+ "]")) "]" = true)
      by apply (HasSuffix_app ("[" +:+ v) "]").
    rewrite Hs. simpl.
    assert (Hlen : String.length (v +:+ "]") = S (String.length v)).
    { clear Hs. induction v as [|c v IH]; simpl; [done|by rewrite IH]. }
    change ("" +:+ v +:+ "]") with (v +:+ "]").
    rewrite Hlen. simpl. by rewrite Nat.sub_0_r, substring_prefix.
  - intros selector Hne Hid Hclass Hattr. unfold parseSelectorString.
    rewrite bool_decide_eq_false_2 by done.
    by rewrite Hid, Hclass, Hattr.
Qed.

Lemma parseSelectorString_kinds_witness :
  parseSelectorString "button" = ("tag", "button").
Proof.
  apply (proj2 (proj2 (proj2 (proj2 parseSelectorString_kinds))) "button");
    [discriminate|reflexivity|reflexivity|reflexivity].
Defined.

Lemma firstMatch_allMatches (callF : Ref -> option (option Ref))
    (callA : Ref -> option (list Ref)) (cs : list Ref) :
  (forall c rs, c ∈ cs -> callA c = Some rs -> callF c = Some (head rs)) ->
  forall rs, allMatches callA cs = Some rs -> firstMatch callF cs = Some (head rs).
Proof.
  induction cs as [|c rest IH]; intros Hcall rs Hall; simpl in *.
  - by injection Hall as <-.
  - assert (IH' := IH (fun c' rs' Hc' => Hcall c' rs' (list_elem_of_further _ _ _ Hc'))).
    destruct (isNodeElement (rtype c)); [|by apply IH'].
    destruct (callA c) as [cr|] eqn:Hc; [|discriminate]. simpl in Hall.
    destruct (allMatches callA rest) as [rr|]; [|discriminate]. simpl in Hall.
    injection Hall as <-.
    rewrite (Hcall c cr (list_elem_of_here _ _) Hc). simpl.
    destruct cr as [|r cr]; simpl; [by apply IH'|done].
Qed.

(** X20.  [QuerySelector] returns the first element of what
    [QuerySelectorAll] returns for the same element and selector, and [nil]
    when that list is empty. *)
Theorem QuerySelector_first_of_all (n : nat) (h : gmap addr Object) (selector : string) :
  forall (d : addr) (rs : list Ref),
    QuerySelectorAll n h d selector = Some rs ->
    QuerySelector n h d selector = Some (head rs).
Proof.
  induction n as [|n IH]; intros d rs Hall; [discriminate|].
  simpl in *. destruct (h !! d) as [o|]; [|discriminate]. simpl in *.
  destruct (parseSelectorString selector) as [t v].
  destruct (allMatches _ _) as [cr|] eqn:Hcr; [|discriminate]. simpl in Hall.
  injection Hall as <-.
  destruct (selectsSelf t v o); [done|]. simpl.
  apply (firstMatch_allMatches _ _ _ (fun c rs' _ => IH (raddr c) rs') cr Hcr).
Qed.

Lemma QuerySelector_first_of_all_witness :
  QuerySelector 2 (heap page_world) 0 ".bar" = Some (Some (mkRef TNode 1)).
Proof.
  apply (QuerySelector_first_of_all 2 (heap page_world) ".bar" 0
           [mkRef TNode 1; mkRef TNode 3]).
  vm_compute. reflexivity.
Defined.

Lemma allMatches_spec (call : Ref -> option (list Ref)) (cs : list Ref) :
  (forall c, c ∈ cs -> isNodeElement (rtype c) = true -> is_Some (call c)) ->
  exists rs, allMatches call cs = Some rs /\
    forall r, r ∈ rs <->
      exists c rc, c ∈ cs /\ isNodeElement (rtype c) = true /\
                   call c = Some rc /\ r ∈ rc.
Proof.
  induction cs as [|c rest IH]; intros Hcall; simpl.
  - exists []. split; [done|]. intros r. split.
    + intros H. by apply elem_of_nil in H.
    + intros (c & rc & Hc & _). by apply elem_of_nil in Hc.
  - destruct IH as (rr & Hrr & Hchar).
    { intros c' Hc'. apply Hcall. by right. }
    destruct (isNodeElement (rtype c)) eqn:Hnode.
    + destruct (Hcall c) as [cr Hcr]; [by left|done|].
      rewrite Hcr, Hrr. simpl. exists (cr ++ rr). split; [done|].
      intros r. rewrite elem_of_app, Hchar. split.
      * intros [Hr|(c' & rc & Hc' & Hn' & Hrc & Hr)].
        -- exists c, cr. split; [by left|done].
        -- exists c', rc. split; [by right|done].
      * intros (c' & rc & Hc' & Hn' & Hrc & Hr).
        apply elem_of_cons in Hc' as [->|Hc'].
        -- left. congruence.
        -- right. by exists c', rc.
    + exists rr. split; [done|]. intros r. rewrite Hchar. split.
      * intros (c' & rc & Hc' & Hrest). exists c', rc. split; [by right|done].
      * intros (c' & rc & Hc' & Hn' & Hrest).
        apply elem_of_cons in Hc' as [->|Hc']; [congruence|].
        by exists c', rc.
Qed.

(** X21.  On a well-formed tree [QuerySelectorAll] returns, and what it
    returns are exactly the [*Node]s of the elements that match the selector
    among the element itself and everything reachable from it through
    children that are [NodeElement]s; the subtree of a child that is a bare
    [*BaseElement] is not searched. *)
Theorem QuerySelectorAll_spec (D : nat) (rk : addr -> nat) (w : World)
    (selector : string) (n : nat) :
  wf D rk w ->
  forall (d : addr) (o : Object),
    heap w !! d = Some o -> rk d < n ->
    exists rs, QuerySelectorAll n (heap w) d selector = Some rs /\
      forall r, r ∈ rs <->
        exists a oa, r = mkRef TNode a /\ searched (heap w) d a /\
          heap w !! a = Some oa /\
          selectsSelf (parseSelectorString selector).1
                      (parseSelectorString selector).2 oa = true.
Proof.
  intros Hwf. induction n as [|n IH]; intros d o Ho Hrk; [lia|].
  destruct (Hwf d o Ho) as (_ & Hch & _).
  assert (Hsub : forall c, c ∈ BaseElement.children (base o) ->
            exists oc, heap w !! raddr c = Some oc /\ rk (raddr c) < n).
  { intros c Hc. destruct (Hch c Hc) as [(oc & Hoc & _) Hlt].
    exists oc. split; [done|lia]. }
  destruct (allMatches_spec
              (fun child => QuerySelectorAll n (heap w) (raddr child) selector)
              (BaseElement.children (base o))) as (cr & Hcr & Hchar).
  { intros c Hc _. destruct (Hsub c Hc) as (oc & Hoc & Hlt).
    destruct (IH (raddr c) oc Hoc Hlt) as (rs & Hrs & _). by eexists. }
  simpl. rewrite Ho. simpl.
  destruct (parseSelectorString selector) as [t v] eqn:Hparse. simpl.
  rewrite Hcr. simpl. eexists. split; [reflexivity|].
  intros r. rewrite elem_of_app, Hchar. split.
  - intros [Hself|(c & rc & Hc & Hnode & Hrc & Hr)].
    + destruct (selectsSelf t v o) eqn:Hsel; [|by apply elem_of_nil in Hself].
      apply list_elem_of_singleton in Hself as ->.
      exists d, o. split; [done|]. split; [apply searched_self|done].
    + destruct (Hsub c Hc) as (oc & Hoc & Hlt).
      destruct (IH (raddr c) oc Hoc Hlt) as (rs & Hrs & Hrschar).
      assert (rs = rc) as -> by congruence.
      apply Hrschar in Hr as (a & oa & -> & Hsearch & Hoa & Hsel).
      exists a, oa. split; [done|]. split; [|done].
      by apply (searched_child (heap w) d o c a).
  - intros (a & oa & -> & Hsearch & Hoa & Hsel).
    inversion Hsearch as [d'|d' o' c a' Ho' Hc Hnode Hsearch']; subst.
    + left. assert (oa = o) as -> by congruence. rewrite Hsel. by left.
    + right. assert (o' = o) as -> by congruence.
      destruct (Hsub c Hc) as (oc & Hoc & Hlt).
      destruct (IH (raddr c) oc Hoc Hlt) as (rs & Hrs & Hrschar).
      exists c, rs. split; [done|]. split; [done|]. split; [done|].
      apply Hrschar. by exists a, oa.
Qed.

Lemma QuerySelectorAll_spec_witness :
  exists rs, QuerySelectorAll 2 (heap page_world) 0 "ok" = Some rs /\
    forall r, r ∈ rs <->
      exists a oa, r = mkRef TNode a /\ searched (heap page_world) 0 a /\
        heap page_world !! a = Some oa /\
        selectsSelf (parseSelectorString "ok").1 (parseSelectorString "ok").2 oa = true.
Proof.
  apply (QuerySelectorAll_spec 2 page_rank page_world "ok" 2
           (wfb_sound 2 page_rank page_world eq_refl) 0
           (plainNode "app" (mkRect 0 0 400 300) None
              [mkRef TNode 1; mkRef TBaseElement 2; mkRef TButton 3] Node.new)).
  - reflexivity.
  - simpl. lia.
Defined.

Lemma selectsSelf_unsupported (t v : string) (o : Object) :
  t <> "id" -> t <> "class" -> t <> "tag" -> selectsSelf t v o = false.
Proof.
  intros Hid Hclass Htag. unfold selectsSelf.
  rewrite (bool_decide_eq_false_2 (t = "id")) by done.
  rewrite (bool_decide_eq_false_2 (t = "class")) by done.
  rewrite (bool_decide_eq_false_2 (t = "tag")) by done.
  reflexivity.
Qed.

Lemma allMatches_nil (call : Ref -> option (list Ref)) (cs : list Ref) :
  (forall c, c ∈ cs -> call c = Some []) -> allMatches call cs = Some [].
Proof.
  induction cs as [|c rest IH]; intros Hcall; simpl; [done|].
  rewrite IH by (intros c' Hc'; apply Hcall; by right).
  destruct (isNodeElement (rtype c)); [|done].
  by rewrite (Hcall c (list_elem_of_here _ _)).
Qed.

Lemma firstMatch_none (call : Ref -> option (option Ref)) (cs : list Ref) :
  (forall c, c ∈ cs -> call c = Some None) -> firstMatch call cs = Some None.
Proof.
  induction cs as [|c rest IH]; intros Hcall; simpl; [done|].
  rewrite IH by (intros c' Hc'; apply Hcall; by right).
  destruct (isNodeElement (rtype c)); [|done].
  by rewrite (Hcall c (list_elem_of_here _ _)).
Qed.

(** X22.  Attribute selectors and the empty selector are parsed but never
    matched: on a well-formed tree [QuerySelectorAll] returns the empty list
    and [QuerySelector] returns [nil] for them, whatever the tree holds. *)
Theorem QuerySelector_unsupported (D : nat) (rk : addr -> nat) (w : World)
    (selector : string) (n : nat) (d : addr) (o : Object) :
  wf D rk w ->
  heap w !! d = Some o -> rk d < n ->
  selector = EmptyString \/
    (HasPrefix selector "[" = true /\ HasSuffix selector "]" = true) ->
  QuerySelectorAll n (heap w) d selector = Some [] /\
  QuerySelector n (heap w) d selector = Some None.
Proof.
  intros Hwf Ho Hrk Hsel.
  assert (Hkind : (parseSelectorString selector).1 = EmptyString \/
                  (parseSelectorString selector).1 = "attr").
  { destruct Hsel as [->|[Hpre Hsuf]]; [by left|right].
    unfold parseSelectorString.
    destruct selector as [|c rest]; [discriminate|].
    rewrite bool_decide_eq_false_2 by done.
    simpl in Hpre. rewrite andb_true_r in Hpre.
    apply Ascii.eqb_eq in Hpre as ->.
    rewrite Hsuf. reflexivity. }
  assert (Hnever : forall oa,
            selectsSelf (parseSelectorString selector).1
                        (parseSelectorString selector).2 oa = false).
  { intros oa. apply selectsSelf_unsupported;
      destruct Hkind as [-> | ->]; discriminate. }
  clear Hsel Hkind. revert d o Ho Hrk.
  induction n as [|n IH]; intros d o Ho Hrk; [lia|].
  destruct (Hwf d o Ho) as (_ & Hch & _).
  assert (Hsub : forall c, c ∈ BaseElement.children (base o) ->
            QuerySelectorAll n (heap w) (raddr c) selector = Some [] /\
            QuerySelector n (heap w) (raddr c) selector = Some None).
  { intros c Hc. destruct (Hch c Hc) as [(oc & Hoc & _) Hlt].
    apply (IH (raddr c) oc Hoc). lia. }
  simpl. rewrite Ho. simpl.
  specialize (Hnever o).
  destruct (parseSelectorString selector) as [t v]. simpl in Hnever.
  rewrite Hnever. split.
  - rewrite allMatches_nil; [done|]. intros c Hc. by apply Hsub.
  - apply firstMatch_none. intros c Hc. by apply Hsub.
Qed.

Lemma QuerySelector_unsupported_witness :
  QuerySelectorAll 2 (heap page_world) 0 "[id=app]" = Some [] /\
  QuerySelector 2 (heap page_world) 0 "[id=app]" = Some None.
Proof.
  apply (QuerySelector_unsupported 2 page_rank page_world "[id=app]" 2 0
           (plainNode "app" (mkRect 0 0 400 300) None
              [mkRef TNode 1; mkRef TBaseElement 2; mkRef TButton 3] Node.new)).
  - apply wfb_sound. vm_compute. reflexivity.
  - reflexivity.
  - simpl. lia.
  - right. split; reflexivity.
Defined.

(** ** The select box *)

Lemma len_nonneg {A : Type} (l : list A) : (0 <= len l)%Z.
Proof. unfold len. lia. Qed.

(** X23.  The selection of a select box is always [-1] or an index into its
    options: this holds for a new box and is kept by [SetOptions],
    [SetSelectedIndex] and [HandleMouseDown]. *)
Theorem Select_index_in_range :
  (forall options, Select_ok (Select.new options)) /\
  (forall s, Select_ok s ->
     (forall options, Select_ok (Select_SetOptions options s)) /\
     (forall index, Select_ok (Select_SetSelectedIndex index s).1) /\
     (forall k a x y w res s' evs w',
        Select_HandleMouseDown k a x y s w = Some (res, s', evs, w') ->
        Select_ok s')).
Proof.
  split.
  { intros options. unfold Select_ok. simpl. pose proof (len_nonneg options). lia. }
  intros s Hok. unfold Select_ok in *. split; [|split].
  - intros options. unfold Select_SetOptions. simpl.
    destruct (Z.leb_spec (len options) (Select.selectedIndex s)); simpl.
    + pose proof (len_nonneg options). lia.
    + lia.
  - intros index. unfold Select_SetSelectedIndex.
    destruct (Z.leb_spec (-1) index), (Z.ltb_spec index (len (Select.options s)));
      simpl; lia.
  - intros k a x y w res s' evs w'. unfold Select_HandleMouseDown.
    destruct (ComputedBounds k a w) as [[bounds w1]|] eqn:Hcb.
    2: { unfold mbind, M_bind. rewrite Hcb. discriminate. }
    pose proof (ComputedBounds_pure _ _ _ _ _ Hcb) as ->.
    step Hcb.
    destruct (PointInRect _ bounds).
    { by intros [= <- <- <- <-]. }
    destruct (Select.isOpen s); [|by intros [= <- <- <- <-]].
    destruct (PointInRect _ _); [|by intros [= <- <- <- <-]].
    destruct (_ && _) eqn:Hrange; [|by intros [= <- <- <- <-]].
    unfold Select_SetSelectedIndex.
    destruct (Z.leb_spec (-1) (GoInt.quot (GoInt.sub y (GoInt.add (Y bounds)
                (Height bounds))) 20)),
             (Z.ltb_spec (GoInt.quot (GoInt.sub y (GoInt.add (Y bounds)
                (Height bounds))) 20) (len (Select.options s)));
      simpl; intros [= <- <- <- <-]; simpl; try done; lia.
Qed.

Lemma Select_index_in_range_witness :
  Select_ok (Select_SetOptions ["a"] (Select.mk ["a"; "b"; "c"] 2 None false)).
Proof.
  apply (proj2 Select_index_in_range (Select.mk ["a"; "b"; "c"] 2 None false)).
  unfold Select_ok, len. simpl. lia.
Defined.

(** X24.  [SetSelectedIndex] with an index of an option selects it, makes
    [GetSelectedOption] return that option and calls [onChange] once with the
    index; with [-1] it clears the selection, again telling [onChange]; with
    any other index it does nothing and calls nothing. *)
Theorem Select_SetSelectedIndex_spec (s : Select.t) (index : Z) :
  ((0 <= index < len (Select.options s))%Z ->
     exists option,
       Select.options s !! Z.to_nat index = Some option /\
       Select_GetSelectedOption (Select_SetSelectedIndex index s).1 = option /\
       Select.selectedIndex (Select_SetSelectedIndex index s).1 = index /\
       (Select_SetSelectedIndex index s).2 = changes (Select.onChange s) index) /\
  (index = (-1)%Z ->
     Select_GetSelectedOption (Select_SetSelectedIndex index s).1 = EmptyString /\
     (Select_SetSelectedIndex index s).2 = changes (Select.onChange s) (-1)) /\
  ((index < -1 \/ len (Select.options s) <= index)%Z ->
     Select_SetSelectedIndex index s = (s, [])).
Proof.
  unfold Select_SetSelectedIndex. split; [|split].
  - intros Hin.
    destruct (lookup_lt_is_Some_2 (Select.options s) (Z.to_nat index)) as [opt Hopt].
    { unfold len in Hin. lia. }
    exists opt. split; [done|].
    destruct (Z.leb_spec (-1) index); [|lia].
    destruct (Z.ltb_spec index (len (Select.options s))); [|lia].
    simpl. unfold Select_GetSelectedOption. simpl.
    destruct (Z.leb_spec 0 index); [|lia].
    destruct (Z.ltb_spec index (len (Select.options s))); [|lia].
    simpl. by rewrite Hopt.
  - intros ->. pose proof (len_nonneg (Select.options s)).
    destruct (Z.ltb_spec (-1) (len (Select.options s))); [|lia].
    simpl. done.
  - intros Hout.
    destruct (Z.leb_spec (-1) index), (Z.ltb_spec index (len (Select.options s)));
      simpl; try done; lia.
Qed.

Lemma Select_SetSelectedIndex_spec_witness :
  exists option,
    ["a"; "b"; "c"] !! Z.to_nat 1 = Some option /\
    Select_GetSelectedOption
      (Select_SetSelectedIndex 1 (Select.mk ["a"; "b"; "c"] (-1) (Some 4) false)).1
      = option /\
    Select.selectedIndex
      (Select_SetSelectedIndex 1 (Select.mk ["a"; "b"; "c"] (-1) (Some 4) false)).1
      = 1%Z /\
    (Select_SetSelectedIndex 1 (Select.mk ["a"; "b"; "c"] (-1) (Some 4) false)).2
      = changes (Some 4) 1.
Proof.
  apply (proj1 (Select_SetSelectedIndex_spec
                  (Select.mk ["a"; "b"; "c"] (-1) (Some 4) false) 1)).
  unfold len. simpl. lia.
Defined.

(** X25.  A press on row [i] of the open dropdown, the rows being 20 high
    and stacked under the box's computed bounds, selects option [i], closes
    the dropdown, calls [onChange] once with [i] and returns true, as long as
    the coordinates do not overflow. *)
Theorem Select_HandleMouseDown_picks_row (k : nat) (a : addr) (w : World)
    (bounds : Rect) (s : Select.t) (x y i dy : Z) :
  ComputedBounds k a w = Some (bounds, w) ->
  smallRect bounds ->
  small (len (Select.options s) * 20) ->
  Select.isOpen s = true ->
  (0 <= i < len (Select.options s))%Z ->
  (0 <= dy < 20)%Z ->
  (X bounds <= x < X bounds + Width bounds)%Z ->
  y = (Y bounds + Height bounds + 20 * i + dy)%Z ->
  Select_HandleMouseDown k a x y s w
    = Some (true, Select.set_isOpen false (Select.set_selectedIndex i s),
            changes (Select.onChange s) i, w).
Proof.
  unfold smallRect, small.
  intros Hcb (HX & HY & HW & HH) Hlen Hopen Hi Hdy Hx ->.
  unfold Select_HandleMouseDown. step Hcb.
  assert (Hmain : PointInRect (mkPoint x (Y bounds + Height bounds + 20 * i + dy))
                              bounds = false).
  { apply not_true_is_false. intros Hin.
    apply PointInRect_iff in Hin; simpl in *; lia. }
  rewrite Hmain, Hopen.
  assert (Hbottom : GoInt.add (Y bounds) (Height bounds) = (Y bounds + Height bounds)%Z).
  { unfold GoInt.add. apply GoInt_wrap_small. lia. }
  assert (Hheight : GoInt_mul (len (Select.options s)) 20
                    = (len (Select.options s) * 20)%Z).
  { unfold GoInt_mul. apply GoInt_wrap_small. lia. }
  rewrite Hbottom, Hheight.
  assert (Hdrop : PointInRect (mkPoint x (Y bounds + Height bounds + 20 * i + dy))
                    (mkRect (X bounds) (Y bounds + Height bounds) (Width bounds)
                            (len (Select.options s) * 20)) = true).
  { apply PointInRect_iff; simpl; lia. }
  rewrite Hdrop.
  assert (Hidx : GoInt.quot (GoInt.sub (Y bounds + Height bounds + 20 * i + dy)
                                       (Y bounds + Height bounds)) 20 = i).
  { unfold GoInt.quot, GoInt.sub.
    rewrite (GoInt_wrap_small (Y bounds + Height bounds + 20 * i + dy
                               - (Y bounds + Height bounds))) by lia.
    replace (Y bounds + Height bounds + 20 * i + dy - (Y bounds + Height bounds))%Z
      with (20 * i + dy)%Z by lia.
    assert (Hq : ((20 * i + dy) ÷ 20 = i)%Z).
    { pose proof (Z.quot_rem' (20 * i + dy) 20).
      pose proof (Z.rem_bound_pos (20 * i + dy) 20). lia. }
    rewrite Hq. apply GoInt_wrap_small. lia. }
  rewrite Hidx.
  destruct (Z.leb_spec 0 i); [|lia].
  destruct (Z.ltb_spec i (len (Select.options s))); [|lia]. simpl.
  unfold Select_SetSelectedIndex.
  destruct (Z.leb_spec (-1) i); [|lia].
  destruct (Z.ltb_spec i (len (Select.options s))); [|lia]. simpl.
  done.
Qed.

Lemma Select_HandleMouseDown_picks_row_witness :
  Select_HandleMouseDown 2 1 70 135 (Select.mk ["a"; "b"; "c"] (-1) (Some 4) true)
                         geometry_world
    = Some (true, Select.mk ["a"; "b"; "c"] 1 (Some 4) false, [Changed 4 1],
            geometry_world).
Proof.
  apply (Select_HandleMouseDown_picks_row 2 1 geometry_world (mkRect 60 72 30 40)
           (Select.mk ["a"; "b"; "c"] (-1) (Some 4) true) 70 135 1 3).
  - vm_compute. reflexivity.
  - unfold smallRect, small. simpl. lia.
  - unfold small, len. simpl. lia.
  - reflexivity.
  - unfold len. simpl. lia.
  - lia.
  - simpl. lia.
  - simpl. lia.
Defined.

(** ** Release on a plain element, clipping, layout and the screen *)

(** X26.  [HandleMouseUp] of [BaseElement], which plain elements, nodes,
    checkboxes, texts and labels all use, always leaves the element
    released, and returns true when the element was pressed and the point is
    inside its local bounds.  When no callback is called during the event,
    the release is the only change to the element (a checkbox does not
    toggle on release). *)
Theorem BaseElement_HandleMouseUp_releases (D : nat) (rk : addr -> nat) (k n : nat)
    (w : World) (t : DynType) (a : addr) (o : Object) (x y : Z) :
  wf D rk w -> D <= k -> rk a <= n ->
  heap w !! a = Some o ->
  t <> TButton -> t <> TFlexContainer ->
  exists res w' o',
    HandleMouseUp (S n) k (mkRef t a) x y w = Some (res, w') /\
    heap w' !! a = Some o' /\
    BaseElement.pressed (base o') = false /\
    (BaseElement.pressed (base o) = true ->
     PointInRect (mkPoint x y) (BaseElement.bounds (base o)) = true ->
     res = true) /\
    (log w' = log w -> o' = set_base (BaseElement.set_pressed false) o).
Proof.
  intros Hwf HDk Hrk Ho Hnb Hnf.
  assert (Hcall : handles D rk n (fun e => HandleMouse n k MouseUp e x y)).
  { apply (HandleMouse_total D rk k MouseUp x y HDk n). }
  assert (Hhead : HandleMouseUp (S n) k (mkRef t a) x y w
            = BaseElement_HandleMouseUp
                (fun e => HandleMouse n k MouseUp e x y) a x y w).
  { by destruct t. }
  rewrite Hhead. unfold BaseElement_HandleMouseUp.
  step (get_obj_run a w o Ho).
  step (modify_obj_run a (set_base (BaseElement.set_pressed false)) w o Ho).
  destruct (after_flags D rk a w o _ Hwf Ho (erase_set_pressed false o))
    as (Hwf1 & Ho1 & Hev1).
  destruct (dispatch_after D rk k n _ HDk Hcall a w _ _ Hrk Hwf1 Ho1 Hev1)
    as (res & w2 & Hrun & _ & Ho2 & _).
  assert (Hreleased : BaseElement.pressed
                        (base (set_base (BaseElement.set_pressed false) o)) = false)
    by (by destruct o as [[] ? ?]).
  destruct (BaseElement.pressed (base o)).
  - step (IsMouseOver_run a x y _ _ Ho1).
    assert (Hb : BaseElement.bounds (base (set_base (BaseElement.set_pressed false) o))
                 = BaseElement.bounds (base o)) by (by destruct o as [[] ? ?]).
    rewrite Hb.
    destruct (PointInRect _ _); simpl; step Hrun.
    + exists true, w2, (set_base (BaseElement.set_pressed false) o).
      split; [by destruct res|]. by repeat split.
    + exists res, w2, (set_base (BaseElement.set_pressed false) o).
      split; [by destruct res|]. by repeat split.
  - rewrite (bind_run _ _ _ _ false (ret_run false _)). simpl. step Hrun.
    exists res, w2, (set_base (BaseElement.set_pressed false) o).
    split; [by destruct res|]. by repeat split.
Qed.

Lemma BaseElement_HandleMouseUp_releases_witness :
  exists w',
    HandleMouseUp 1 1 (mkRef TNode 0) 5 5 pressed_node_world = Some (true, w') /\
    heap w' !! 0 = Some (set_base (BaseElement.set_pressed false) pressed_node) /\
    log w' = log pressed_node_world.
Proof.
  destruct (BaseElement_HandleMouseUp_releases 1 (fun _ => 0) 1 0 pressed_node_world
              TNode 0 pressed_node 5 5)
    as (res & w' & o' & Hrun & Ho' & _ & Hres & Hsame).
  - apply wfb_sound. vm_compute. reflexivity.
  - lia.
  - lia.
  - reflexivity.
  - discriminate.
  - discriminate.
  - assert (Hw : w' = worldAfter (HandleMouseUp 1 1 (mkRef TNode 0) 5 5
                                     pressed_node_world))
      by (by rewrite Hrun).
    assert (Hlog : log w' = log pressed_node_world)
      by (rewrite Hw; vm_compute; reflexivity).
    exists w'. split; [|split; [|exact Hlog]].
    + rewrite Hrun. by rewrite (Hres eq_refl eq_refl).
    + transitivity (Some o'); [exact Ho'|]. f_equal. exact (Hsame Hlog).
Defined.

(** X27.  The renderer's clipping test is conservative: when coordinates do
    not overflow, a rectangle that shares a point with the clip rectangle is
    never reported invisible. *)
Theorem isVisibleInClipRect_conservative (clipRect : Rect) (x y width height : Z)
    (p : Point) :
  smallRect clipRect ->
  smallRect (mkRect x y width height) ->
  PointInRect p (mkRect x y width height) = true ->
  PointInRect p clipRect = true ->
  isVisibleInClipRect clipRect x y width height = true.
Proof.
  unfold smallRect, small. simpl.
  intros (HcX & HcY & HcW & HcH) (Hx & Hy & Hw & Hh) Hin Hclip.
  apply PointInRect_iff in Hin; simpl; [|lia|lia].
  apply PointInRect_iff in Hclip; [|lia|lia]. simpl in Hin.
  unfold isVisibleInClipRect, GoInt.add.
  rewrite !GoInt_wrap_small by lia.
  destruct (Z.ltb_spec (x + width) (X clipRect)); [lia|].
  destruct (Z.ltb_spec (X clipRect + Width clipRect) x); [lia|].
  destruct (Z.ltb_spec (y + height) (Y clipRect)); [lia|].
  destruct (Z.ltb_spec (Y clipRect + Height clipRect) y); [lia|].
  done.
Qed.

Lemma isVisibleInClipRect_conservative_witness :
  isVisibleInClipRect (mkRect 0 0 1200 800) 1190 790 50 50 = true.
Proof.
  apply (isVisibleInClipRect_conservative (mkRect 0 0 1200 800) 1190 790 50 50
           (mkPoint 1195 795)).
  - unfold smallRect, small. simpl. lia.
  - unfold smallRect, small. simpl. lia.
  - reflexivity.
  - reflexivity.
Defined.

(** X28.  A layout pass does not move elements on the screen.  On a
    well-formed tree, an element that is not fixed and whose parent is the
    container or anything ranked at least as high keeps the origin of its
    computed bounds through [updateLayout]: that origin comes from the
    parent and the relative position, not from the local x and y the pass
    writes. *)
Theorem updateLayout_keeps_computed_origin (D : nat) (rk : addr -> nat) (w : World)
    (k : nat) (f : addr) (o : Object) (ff : FlexContainer.t)
    (a : addr) (oa : Object) (p : Ref) (r0 : Rect) :
  wf D rk w -> D <= k ->
  heap w !! f = Some o ->
  widget o = WFlexContainer ff ->
  heap w !! a = Some oa ->
  BaseElement.parent (base oa) = Some p ->
  rk f <= rk (raddr p) ->
  Node.positionType (node oa) <> PositionFixed ->
  ComputedBounds k a w = Some (r0, w) ->
  exists w' r1, updateLayout k f w = Some (tt, w') /\
    ComputedBounds k a w' = Some (r1, w') /\
    X r1 = X r0 /\ Y r1 = Y r0.
Proof.
  intros Hwf Hk Ho Hw Hoa Hp Hrkp Hfix Hcb.
  destruct (ComputedBounds_total D rk w k f o Hwf Hk Ho) as [bounds Hcbf].
  destruct (Hwf f o Ho) as (_ & Hch & _).
  assert (Hpres : forall c, c ∈ BaseElement.children (base o) ->
            is_Some (heap w !! raddr c)).
  { intros c Hc. destruct (Hch c Hc) as [(oc & Hoc & _) _]. by eexists. }
  assert (Hrank : forall b, rk f <= rk b ->
            b ∉ map raddr (BaseElement.children (base o))).
  { intros b Hb Hin. apply list_elem_of_fmap in Hin as (c & -> & Hc).
    destruct (Hch c Hc) as [_ Hlt]. lia. }
  destruct (updateLayout_spec k w f o ff bounds Ho Hw Hcbf Hpres)
    as (w' & Hrun & _ & Hframe & _ & Hshape & _).
  destruct (Hshape a oa Hoa) as (r & Hoa' & _).
  destruct (Hwf a oa Hoa) as (_ & _ & Hpar).
  destruct (Hpar p Hp) as [[po Hpo] Hlt].
  assert (Hpo' : heap w' !! raddr p = Some po).
  { rewrite Hframe; [done|]. by apply Hrank. }
  assert (Hup : forall j, resolve j (heap w') (raddr p) = resolve j (heap w) (raddr p)).
  { intros j. apply (resolve_above D rk w); [done|].
    intros b Hb. rewrite Hframe; [done|]. apply Hrank. lia. }
  apply ComputedBounds_Some in Hcb.
  destruct k as [|k]; [discriminate|].
  rewrite (resolve_parented _ _ _ _ _ Hoa Hp Hfix) in Hcb.
  assert (Hpp : BaseElement.parent (base (with_bounds r oa)) = Some p)
    by (rewrite <- Hp; by destruct oa as [[] ? ?]).
  assert (Hres : resolve (S k) (heap w') a = _)
    by (apply (resolve_parented k (heap w') a (with_bounds r oa) p Hoa' Hpp Hfix)).
  rewrite Hup, Hpo' in Hres. rewrite Hpo in Hcb.
  match type of Hcb with (?m ≫= _) = _ => destruct m as [pb|] end;
    [|discriminate].
  simpl in Hcb, Hres. injection Hcb as <-.
  exists w'. eexists. split; [done|]. split.
  - apply ComputedBounds_Some. exact Hres.
  - by split.
Qed.

Lemma updateLayout_keeps_computed_origin_witness :
  exists w' r1, updateLayout 2 0 row_world = Some (tt, w') /\
    ComputedBounds 2 2 w' = Some (r1, w') /\
    X r1 = X (mkRect 0 0 120 40) /\ Y r1 = Y (mkRect 0 0 120 40).
Proof.
  apply (updateLayout_keeps_computed_origin 2 row_rank row_world 2 0 row_container
           (FlexContainer.mk FlexRow AlignStart AlignStart 10) 2
           (plainNode "b" (mkRect 130 5 120 40) (Some (mkRef TBaseElement 0)) [] Node.new)
           (mkRef TBaseElement 0) (mkRect 0 0 120 40)).
  - apply wfb_sound. vm_compute. reflexivity.
  - lia.
  - reflexivity.
  - reflexivity.
  - reflexivity.
  - reflexivity.
  - simpl. lia.
  - discriminate.
  - vm_compute. reflexivity.
Defined.
